(** * DISE-AI: region extraction and statistics aggregation

    A shallow embedding of the algorithmic core of the repository:

    - [Utils.calculatePolygonArea]                       (services/logic)
    - [ColorAlgorithm]: [floodFill], [colorMatch], [convexHull],
      [simplifyRDP], [perpDist]                          (services/logic)
    - [AIColorAlgorithm]: [scanFrame], [extractEdgesFromMask], [convexHull],
      [simplifyRDP], [perpendicularDistance]             (components/AIColorAlgorithm)
    - [SummaryManager.calculateStats]                    (services/logic)

    Conventions.  A JavaScript [number] that carries a measurement (a
    coordinate, an area, a distance, a percentage) is a real number of type
    [R]: IEEE rounding, [NaN] and the infinities are idealised away, except
    that a failed [parseFloat] is [None].  Integer data (the bytes of a
    [Uint8ClampedArray], pixel indices, pixel counts, rounded seed
    coordinates) is [Z], so the pixel-level code stays executable.
    Recursion that the source does not bound structurally ([simplifyRDP],
    the work queue of [floodFill]) takes a fuel argument; [None] means the
    fuel ran out.  [Number.t] adds [NaN] and the infinities to the reals;
    [Stats.calculateStats] is [SummaryManager.calculateStats] over it. *)

From Stdlib Require Import String Ascii.
From Stdlib Require Import ZArith List Bool Lia Arith.
From Stdlib Require Import Reals Lra Psatz.
From Stdlib Require Import Permutation Sorted.
From Stdlib Require DecimalString DecimalZ DecimalPos.
Import ListNotations.

(** ** Shared data model (types.ts) *)

Record Point : Type := mkPoint { px : R; py : R }.

Record Box : Type := mkBox { bx : R; by_ : R; bw : R; bh : R }.

(** [Array.prototype.slice(from, to)] on indices inside the array. *)
Definition slice {A : Type} (from to : nat) (l : list A) : list A :=
  firstn (to - from) (skipn from l).

(** [arr.slice(0, arr.length - 1)] *)
Definition dropLast {A : Type} (l : list A) : list A :=
  slice 0 (length l - 1) l.

(** [arr[0]] and [arr[arr.length - 1]]; [None] is [undefined]. *)
Definition first_ {A : Type} (l : list A) : option A := nth_error l 0.
Definition last_ {A : Type} (l : list A) : option A :=
  nth_error l (length l - 1).

(** Cyclic rotation of an array by [k] places. *)
Definition rotate {A : Type} (k : nat) (l : list A) : list A :=
  skipn k l ++ firstn k l.

(** * JavaScript built-ins used by the code *)

Module JS.

Local Open Scope R_scope.

(** [x < y], [x <= y], [x === y] on numbers. *)
Definition ltb (x y : R) : bool := if Rlt_dec x y then true else false.
Definition leb (x y : R) : bool := if Rle_dec x y then true else false.
Definition eqb (x y : R) : bool := if Req_dec_T x y then true else false.

(** [Math.hypot(x, y)] and [Math.sqrt(Math.pow(x, 2) + Math.pow(y, 2))]. *)
Definition hypot (x y : R) : R := sqrt (x * x + y * y).
Definition sqrtPow2 (x y : R) : R := sqrt (x ^ 2 + y ^ 2).

(** [parseFloat(x.toFixed(1))]: [toFixed(1)] prints the multiple of one
    tenth nearest to [x] (the larger one on a tie, sign apart) and
    [parseFloat] reads it back. *)
Definition roundTenth (x : R) : R :=
  if Rlt_dec x 0
  then - (IZR (Zfloor (- x * 10 + / 2)) / 10)
  else IZR (Zfloor (x * 10 + / 2)) / 10.

(** [data[i]] on a typed array: [undefined] outside the array. *)
Definition at_ (data : list Z) (i : Z) : option Z :=
  if (i <? 0)%Z then None else nth_error data (Z.to_nat i).

(** [for (let k = lo; k < hi; k++)]: the values [k] takes. *)
Definition range (lo hi : Z) : list Z :=
  map (fun k => (lo + Z.of_nat k)%Z) (seq 0 (Z.to_nat (hi - lo))).

(** [Array.prototype.sort(comparator)]: a stable sort.  [le a b] stands for
    "[comparator(a, b)] is not positive" (a [NaN] result counts as zero). *)
Section Sort.

Variable A : Type.
Variable le : A -> A -> bool.

Fixpoint insertBy (x : A) (l : list A) : list A :=
  match l with
  | [] => [x]
  | y :: l' => if le x y then x :: l else y :: insertBy x l'
  end.

Definition sortBy (l : list A) : list A := fold_right insertBy [] l.

End Sort.

Arguments insertBy {A} le x l.
Arguments sortBy {A} le l.

(** The decimal fragment of [parseFloat]: leading blanks, then the longest
    prefix of the form [digits] or [digits.digits]; [None] is [NaN].
    Signs, exponents and [Infinity] are outside this fragment;
    [Number.parseFloat] reads them. *)
Definition digitOf (c : ascii) : option Z :=
  let n := Z.of_nat (nat_of_ascii c) in
  if ((48 <=? n) && (n <=? 57))%Z then Some (n - 48)%Z else None.

Fixpoint readDigits (s : string) (acc : Z) (count : nat)
  : Z * nat * string :=
  match s with
  | String c s' =>
      match digitOf c with
      | Some d => readDigits s' (acc * 10 + d)%Z (S count)
      | None => (acc, count, s)
      end
  | EmptyString => (acc, count, s)
  end.

Fixpoint skipBlanks (s : string) : string :=
  match s with
  | String c s' => if Ascii.eqb c " "%char then skipBlanks s' else s
  | EmptyString => s
  end.

Definition parseFloat (s : string) : option R :=
  let '(ip, n, rest) := readDigits (skipBlanks s) 0%Z 0%nat in
  match n with
  | O => None
  | S _ =>
      match rest with
      | String "."%char frac =>
          let '(m, k, _) := readDigits frac ip 0%nat in
          Some (IZR m / IZR (10 ^ Z.of_nat k))
      | _ => Some (IZR ip)
      end
  end.

End JS.

(** * Array objects

    [convexHull] sorts the array it is given.  Arrays that are passed by
    reference live in a store; a reference is an index into it. *)

Module Heap.

Definition t : Type := list (list Point).
Definition ref : Type := nat.

Definition get (h : t) (r : ref) : list Point := nth r h [].

Definition set (h : t) (r : ref) (a : list Point) : t :=
  if r <? length h then firstn r h ++ a :: skipn (S r) h else h.

(** A new array object: its reference is one no older array has. *)
Definition alloc (h : t) (a : list Point) : t * ref := (h ++ [a], length h).

End Heap.

(** * Code that both ColorAlgorithm objects repeat

    The monotone-chain loops of [convexHull] and the recursion of
    [simplifyRDP] are the same text in services/logic and in
    AIColorAlgorithm; they differ in the sort comparator and in the
    distance helper, which are parameters here. *)

Module Kernel.

Local Open Scope R_scope.

Definition origin : Point := mkPoint 0 0.

(** [cross = (o, a, b) => (a.x - o.x) * (b.y - o.y) - (a.y - o.y) * (b.x - o.x)] *)
Definition cross (o a b : Point) : R :=
  (px a - px o) * (py b - py o) - (py a - py o) * (px b - px o).

(** [while (s.length >= 2 && cross(s[s.length - 2], s[s.length - 1], p) <= 0)
      s.pop();]
    The stack is kept with its top first. *)
Fixpoint popWhile (stack : list Point) (p : Point) : list Point :=
  match stack with
  | b :: ((a :: _) as rest) =>
      if JS.leb (cross a b p) 0 then popWhile rest p else stack
  | _ => stack
  end.

Definition pushPoint (stack : list Point) (p : Point) : list Point :=
  p :: popWhile stack p.

(** One chain, in array order (bottom first). *)
Definition chain (pts : list Point) : list Point :=
  rev (fold_left pushPoint pts []).

(** Everything after the sort: [lower] over the points, [upper] over the
    points from last to first, [upper.pop(); lower.pop();
    lower.concat(upper)]. *)
Definition hullOfSorted (sorted : list Point) : list Point :=
  removelast (chain sorted) ++ removelast (chain (rev sorted)).

Section Hull.

(** [le a b]: the comparator of [points.sort] is not positive. *)
Variable le : Point -> Point -> bool.

(** The returned value of [convexHull]. *)
Definition hullValue (points : list Point) : list Point :=
  if (length points <? 3)%nat then points
  else hullOfSorted (JS.sortBy le points).

(** [convexHull(points)] on array objects: the new store and the
    reference that is returned. *)
Definition convexHull (h : Heap.t) (points : Heap.ref) : Heap.t * Heap.ref :=
  if (length (Heap.get h points) <? 3)%nat then (h, points)
  else
    let h1 := Heap.set h points (JS.sortBy le (Heap.get h points)) in
    Heap.alloc h1 (hullOfSorted (Heap.get h1 points)).

End Hull.

Section RDP.

(** [dist p p1 p2]: the distance helper applied to [points[i]] and the
    chord [points[0]], [points[end]]. *)
Variable dist : Point -> Point -> Point -> R.

(** The loop [for (let i = 1; i < end; i++)]: the final [(index, dmax)]. *)
Definition farthest (points : list Point) : nat * R :=
  let end_ := (length points - 1)%nat in
  fold_left
    (fun (acc : nat * R) (i : nat) =>
       let d := dist (nth i points origin) (nth 0 points origin)
                     (nth end_ points origin) in
       if JS.ltb (snd acc) d then (i, d) else acc)
    (seq 1 (end_ - 1)) (0%nat, 0).

Fixpoint simplifyRDP (fuel : nat) (points : list Point) (epsilon : R)
  : option (list Point) :=
  if (length points <? 3)%nat then Some points
  else
    match fuel with
    | O => None
    | S fuel' =>
        let end_ := (length points - 1)%nat in
        let '(index, dmax) := farthest points in
        if JS.ltb epsilon dmax then
          match simplifyRDP fuel' (slice 0 (index + 1) points) epsilon with
          | None => None
          | Some res1 =>
              match simplifyRDP fuel' (slice index (end_ + 1) points) epsilon with
              | None => None
              | Some res2 => Some (dropLast res1 ++ res2)
              end
          end
        else Some [nth 0 points origin; nth end_ points origin]
    end.

End RDP.

End Kernel.

(** * Utils (services/logic) *)

Module Utils.

Local Open Scope R_scope.

(** [calculatePolygonArea]: the shoelace sum over [i] and
    [j = (i + 1) % n], halved, in absolute value. *)
Definition shoelace (points : list Point) : R :=
  let n := length points in
  fold_left
    (fun (a : R) (i : nat) =>
       let j := ((i + 1) mod n)%nat in
       a + (px (nth i points Kernel.origin) * py (nth j points Kernel.origin)
            - px (nth j points Kernel.origin) * py (nth i points Kernel.origin)))
    (seq 0 n) 0.

Definition calculatePolygonArea (points : list Point) : R :=
  Rabs (shoelace points / 2).

End Utils.

(** * ColorAlgorithm (services/logic) *)

Module ColorAlgorithm.

Section Pixels.

Local Open Scope Z_scope.

(** An integer pixel coordinate: [findBoundary] rounds the seed before the
    call, and every later pixel is built from integer offsets. *)
Definition Pixel : Type := (Z * Z)%type.

Definition pixel_eqb (a b : Pixel) : bool :=
  (fst a =? fst b) && (snd a =? snd b).

(** [visited : Set<string>] keyed by ["x,y"]: an insertion-ordered set of
    integer pairs. *)
Definition has (v : list Pixel) (k : Pixel) : bool := existsb (pixel_eqb k) v.

Definition add (v : list Pixel) (k : Pixel) : list Pixel :=
  if has v k then v else v ++ [k].

(** [getIndex = (x, y) => (y * width + x) * 4] *)
Definition getIndex (width x y : Z) : Z := (y * width + x) * 4.

(** [colorMatch(r, g, b, tr, tg, tb, tol)]:
    [Math.sqrt((r-tr)^2 + (g-tg)^2 + (b-tb)^2) <= tol].
    On integers the comparison is decided without the root, see
    [colorMatch_sqrt]. *)
Definition dist2 (r g b tr tg tb : Z) : Z :=
  (r - tr) ^ 2 + (g - tg) ^ 2 + (b - tb) ^ 2.

Definition colorMatch (r g b tr tg tb tol : Z) : bool :=
  (0 <=? tol) && (dist2 r g b tr tg tb <=? tol * tol).

(** [this.colorMatch(data[idx], data[idx + 1], data[idx + 2], ...)]: an
    [undefined] channel makes the distance [NaN], and [NaN <= tol] is
    false. *)
Definition matchAt (data : list Z) (idx : Z) (target : Z * Z * Z) (tol : Z)
  : bool :=
  let '(tr, tg, tb) := target in
  match JS.at_ data idx, JS.at_ data (idx + 1), JS.at_ data (idx + 2) with
  | Some r, Some g, Some b => colorMatch r g b tr tg tb tol
  | _, _, _ => false
  end.

Definition inBounds (width height x y : Z) : bool :=
  (0 <=? x) && (x <? width) && (0 <=? y) && (y <? height).

(** The mutable locals of [floodFill]. *)
Record State : Type := mkState {
  start : Pixel;
  visited : list Pixel;
  queue : list Pixel
}.

Section Fill.

Variables (data : list Z) (width height : Z).
Variables (target : Z * Z * Z) (tol : Z).

(** Inner loop of the window search,
    [for (x = start.x - 2; x <= start.x + 2; x++)], over the remaining
    columns [xs]; [break] at the first match. *)
Fixpoint scanRow (y : Z) (xs : list Z) (st : State) : State :=
  match xs with
  | [] => st
  | x :: xs' =>
      if inBounds width height x y
         && matchAt data (getIndex width x y) target tol
      then mkState (x, y) (add (visited st) (x, y)) (queue st ++ [(x, y)])
      else scanRow y xs' st
  end.

(** Outer loop, [for (y = start.y - 2; y <= start.y + 2; y++)]: the column
    range is fixed by the seed the loop was entered with; after each row,
    [if (queue.length > 0) break]. *)
Fixpoint scanWindow (xs ys : list Z) (st : State) : State :=
  match ys with
  | [] => st
  | y :: ys' =>
      let st' := scanRow y xs st in
      if (0 <? Z.of_nat (length (queue st'))) then st'
      else scanWindow xs ys' st'
  end.

Definition offsets (c : Z) : list Z := [c - 2; c - 1; c; c + 1; c + 2].

(** One neighbour of the BFS step. *)
Definition visit (acc : list Pixel * list Pixel) (n : Pixel)
  : list Pixel * list Pixel :=
  let '(v, q) := acc in
  let '(nx, ny) := n in
  if inBounds width height nx ny && negb (has v (nx, ny))
  then if matchAt data (getIndex width nx ny) target tol
       then (add v (nx, ny), q ++ [(nx, ny)])
       else (v, q)
  else (v, q).

Definition neighbors (p : Pixel) : list Pixel :=
  let '(x, y) := p in [(x, y - 1); (x, y + 1); (x - 1, y); (x + 1, y)].

(** [while (queue.length > 0) { current = queue.shift(); ... }] *)
Fixpoint bfs (fuel : nat) (v q : list Pixel) : option (list Pixel) :=
  match fuel with
  | O => None
  | S fuel' =>
      match q with
      | [] => Some v
      | current :: rest =>
          let '(v', q') := fold_left visit (neighbors current) (v, rest) in
          bfs fuel' v' q'
      end
  end.

(** [floodFill(data, width, height, start, target, tol)]; the result is the
    [visited] set. *)
Definition floodFill (fuel : nat) (seed : Pixel) : option (list Pixel) :=
  let st0 := mkState seed [] [seed] in
  let '(sx, sy) := seed in
  if negb (matchAt data (getIndex width sx sy) target tol)
  then
    let st := scanWindow (offsets sx) (offsets sy) st0 in
    if (Z.of_nat (length (queue st)) =? 0) then Some (visited st)
    else bfs fuel (visited st) (queue st)
  else
    bfs fuel (add (visited st0) seed) (queue st0).

(** Whether some in-bounds pixel of the 5x5 window centred on the seed
    matches the target within tolerance. *)
Definition windowHasMatch (seed : Pixel) : bool :=
  let '(sx, sy) := seed in
  existsb (fun y =>
    existsb (fun x =>
      inBounds width height x y
      && matchAt data (getIndex width x y) target tol) (offsets sx))
    (offsets sy).

End Fill.

End Pixels.

Local Open Scope R_scope.

(** [perpDist(p, p1, p2)] *)
Definition perpDist (p p1 p2 : Point) : R :=
  let dx := px p2 - px p1 in
  let dy := py p2 - py p1 in
  if JS.eqb dx 0 && JS.eqb dy 0 then JS.hypot (px p - px p1) (py p - py p1)
  else
    let num := Rabs (dy * px p - dx * py p + px p2 * py p1 - py p2 * px p1) in
    let den := JS.hypot dx dy in
    num / den.

(** [simplifyRDP(points, epsilon)]: the distance of [points[i]] is
    [this.perpDist(points[i], points[0], points[end])]. *)
Definition simplifyRDP : nat -> list Point -> R -> option (list Point) :=
  Kernel.simplifyRDP perpDist.

(** [points.sort((a, b) => a.x - b.x || a.y - b.y)] *)
Definition comparator (a b : Point) : R :=
  if JS.eqb (px a - px b) 0 then py a - py b else px a - px b.

Definition sortLe (a b : Point) : bool := JS.leb (comparator a b) 0.

Definition convexHull : Heap.t -> Heap.ref -> Heap.t * Heap.ref :=
  Kernel.convexHull sortLe.

End ColorAlgorithm.

(** * ColorAlgorithm (components/AIColorAlgorithm) *)

Module AIColorAlgorithm.

Local Open Scope R_scope.

Definition MODEL_SIZE : Z := 256.

(** [perpendicularDistance(p, p1, p2, normalLength?)] *)
Definition perpendicularDistance (p p1 p2 : Point) (normalLength : option R)
  : R :=
  let area :=
    Rabs (0.5 * (px p1 * py p2 + px p2 * py p + px p * py p1
                 - px p2 * py p1 - px p * py p2 - px p1 * py p)) in
  let bottom :=
    match normalLength with
    | Some l => l
    | None => JS.sqrtPow2 (px p1 - px p2) (py p1 - py p2)
    end in
  if JS.eqb bottom 0 then 0 else (area / bottom) * 2.

(** The distance used inside [simplifyRDP]: [normalLength] is computed from
    [p1 = points[0]] and [p2 = points[end]] before the loop and passed on. *)
Definition chordDistance (p p1 p2 : Point) : R :=
  let normalLength := JS.sqrtPow2 (px p1 - px p2) (py p1 - py p2) in
  perpendicularDistance p p1 p2 (Some normalLength).

Definition simplifyRDP : nat -> list Point -> R -> option (list Point) :=
  Kernel.simplifyRDP chordDistance.

(** [points.sort((a, b) => (a.x === b.x ? a.y - b.y : a.x - b.x))] *)
Definition comparator (a b : Point) : R :=
  if JS.eqb (px a) (px b) then py a - py b else px a - px b.

Definition sortLe (a b : Point) : bool := JS.leb (comparator a b) 0.

Definition convexHull : Heap.t -> Heap.ref -> Heap.t * Heap.ref :=
  Kernel.convexHull sortLe.

(** [data[i]] used as a condition. *)
Definition on (data : list Z) (i : Z) : bool :=
  match JS.at_ data i with
  | Some v => negb (v =? 0)%Z
  | None => false
  end.

(** [extractEdgesFromMask(data, width, height)] *)
Definition extractEdgesFromMask (data : list Z) (width height : Z)
  : list Point :=
  let w_minus_1 := (width - 1)%Z in
  let h_minus_1 := (height - 1)%Z in
  flat_map (fun y =>
    let y_offset := (y * width)%Z in
    let y_minus_offset := ((y - 1) * width)%Z in
    let y_plus_offset := ((y + 1) * width)%Z in
    flat_map (fun x =>
      let idx := (y_offset + x)%Z in
      if on data idx
      then if negb (on data (y_minus_offset + x))
              || negb (on data (y_plus_offset + x))
              || negb (on data (y_offset + x - 1))
              || negb (on data (y_offset + x + 1))
           then [mkPoint (IZR x) (IZR y)]
           else []
      else []) (JS.range 1 w_minus_1)) (JS.range 1 h_minus_1).

(** The helper calls of [scanFrame] are recorded in a log, so that "was
    not invoked" can be stated.  A computation may also fail to return
    (the recursion of [simplifyRDP] running out of fuel). *)
Inductive Call : Type := CallExtractEdges | CallConvexHull | CallSimplifyRDP.

Definition M (A : Type) : Type := list Call -> option (A * list Call).

Definition ret {A : Type} (a : A) : M A := fun log => Some (a, log).

Definition bind {A B : Type} (m : M A) (k : A -> M B) : M B :=
  fun log =>
    match m log with
    | Some (a, log') => k a log'
    | None => None
    end.

(** A call of helper [c] whose outcome is [r]. *)
Definition invoke {A : Type} (c : Call) (r : option A) : M A :=
  fun log =>
    match r with
    | Some a => Some (a, log ++ [c])
    | None => None
    end.

Notation "x <- m ;; k" := (bind m (fun x => k))
  (at level 61, m at next level, right associativity).

Record ScanResult : Type := mkScan { area : R; polygon : list Point }.

(** [for (let i = 0; i < len; i++) if (maskData[i]) whitePixels++] *)
Definition countWhite (maskData : list Z) : Z :=
  fold_left
    (fun (whitePixels : Z) (i : Z) =>
       if on maskData i then (whitePixels + 1)%Z else whitePixels)
    (JS.range 0 (Z.of_nat (length maskData))) 0%Z.

(** [scanFrame(imageData)] from the point where the binarized mask
    [maskData] of the frame is known; [imgW] and [imgH] are
    [imageData.width] and [imageData.height]. *)
Definition scanFrame (fuel : nat) (maskData : list Z) (imgW imgH : Z)
  : M ScanResult :=
  let scaleX := IZR imgW / IZR MODEL_SIZE in
  let scaleY := IZR imgH / IZR MODEL_SIZE in
  let whitePixels := countWhite maskData in
  let realArea := IZR whitePixels * scaleX * scaleY in
  originalSizePoints <-
    (if (20 <? whitePixels)%Z then
       edgePoints <- invoke CallExtractEdges
         (Some (extractEdgesFromMask maskData MODEL_SIZE MODEL_SIZE)) ;;
       if (0 <? length edgePoints)%nat then
         hullPoints <- invoke CallConvexHull
           (Some (Kernel.hullValue sortLe edgePoints)) ;;
         invoke CallSimplifyRDP
           (simplifyRDP fuel
              (map (fun p => mkPoint (px p * scaleX) (py p * scaleY))
                   hullPoints)
              3.0)
       else ret []
     else ret []) ;;
  ret (mkScan (JS.roundTenth realArea) originalSizePoints).

End AIColorAlgorithm.

(** * SummaryManager (services/logic) *)

Module SummaryManager.

Local Open Scope R_scope.
Local Open Scope string_scope.

Record AnnotationData : Type := mkAnnotation {
  time : R;
  area : string;
  areaCategory : option string;
  polygon : list Point;
  box : option Box;
  srcDataUrl : string;
  obs_pct : option R;
  v_height : option R;
  o_width : option R
}.

(** A number that may be [NaN] is an [option R]. *)
Record AnalysisStats : Type := mkStats {
  smallest : AnnotationData;
  largest : AnnotationData;
  obstructionPercent : option R;
  voteScore : Z;
  error : option string
}.

(** The record built when no valid record exists. *)
Definition placeholder : AnnotationData :=
  mkAnnotation 0 "0" (Some "N/A") [] None "" (Some 0) None None.

Definition errorText : string := "需要至少兩筆有效數據才能分析！".

(** Comparisons with a [NaN] operand are false. *)
Definition gt (a : option R) (b : R) : bool :=
  match a with Some x => JS.ltb b x | None => false end.

Definition ge (a : option R) (b : R) : bool :=
  match a with Some x => JS.leb b x | None => false end.

Definition sub (a b : option R) : option R :=
  match a, b with Some x, Some y => Some (x - y) | _, _ => None end.

Definition div (a b : option R) : option R :=
  match a, b with Some x, Some y => Some (x / y) | _, _ => None end.

Section Stats.

(** [parseFloat]; [None] is [NaN]. *)
Variable parseFloat : string -> option R.

(** [(item) => item.area && parseFloat(item.area) > 0] *)
Definition isValid (item : AnnotationData) : bool :=
  negb (String.eqb (area item) "") && gt (parseFloat (area item)) 0.

(** [(a, b) => parseFloat(a.area) - parseFloat(b.area)] is not positive. *)
Definition areaLe (a b : AnnotationData) : bool :=
  match sub (parseFloat (area a)) (parseFloat (area b)) with
  | Some d => JS.leb d 0
  | None => true
  end.

(** [const validData = Array.from(annotationsMap.values()).filter(...)];
    the map is its entries in insertion order. *)
Definition validData (annotationsMap : list (R * AnnotationData))
  : list AnnotationData :=
  filter isValid (map snd annotationsMap).

(** [const sorted = [...validData].sort(...)] *)
Definition sorted (annotationsMap : list (R * AnnotationData))
  : list AnnotationData :=
  JS.sortBy areaLe (validData annotationsMap).

(** [calculateStats(annotationsMap)].  [sorted[0]] and
    [sorted[sorted.length - 1]] are read on an array of two or more
    records, so the default of [nth] is never returned. *)
Definition calculateStats (annotationsMap : list (R * AnnotationData))
  : AnalysisStats :=
  let validData := validData annotationsMap in
  if (length validData <? 2)%nat then
    let singleData :=
      if (length validData =? 1)%nat then nth 0 validData placeholder
      else placeholder in
    mkStats singleData singleData (Some 0) 0%Z (Some errorText)
  else
    let sorted := sorted annotationsMap in
    let smallest := nth 0 sorted placeholder in
    let largest := nth (length sorted - 1) sorted placeholder in
    let minArea := parseFloat (area smallest) in
    let maxArea := parseFloat (area largest) in
    let obstructionPercent :=
      if gt maxArea 0
      then match div (sub maxArea minArea) maxArea with
           | Some q => Some (q * 100)
           | None => None
           end
      else Some 0 in
    let voteScore :=
      if gt obstructionPercent 75 then 2%Z
      else if ge obstructionPercent 50 then 1%Z
      else 0%Z in
    mkStats smallest largest obstructionPercent voteScore None.

(** The number the [area] of a record parses to (0 stands in for [NaN];
    it is only read on valid records). *)
Definition parsedArea (item : AnnotationData) : R :=
  match parseFloat (area item) with Some a => a | None => 0 end.

End Stats.

End SummaryManager.

(** * Vocabulary of the statements *)

Section Vocabulary.

Local Open Scope R_scope.

(** Ascending by [x], ties broken by [y]. *)
Definition lexLe (a b : Point) : Prop :=
  px a < px b \/ (px a = px b /\ py a <= py b).

(** Straight-line distance between two points. *)
Definition euclid (p q : Point) : R :=
  sqrt ((px p - px q) ^ 2 + (py p - py q) ^ 2).

(** One summand of the shoelace formula, the summands along the polyline
    [a, l], and the summands around the closed polygon [l]. *)
Definition term (p q : Point) : R := px p * py q - px q * py p.

Fixpoint path (a : Point) (l : list Point) : R :=
  match l with
  | [] => 0
  | b :: t => term a b + path b t
  end.

Definition pathL (m : list Point) : R :=
  match m with
  | [] => 0
  | a :: t => path a t
  end.

Definition closed (l : list Point) : R := pathL (l ++ firstn 1 l).

(** The number of "on" cells of a mask. *)
Definition onCount (maskData : list Z) : Z :=
  Z.of_nat (length (filter (fun v => negb (v =? 0)%Z) maskData)).

End Vocabulary.

(** * Sample inputs *)

Section Samples.

Local Open Scope R_scope.
Local Open Scope string_scope.

(** A 5x5 RGBA frame that is black except for a red pixel in its bottom
    right corner (4,4). *)
Definition blackPx : list Z := [0; 0; 0; 255]%Z.
Definition redPx : list Z := [255; 0; 0; 255]%Z.
Definition cornerFrame : list Z := concat (repeat blackPx 24) ++ redPx.

(** Three points on the x axis, and a right triangle. *)
Definition collinear3 : list Point := [mkPoint 0 0; mkPoint 1 0; mkPoint 2 0].
Definition triangle : list Point := [mkPoint 0 0; mkPoint 1 0; mkPoint 0 1].

(** A 256x256 mask with a single "on" cell, and the all-zero mask. *)
Definition onePixelMask : list Z := 1%Z :: repeat 0%Z (Z.to_nat 65535).
Definition zeroMask : list Z := repeat 0%Z (Z.to_nat 65536).

(** The records [{t=0, area=100000}] and [{t=1, area=25000}]. *)
Definition record100000 : SummaryManager.AnnotationData :=
  SummaryManager.mkAnnotation 0 "100000" None [] None "" None None None.
Definition record25000 : SummaryManager.AnnotationData :=
  SummaryManager.mkAnnotation 1 "25000" None [] None "" None None None.
Definition sampleMap : list (R * SummaryManager.AnnotationData) :=
  [(0, record100000); (1, record25000)].

End Samples.

(** * Utils (services/logic): boxes, vertices and edges *)

Module Editing.

Local Open Scope R_scope.
Local Open Scope string_scope.

(** An entry of [getBoxHandles]: [{ x, y, name }]. *)
Record BoxHandle : Type := mkHandle { hx : R; hy : R; name : string }.

(** [getBoxHandles(box)] *)
Definition getBoxHandles (box : Box) : list BoxHandle :=
  let x := bx box in
  let y := by_ box in
  let w := bw box in
  let h := bh box in
  [ mkHandle x y "tl"; mkHandle (x + w) y "tr";
    mkHandle (x + w) (y + h) "br"; mkHandle x (y + h) "bl" ].

(** [Math.abs(m.x - x) < size * 2 && Math.abs(m.y - y) < size * 2] *)
Definition within (m : Point) (x y size : R) : bool :=
  JS.ltb (Rabs (px m - x)) (size * 2) && JS.ltb (Rabs (py m - y)) (size * 2).

(** [getBoxHandle(m, box, size)]:
    [getBoxHandles(box).find(...)?.name || null]; [None] is [null]. *)
Definition getBoxHandle (m : Point) (box : Box) (size : R) : option string :=
  match find (fun h => within m (hx h) (hy h) size) (getBoxHandles box) with
  | Some h => if String.eqb (name h) "" then None else Some (name h)
  | None => None
  end.

(** [resizeBox(handle, m, box)]: the [switch] on the handle name, then the
    two lower bounds on [w] and [hh]. *)
Definition resizeBox (handle : string) (m : Point) (box : Box) : Box :=
  let x := bx box in
  let y := by_ box in
  let w := bw box in
  let hh := bh box in
  let '(x, y, w, hh) :=
    if String.eqb handle "tl" then (px m, py m, w + (x - px m), hh + (y - py m))
    else if String.eqb handle "tr" then (x, py m, px m - x, hh + (y - py m))
    else if String.eqb handle "br" then (x, y, px m - x, py m - y)
    else if String.eqb handle "bl" then (px m, y, w + (x - px m), py m - y)
    else (x, y, w, hh) in
  let w := if JS.ltb w 10 then 10 else w in
  let hh := if JS.ltb hh 10 then 10 else hh in
  mkBox x y w hh.

(** [getPolygonVertex(m, polygon, size)]: the loop returns the first index
    whose vertex is within reach; [None] is [null]. *)
Definition getPolygonVertex (m : Point) (polygon : list Point) (size : R)
  : option nat :=
  find (fun i =>
          let p := nth i polygon Kernel.origin in
          JS.ltb (Rabs (px p - px m)) (size * 2)
          && JS.ltb (Rabs (py p - py m)) (size * 2))
       (seq 0 (length polygon)).

(** [pointToSegmentDistance(p, a, b)] *)
Definition pointToSegmentDistance (p a b : Point) : R :=
  let A := px p - px a in
  let B := py p - py a in
  let C := px b - px a in
  let D := py b - py a in
  let dot := A * C + B * D in
  let len := C * C + D * D in
  let t := if JS.eqb len 0 then -1 else dot / len in
  let t := Rmax 0 (Rmin 1 t) in
  let x := px a + t * C in
  let y := py a + t * D in
  let dx := px p - x in
  let dy := py p - y in
  sqrt (dx * dx + dy * dy).

(** [findEdgeToInsert(m, polygon)]: the first edge [i] (from [polygon[i]]
    to [polygon[(i + 1) % polygon.length]]) closer to [m] than [t = 8]. *)
Definition findEdgeToInsert (m : Point) (polygon : list Point) : option nat :=
  let t := 8 in
  find (fun i =>
          let a := nth i polygon Kernel.origin in
          let b := nth ((i + 1) mod length polygon) polygon Kernel.origin in
          JS.ltb (pointToSegmentDistance m a b) t)
       (seq 0 (length polygon)).

(** [getBoxPolygonPoints(b)] *)
Definition getBoxPolygonPoints (b : Box) : list Point :=
  let x := bx b in
  let y := by_ b in
  let w := bw b in
  let h := bh b in
  [ mkPoint x y; mkPoint (x + w / 2) y; mkPoint (x + w) y;
    mkPoint (x + w) (y + h / 2); mkPoint (x + w) (y + h);
    mkPoint (x + w / 2) (y + h); mkPoint x (y + h); mkPoint x (y + h / 2) ].

(** [getPolygonCentroid(points)]; on the empty array both coordinates are
    [0 / 0 = NaN], which is [None]. *)
Definition getPolygonCentroid (points : list Point) : option Point :=
  let x := fold_left (fun x p => x + px p) points 0 in
  let y := fold_left (fun y p => y + py p) points 0 in
  match points with
  | [] => None
  | _ :: _ => Some (mkPoint (x / INR (length points)) (y / INR (length points)))
  end.

End Editing.

(** * ColorAlgorithm (services/logic): contour and pipeline *)

Module Contour.

Import ColorAlgorithm.

(** [traceContour(visited, width, height)]: the keys of [visited] in
    insertion order, each kept when one of its four neighbours is outside
    the frame or outside [visited]. *)
Definition dirs : list (Z * Z) := [(0, -1); (1, 0); (0, 1); (-1, 0)]%Z.

Definition isBoundary (visited : list Pixel) (width height : Z) (p : Pixel)
  : bool :=
  existsb (fun d : Z * Z =>
             let nx := (fst p + fst d)%Z in
             let ny := (snd p + snd d)%Z in
             (nx <? 0)%Z || (width <=? nx)%Z || (ny <? 0)%Z
             || (height <=? ny)%Z || negb (has visited (nx, ny)))
          dirs.

Definition traceContour (visited : list Pixel) (width height : Z)
  : list Pixel :=
  filter (isBoundary visited width height) visited.

(** The [Point] pushed for a key. *)
Definition toPoint (p : Pixel) : Point := mkPoint (IZR (fst p)) (IZR (snd p)).

(** [Math.round] *)
Definition round (x : R) : Z := Zfloor (x + / 2).

(** The two rejections of [findBoundary]. *)
Inductive Rejection : Type := NoMatchingRegion | NoClosedRegion.

(** [findBoundary(imageData, seedPoint, targetColor, tolerance, epsilon)]
    with [imageData = { width, height, data }].  [None]: the fill or the
    simplification ran out of fuel; [Some (inl r)]: the promise is
    rejected with [r]; [Some (inr polygon)]: it resolves. *)
Definition findBoundary (fuel : nat) (data : list Z) (width height : Z)
    (seedPoint : Point) (targetColor : Z * Z * Z) (tolerance : Z)
    (epsilon : R) : option (Rejection + list Point) :=
  let seed := (round (px seedPoint), round (py seedPoint)) in
  match floodFill data width height targetColor tolerance fuel seed with
  | None => None
  | Some visited =>
      if (length visited =? 0)%nat then Some (inl NoMatchingRegion)
      else
        let boundaryPixels := map toPoint (traceContour visited width height) in
        if (length boundaryPixels <? 3)%nat then Some (inl NoClosedRegion)
        else
          let hullPoints := Kernel.hullValue sortLe boundaryPixels in
          match simplifyRDP fuel hullPoints epsilon with
          | None => None
          | Some simplifiedPoints => Some (inr simplifiedPoints)
          end
  end.

End Contour.

(** * ColorAlgorithm (components/AIColorAlgorithm): seeded mode *)

Module AISeeded.

Import AIColorAlgorithm.

Local Open Scope R_scope.

(** [findBoundary(imageData, seedPoint, targetColor, tolerance, epsilon)]
    from the point where the binarized mask is known.  [None]: the
    simplification ran out of fuel; [Some None]: the call throws
    "no region detected"; [Some (Some polygon)]: it returns. *)
Definition findBoundary (fuel : nat) (maskData : list Z) (imgW imgH : Z)
    (seedPoint : Point) (epsilon : R) : option (option (list Point)) :=
  let scaleX := IZR imgW / IZR MODEL_SIZE in
  let scaleY := IZR imgH / IZR MODEL_SIZE in
  let scaledSeed := mkPoint (px seedPoint / scaleX) (py seedPoint / scaleY) in
  let edgePoints := extractEdgesFromMask maskData MODEL_SIZE MODEL_SIZE in
  if (length edgePoints =? 0)%nat then Some None
  else
    let detectionRadius := IZR MODEL_SIZE / 2 in
    let validPoints :=
      filter (fun p =>
                let dist := JS.sqrtPow2 (px p - px scaledSeed)
                                        (py p - py scaledSeed) in
                JS.ltb dist detectionRadius) edgePoints in
    let finalPoints :=
      if (10 <? length validPoints)%nat then validPoints else edgePoints in
    let hullPoints := Kernel.hullValue sortLe finalPoints in
    let originalSizePoints :=
      map (fun p => mkPoint (px p * scaleX) (py p * scaleY)) hullPoints in
    match simplifyRDP fuel originalSizePoints epsilon with
    | None => None
    | Some res => Some (Some res)
    end.

End AISeeded.

(** * SummaryManager (services/logic): size buckets *)

Module Buckets.

Local Open Scope R_scope.
Local Open Scope string_scope.

Definition bucketS : string := "小 (S)".
Definition bucketM : string := "中 (M)".
Definition bucketL : string := "大 (L)".
Definition bucketXL : string := "極大 (XL)".

(** [classifyArea(area)] with [area : string | number]; a comparison with
    [NaN] is false. *)
Definition classifyArea (parseFloat : string -> option R) (area : string + R)
  : string :=
  let a := match area with inl s => parseFloat s | inr n => Some n end in
  let lt (a : option R) (b : R) : bool :=
    match a with Some x => JS.ltb x b | None => false end in
  if lt a 10000 then bucketS
  else if lt a 90000 then bucketM
  else if lt a 400000 then bucketL
  else bucketXL.

End Buckets.

(** * Vocabulary of the further statements *)

Section Vocabulary2.

Local Open Scope R_scope.

(** [l1] is [l2] with some elements left out, the order kept. *)
Inductive Subseq {A : Type} : list A -> list A -> Prop :=
| Subseq_nil : Subseq [] []
| Subseq_skip : forall x l1 l2, Subseq l1 l2 -> Subseq l1 (x :: l2)
| Subseq_keep : forall x l1 l2, Subseq l1 l2 -> Subseq (x :: l1) (x :: l2).

(** Every three consecutive points of a polyline make a strict left turn. *)
Fixpoint leftTurns (l : list Point) : Prop :=
  match l with
  | a :: t =>
      match t with
      | b :: c :: _ => 0 < Kernel.cross a b c /\ leftTurns t
      | _ => True
      end
  | [] => True
  end.

(** The point of the segment from [a] to [b] at parameter [s]. *)
Definition onSegment (a b : Point) (s : R) : Point :=
  mkPoint (px a + s * (px b - px a)) (py a + s * (py b - py a)).

(** The cells of a [width] x [height] frame, row by row. *)
Definition cells (width height : Z) : list (Z * Z) :=
  flat_map (fun y => map (fun x => (x, y)) (JS.range 0 width))
           (JS.range 0 height).

End Vocabulary2.

(** * Utils (services/logic): the clock text *)

Module Clock.

Local Open Scope string_scope.

(** [Number.prototype.toString] on an integer. *)
Definition toString (z : Z) : string :=
  DecimalString.NilZero.string_of_int (Z.to_int z).

(** [s.padStart(2, "0")] *)
Definition padStart2 (s : string) : string :=
  match String.length s with
  | O => "00"
  | S O => "0" ++ s
  | _ => s
  end.

(** [formatTime(sec)]: [Math.floor] of an integer quotient is [Z.div], and
    [%] takes the sign of the dividend like [Z.rem]. *)
Definition formatTime (sec : R) : string :=
  let sec := Zfloor sec in
  toString (sec / 60) ++ ":" ++ padStart2 (toString (Z.rem sec 60)).

(** Reading a decimal integer back. *)
Definition readInt (s : string) : option Z :=
  option_map Z.of_int (DecimalString.NilZero.int_of_string s).

End Clock.

(** * Vocabulary of the statements about pixels, edges and chains *)

Section Vocabulary3.

Local Open Scope R_scope.

(** The distance from [m] to edge [i] of the closed polygon. *)
Definition edgeDistance (m : Point) (polygon : list Point) (i : nat) : R :=
  Editing.pointToSegmentDistance m (nth i polygon Kernel.origin)
    (nth ((i + 1) mod length polygon) polygon Kernel.origin).

(** Vertex [i] is within reach of [m]. *)
Definition vertexNear (m : Point) (polygon : list Point) (size : R) (i : nat)
  : Prop :=
  Rabs (px (nth i polygon Kernel.origin) - px m) < size * 2 /\
  Rabs (py (nth i polygon Kernel.origin) - py m) < size * 2.

(** The pixel matches the target within tolerance. *)
Definition pixelMatches (data : list Z) (width : Z) (target : Z * Z * Z)
    (tol : Z) (p : ColorAlgorithm.Pixel) : bool :=
  ColorAlgorithm.matchAt data
    (ColorAlgorithm.getIndex width (fst p) (snd p)) target tol.

(** The pixel lies in the frame. *)
Definition pixelInFrame (width height : Z) (p : ColorAlgorithm.Pixel) : bool :=
  ColorAlgorithm.inBounds width height (fst p) (snd p).

(** The cells of the frame that are not in [v]: the measure of the work
    queue loop of [floodFill]. *)
Definition unvisitedCells (width height : Z) (v : list ColorAlgorithm.Pixel)
  : nat :=
  length (filter (fun c => negb (ColorAlgorithm.has v c)) (cells width height)).

(** All four neighbours of [p] that lie in the frame and match are in [v]. *)
Definition regionClosedAt (data : list Z) (width height : Z)
    (target : Z * Z * Z) (tol : Z) (v : list ColorAlgorithm.Pixel)
    (p : ColorAlgorithm.Pixel) : Prop :=
  forall n, In n (ColorAlgorithm.neighbors p) ->
    pixelInFrame width height n = true ->
    pixelMatches data width target tol n = true -> In n v.

(** The stack of a chain loop, top first: every three neighbours turn
    left. *)
Fixpoint stackTurns (s : list Point) : Prop :=
  match s with
  | c :: t =>
      match t with
      | b :: a :: _ => 0 < Kernel.cross a b c /\ stackTurns t
      | _ => True
      end
  | [] => True
  end.

(** A 256x256 mask that is "on" everywhere. *)
Definition fullMask : list Z := repeat 1%Z (Z.to_nat 65536).

End Vocabulary3.

(** * JavaScript numbers with their special values

    A [number] that can be [NaN] or an infinity.  Arithmetic on finite
    values is exact (rounding to a double is left out, and a finite result
    is never replaced by an infinity); zero has no sign, so a division by
    zero is a division by [+0]. *)

Module Number.

Local Open Scope R_scope.

Inductive t : Type :=
| NaN : t
| Inf (negative : bool) : t
| Fin (x : R) : t.

(** [a < b] *)
Definition ltb (a b : t) : bool :=
  match a, b with
  | NaN, _ | _, NaN => false
  | Fin x, Fin y => JS.ltb x y
  | Fin _, Inf negative => negb negative
  | Inf negative, Fin _ => negative
  | Inf n1, Inf n2 => n1 && negb n2
  end.

(** [a <= b] *)
Definition leb (a b : t) : bool :=
  match a, b with
  | NaN, _ | _, NaN => false
  | Fin x, Fin y => JS.leb x y
  | Fin _, Inf negative => negb negative
  | Inf negative, Fin _ => negative
  | Inf n1, Inf n2 => n1 || negb n2
  end.

(** [a - b] *)
Definition sub (a b : t) : t :=
  match a, b with
  | NaN, _ | _, NaN => NaN
  | Fin x, Fin y => Fin (x - y)
  | Fin _, Inf negative => Inf (negb negative)
  | Inf negative, Fin _ => Inf negative
  | Inf n1, Inf n2 => if Bool.eqb n1 n2 then NaN else Inf n1
  end.

(** [a * b] *)
Definition mul (a b : t) : t :=
  match a, b with
  | NaN, _ | _, NaN => NaN
  | Fin x, Fin y => Fin (x * y)
  | Fin x, Inf negative | Inf negative, Fin x =>
      if JS.eqb x 0 then NaN else Inf (xorb negative (JS.ltb x 0))
  | Inf n1, Inf n2 => Inf (xorb n1 n2)
  end.

(** [a / b] *)
Definition div (a b : t) : t :=
  match a, b with
  | NaN, _ | _, NaN => NaN
  | Fin x, Fin y =>
      if JS.eqb y 0
      then (if JS.eqb x 0 then NaN else Inf (JS.ltb x 0))
      else Fin (x / y)
  | Fin _, Inf _ => Fin 0
  | Inf negative, Fin y => Inf (xorb negative (JS.ltb y 0))
  | Inf _, Inf _ => NaN
  end.

(** [parseFloat(s)]: leading white space is skipped, then the longest
    prefix that is a signed [Infinity] or a signed decimal literal
    ([digits], [digits.], [digits.digits] or [.digits], each with an
    optional exponent) is read; anything else is [NaN].  Strings are
    sequences of bytes, so the white space is the ASCII one. *)
Definition isWhiteSpace (c : ascii) : bool :=
  let n := nat_of_ascii c in
  ((9 <=? n) && (n <=? 13))%nat || (n =? 32)%nat.

Fixpoint trimStart (s : string) : string :=
  match s with
  | String c s' => if isWhiteSpace c then trimStart s' else s
  | EmptyString => s
  end.

(** An optional sign: whether it is ["-"], and the rest. *)
Definition readSign (s : string) : bool * string :=
  match s with
  | String c s' =>
      if Ascii.eqb c "-"%char then (true, s')
      else if Ascii.eqb c "+"%char then (false, s')
      else (false, s)
  | EmptyString => (false, s)
  end.

(** The exponent part, when there is a complete one: [e] or [E], an
    optional sign and at least one digit. *)
Definition readExponent (s : string) : Z :=
  match s with
  | String c s' =>
      if Ascii.eqb c "e"%char || Ascii.eqb c "E"%char then
        let '(negative, digits) := readSign s' in
        let '(v, n, _) := JS.readDigits digits 0%Z 0%nat in
        match n with
        | O => 0%Z
        | S _ => if negative then (- v)%Z else v
        end
      else 0%Z
  | EmptyString => 0%Z
  end.

(** From this value on a decimal literal reads as [Infinity]: the middle
    between the largest double and [2^1024]. *)
Definition overflowBound : Z := (2 ^ 1024 - 2 ^ 970)%Z.

(** The literal with digits [m] and decimal exponent [e]: [m * 10^e],
    [Infinity] from [overflowBound] on and [0] up to [2^-1075], half of
    the smallest double. *)
Definition literal (negative : bool) (m e : Z) : t :=
  let signed (v : R) := Fin (if negative then - v else v) in
  if (m =? 0)%Z then Fin 0
  else if (0 <=? e)%Z then
    if (overflowBound <=? m * 10 ^ e)%Z then Inf negative
    else signed (IZR (m * 10 ^ e))
  else
    if (overflowBound * 10 ^ (- e) <=? m)%Z then Inf negative
    else if (m * 2 ^ 1075 <=? 10 ^ (- e))%Z then Fin 0
    else signed (IZR m / IZR (10 ^ (- e))).

Definition parseFloat (s : string) : t :=
  let '(negative, body) := readSign (trimStart s) in
  if String.prefix "Infinity" body then Inf negative
  else
    let '(ip, n, rest) := JS.readDigits body 0%Z 0%nat in
    match rest with
    | String "."%char frac =>
        let '(m, k, rest') := JS.readDigits frac ip 0%nat in
        match n, k with
        | O, O => NaN
        | _, _ => literal negative m (readExponent rest' - Z.of_nat k)
        end
    | _ =>
        match n with
        | O => NaN
        | S _ => literal negative ip (readExponent rest)
        end
    end.

(** A finite number or [NaN] as a [Number.t]. *)
Definition ofOption (a : option R) : t :=
  match a with Some x => Fin x | None => NaN end.

(** The number is greater than 0. *)
Definition positive (a : t) : Prop :=
  match a with
  | Fin x => 0 < x
  | Inf negative => negative = false
  | NaN => False
  end.

End Number.

(** * SummaryManager.calculateStats on every number

    [calculateStats] again, with [parseFloat] returning any number, the
    infinities included. *)

Module Stats.

Import SummaryManager.

Local Open Scope R_scope.
Local Open Scope string_scope.

Record AnalysisStats : Type := mkStats {
  smallest : AnnotationData;
  largest : AnnotationData;
  obstructionPercent : Number.t;
  voteScore : Z;
  error : option string
}.

Section Stats.

Variable parseFloat : string -> Number.t.

(** [(item) => item.area && parseFloat(item.area) > 0] *)
Definition isValid (item : AnnotationData) : bool :=
  negb (String.eqb (area item) "")
  && Number.ltb (Number.Fin 0) (parseFloat (area item)).

(** [(a, b) => parseFloat(a.area) - parseFloat(b.area)] is not positive
    ([sort] takes a [NaN] from its comparator for 0). *)
Definition areaLe (a b : AnnotationData) : bool :=
  negb (Number.ltb (Number.Fin 0)
          (Number.sub (parseFloat (area a)) (parseFloat (area b)))).

(** [const validData = Array.from(annotationsMap.values()).filter(...)] *)
Definition validData (annotationsMap : list (R * AnnotationData))
  : list AnnotationData :=
  filter isValid (map snd annotationsMap).

(** [const sorted = [...validData].sort(...)] *)
Definition sorted (annotationsMap : list (R * AnnotationData))
  : list AnnotationData :=
  JS.sortBy areaLe (validData annotationsMap).

(** [calculateStats(annotationsMap)] *)
Definition calculateStats (annotationsMap : list (R * AnnotationData))
  : AnalysisStats :=
  let validData := validData annotationsMap in
  if (length validData <? 2)%nat then
    let singleData :=
      if (length validData =? 1)%nat then nth 0 validData placeholder
      else placeholder in
    mkStats singleData singleData (Number.Fin 0) 0%Z (Some errorText)
  else
    let sorted := sorted annotationsMap in
    let smallest := nth 0 sorted placeholder in
    let largest := nth (length sorted - 1) sorted placeholder in
    let minArea := parseFloat (area smallest) in
    let maxArea := parseFloat (area largest) in
    let obstructionPercent :=
      if Number.ltb (Number.Fin 0) maxArea
      then Number.mul (Number.div (Number.sub maxArea minArea) maxArea)
             (Number.Fin 100)
      else Number.Fin 0 in
    let voteScore :=
      if Number.ltb (Number.Fin 75) obstructionPercent then 2%Z
      else if Number.leb (Number.Fin 50) obstructionPercent then 1%Z
      else 0%Z in
    mkStats smallest largest obstructionPercent voteScore None.

End Stats.

(** The stats of [SummaryManager.calculateStats] as stats over every
    number. *)
Definition ofFinite (s : SummaryManager.AnalysisStats) : AnalysisStats :=
  mkStats (SummaryManager.smallest s) (SummaryManager.largest s)
    (Number.ofOption (SummaryManager.obstructionPercent s))
    (SummaryManager.voteScore s) (SummaryManager.error s).

End Stats.

(** * Vocabulary of the statements about statistics and chains *)

Section Vocabulary4.

Local Open Scope R_scope.

(** The record has an area that parses to a number greater than 0. *)
Definition positiveArea (parseFloat : string -> Number.t)
    (item : SummaryManager.AnnotationData) : Prop :=
  Number.positive (parseFloat (SummaryManager.area item)).

(** The records with areas ["Infinity"] and ["5"]. *)
Definition recordInfinity : SummaryManager.AnnotationData :=
  SummaryManager.mkAnnotation 0 "Infinity" None [] None "" None None None.
Definition record5 : SummaryManager.AnnotationData :=
  SummaryManager.mkAnnotation 1 "5" None [] None "" None None None.

(** The map [{0 -> recordInfinity, 1 -> record5}]. *)
Definition infinityMap : list (R * SummaryManager.AnnotationData) :=
  [(0, recordInfinity); (1, record5)].

End Vocabulary4.

(** * Facts about numbers and arrays *)

Section NumberFacts.

Local Open Scope R_scope.

Lemma ltb_true x y : JS.ltb x y = true <-> x < y.
Proof.
  unfold JS.ltb. destruct (Rlt_dec x y); split; intros; auto; discriminate.
Qed.

Lemma leb_true x y : JS.leb x y = true <-> x <= y.
Proof.
  unfold JS.leb. destruct (Rle_dec x y); split; intros; auto; discriminate.
Qed.

Lemma eqb_true x y : JS.eqb x y = true <-> x = y.
Proof.
  unfold JS.eqb. destruct (Req_dec_T x y); split; intros; auto; discriminate.
Qed.

Lemma ltb_irrefl x : JS.ltb x x = false.
Proof. unfold JS.ltb. destruct (Rlt_dec x x); [lra | reflexivity]. Qed.

End NumberFacts.

Section ArrayFacts.

Context {A : Type}.
Implicit Types l : list A.

Lemma slice_length from to l :
  to <= length l -> length (slice from to l) = to - from.
Proof.
  intros H. unfold slice. rewrite length_firstn, length_skipn. lia.
Qed.

Lemma slice_prefix k l : slice 0 k l = firstn k l.
Proof. unfold slice. now rewrite Nat.sub_0_r. Qed.

Lemma slice_suffix from l :
  slice from (length l - 1 + 1) l = skipn from l.
Proof.
  unfold slice. apply firstn_all2. rewrite length_skipn. lia.
Qed.

Lemma first_firstn k l : 0 < k -> first_ (firstn k l) = first_ l.
Proof. destruct k, l; simpl; intros; try lia; reflexivity. Qed.

Lemma last_app l1 l2 : l2 <> [] -> last_ (l1 ++ l2) = last_ l2.
Proof.
  intros H. unfold last_. destruct l2 as [|x l2]; [congruence|].
  rewrite length_app. simpl length.
  rewrite nth_error_app2 by lia. f_equal. lia.
Qed.

Lemma last_skipn k l : k < length l -> last_ (skipn k l) = last_ l.
Proof.
  intros H. rewrite <- (firstn_skipn k l) at 2.
  symmetry. apply last_app. intros E.
  apply (f_equal (@length A)) in E. rewrite length_skipn in E. simpl in E. lia.
Qed.

Lemma first_app l1 l2 : l1 <> [] -> first_ (l1 ++ l2) = first_ l1.
Proof. destruct l1; [congruence | reflexivity]. Qed.

Lemma dropLast_length l : length (dropLast l) = length l - 1.
Proof. unfold dropLast. rewrite slice_length; lia. Qed.

Lemma first_dropLast l : 2 <= length l -> first_ (dropLast l) = first_ l.
Proof.
  intros H. unfold dropLast. rewrite slice_prefix. apply first_firstn. lia.
Qed.

Lemma nth_first (d : A) l : l <> [] -> first_ l = Some (nth 0 l d).
Proof. destruct l; [congruence | reflexivity]. Qed.

Lemma nth_last (d : A) l : l <> [] -> last_ l = Some (nth (length l - 1) l d).
Proof.
  intros H. unfold last_. apply nth_error_nth'.
  destruct l; [congruence | simpl; lia].
Qed.

Lemma last_index_cons (a b : A) l d :
  nth (length (a :: b :: l) - 1) (a :: b :: l) d =
  nth (length (b :: l) - 1) (b :: l) d.
Proof. simpl. now rewrite Nat.sub_0_r. Qed.

(** In a sorted array the first element is below the last one. *)
Lemma sorted_first_last (ord : A -> A -> Prop) (d : A) (l : list A) :
  (forall a, ord a a) ->
  StronglySorted ord l -> l <> [] ->
  forall x, In x l ->
    ord (nth 0 l d) x /\ ord x (nth (length l - 1) l d).
Proof.
  intros Hrefl Hs. induction Hs as [|a l Hs IH Hall]; [congruence|].
  intros _ x Hx. rewrite Forall_forall in Hall.
  split.
  - simpl. destruct Hx as [<-|Hx]; auto.
  - destruct l as [|b l]; [destruct Hx as [<-|[]]; simpl; auto|].
    rewrite last_index_cons. destruct Hx as [<-|Hx].
    + apply Hall. apply nth_In. simpl. lia.
    + apply IH; [congruence | exact Hx].
Qed.
End ArrayFacts.

(** * Array.prototype.sort *)

Section SortFacts.

Context {A : Type}.
Variable le : A -> A -> bool.

Lemma insertBy_perm x l : Permutation (x :: l) (JS.insertBy le x l).
Proof.
  induction l as [|y l IH]; simpl; [apply Permutation_refl|].
  destruct (le x y); [apply Permutation_refl|].
  eapply perm_trans; [apply perm_swap|]. now apply perm_skip.
Qed.

Lemma sortBy_perm l : Permutation l (JS.sortBy le l).
Proof.
  induction l as [|x l IH]; simpl; [constructor|].
  eapply perm_trans; [|apply insertBy_perm]. now apply perm_skip.
Qed.

(** The comparator only has to be an order on the elements that occur. *)
Variable P : A -> Prop.
Variable ord : A -> A -> Prop.
Hypothesis le_ord : forall a b, P a -> P b -> (le a b = true <-> ord a b).
Hypothesis ord_total : forall a b, P a -> P b -> ord a b \/ ord b a.
Hypothesis ord_trans :
  forall a b c, P a -> P b -> P c -> ord a b -> ord b c -> ord a c.

Lemma insertBy_sorted x l :
  P x -> Forall P l ->
  StronglySorted ord l -> StronglySorted ord (JS.insertBy le x l).
Proof.
  intros Px HP Hs. induction Hs as [|y l Hs IH Hall]; simpl.
  - repeat constructor.
  - inversion HP as [|? ? Py HPl]; subst.
    destruct (le x y) eqn:E.
    + apply le_ord in E; auto. constructor; [now constructor|].
      constructor; [exact E|].
      rewrite Forall_forall in *. intros z Hz. eauto.
    + assert (Hyx : ord y x).
      { destruct (ord_total x y) as [H|H]; auto.
        apply le_ord in H; auto. congruence. }
      constructor; [auto|].
      eapply Permutation_Forall; [apply insertBy_perm|].
      now constructor.
Qed.

Lemma sortBy_sorted l : Forall P l -> StronglySorted ord (JS.sortBy le l).
Proof.
  induction 1 as [|x l Px HP IH]; simpl; [constructor|].
  apply insertBy_sorted; auto.
  eapply Permutation_Forall; [apply sortBy_perm|exact HP].
Qed.

End SortFacts.

(** * simplifyRDP *)

Section RDPFacts.

Local Open Scope R_scope.

Variable dist : Point -> Point -> Point -> R.

(** The loop of [farthest] either never updates its state or leaves an
    index it visited together with a larger distance. *)
Lemma farthest_loop (f : nat -> R) (idxs : list nat) (acc : nat * R) :
  let r := fold_left
             (fun (acc : nat * R) (i : nat) =>
                if JS.ltb (snd acc) (f i) then (i, f i) else acc) idxs acc in
  r = acc \/ (In (fst r) idxs /\ snd acc < snd r).
Proof.
  revert acc. induction idxs as [|i idxs IH]; intros acc; simpl.
  - now left.
  - destruct (JS.ltb (snd acc) (f i)) eqn:E.
    + apply ltb_true in E. right.
      destruct (IH (i, f i)) as [-> | [Hin Hlt]]; simpl in *.
      * split; [now left | assumption].
      * split; [now right | lra].
    + destruct (IH acc) as [-> | [Hin Hlt]]; [now left | right].
      split; [now right | assumption].
Qed.

Lemma farthest_spec (points : list Point) :
  Kernel.farthest dist points = (0%nat, 0) \/
  ((1 <= fst (Kernel.farthest dist points) < length points - 1)%nat /\
   0 < snd (Kernel.farthest dist points)).
Proof.
  unfold Kernel.farthest.
  match goal with |- context [fold_left ?g ?l ?a] =>
    pose proof (farthest_loop
      (fun i => dist (nth i points Kernel.origin) (nth 0 points Kernel.origin)
                     (nth (length points - 1) points Kernel.origin)) l a) as H
  end.
  cbv zeta in H. destruct H as [H | [Hin Hlt]]; [left; exact H | right].
  apply in_seq in Hin. simpl in Hlt. split; [lia | exact Hlt].
Qed.

(** Whenever [simplifyRDP] recurses on a non-negative [epsilon], the split
    index is strictly inside the array. *)
Lemma split_index_inside (points : list Point) (epsilon : R) :
  0 <= epsilon ->
  JS.ltb epsilon (snd (Kernel.farthest dist points)) = true ->
  (1 <= fst (Kernel.farthest dist points) < length points - 1)%nat.
Proof.
  intros Heps Hlt. apply ltb_true in Hlt.
  destruct (farthest_spec points) as [E | [Hi _]]; [|exact Hi].
  rewrite E in Hlt. simpl in Hlt. lra.
Qed.

Lemma split_index_le (points : list Point) :
  (3 <= length points)%nat ->
  (fst (Kernel.farthest dist points) < length points - 1)%nat.
Proof.
  intros Hn. destruct (farthest_spec points) as [E | [Hi _]]; [|lia].
  rewrite E. simpl. lia.
Qed.

Lemma simplifyRDP_unfold fuel points epsilon :
  Kernel.simplifyRDP dist fuel points epsilon =
  if (length points <? 3)%nat then Some points
  else
    match fuel with
    | O => None
    | S fuel' =>
        let end_ := (length points - 1)%nat in
        let '(index, dmax) := Kernel.farthest dist points in
        if JS.ltb epsilon dmax then
          match Kernel.simplifyRDP dist fuel' (slice 0 (index + 1) points) epsilon with
          | None => None
          | Some res1 =>
              match Kernel.simplifyRDP dist fuel' (slice index (end_ + 1) points) epsilon with
              | None => None
              | Some res2 => Some (dropLast res1 ++ res2)
              end
          end
        else Some [nth 0 points Kernel.origin; nth end_ points Kernel.origin]
    end.
Proof. destruct fuel; reflexivity. Qed.

(** More fuel does not change a result. *)
Lemma simplifyRDP_fuel_mono fuel : forall fuel' points epsilon res,
  (fuel <= fuel')%nat ->
  Kernel.simplifyRDP dist fuel points epsilon = Some res ->
  Kernel.simplifyRDP dist fuel' points epsilon = Some res.
Proof.
  induction fuel as [|fuel IH]; intros fuel' points epsilon res Hle;
    rewrite (simplifyRDP_unfold _ points), (simplifyRDP_unfold fuel' points);
    destruct (length points <? 3)%nat; auto; try discriminate.
  destruct fuel' as [|fuel']; [lia|].
  cbv zeta. destruct (Kernel.farthest dist points) as [index dmax].
  destruct (JS.ltb epsilon dmax); auto.
  destruct (Kernel.simplifyRDP dist fuel (slice 0 _ _) _) as [res1|] eqn:E1;
    [|discriminate].
  rewrite (IH fuel' _ _ _ ltac:(lia) E1).
  destruct (Kernel.simplifyRDP dist fuel (slice index _ _) _) as [res2|] eqn:E2;
    [|discriminate].
  now rewrite (IH fuel' _ _ _ ltac:(lia) E2).
Qed.

(** With a non-negative [epsilon], fuel [length points - 2] is enough. *)
Lemma simplifyRDP_returns fuel : forall points epsilon,
  0 <= epsilon -> (length points <= fuel + 2)%nat ->
  exists res, Kernel.simplifyRDP dist fuel points epsilon = Some res.
Proof.
  induction fuel as [|fuel IH]; intros points epsilon Heps Hlen;
    rewrite simplifyRDP_unfold;
    destruct (Nat.ltb_spec (length points) 3) as [Hlt|Hge]; eauto; [lia|].
  cbv zeta.
  pose proof (split_index_inside points epsilon Heps) as Hin.
  destruct (Kernel.farthest dist points) as [index dmax]. simpl in Hin.
  destruct (JS.ltb epsilon dmax); eauto.
  specialize (Hin eq_refl).
  destruct (IH (slice 0 (index + 1) points) epsilon Heps) as [res1 ->].
  { rewrite slice_length; lia. }
  destruct (IH (slice index (length points - 1 + 1) points) epsilon Heps)
    as [res2 ->].
  { rewrite slice_length; lia. }
  eauto.
Qed.

(** Whatever [simplifyRDP] returns keeps both endpoints, and keeps at least
    two points of an array that has two. *)
Lemma simplifyRDP_endpoints fuel : forall points epsilon res,
  Kernel.simplifyRDP dist fuel points epsilon = Some res ->
  first_ res = first_ points /\ last_ res = last_ points /\
  ((2 <= length points)%nat -> (2 <= length res)%nat).
Proof.
  induction fuel as [|fuel IH]; intros points epsilon res;
    rewrite simplifyRDP_unfold;
    destruct (Nat.ltb_spec (length points) 3) as [Hlt|Hge];
    try (intros [= <-]; tauto); try discriminate.
  cbv zeta.
  pose proof (split_index_le points Hge) as Hidx.
  destruct (Kernel.farthest dist points) as [index dmax]. simpl in Hidx.
  destruct (JS.ltb epsilon dmax).
  - destruct (Kernel.simplifyRDP dist fuel (slice 0 _ _) _) as [res1|] eqn:E1;
      [|discriminate].
    destruct (Kernel.simplifyRDP dist fuel (slice index _ _) _) as [res2|] eqn:E2;
      [|discriminate].
    intros [= <-].
    assert (Hone : index = 0%nat -> dropLast res1 = []).
    { intros ->. rewrite simplifyRDP_unfold in E1.
      destruct points as [|p0 points]; simpl in E1; injection E1 as <-;
        reflexivity. }
    apply IH in E1. destruct E1 as (F1 & L1 & N1).
    apply IH in E2. destruct E2 as (F2 & L2 & N2).
    rewrite slice_suffix in *. rewrite slice_prefix in *.
    rewrite length_skipn in N2. specialize (N2 ltac:(lia)).
    rewrite length_firstn in N1.
    assert (Hres2 : res2 <> []) by (destruct res2; simpl in *; [lia|congruence]).
    split; [|split].
    + destruct (Nat.eq_dec index 0) as [->|Hpos].
      * (* the first half is the single point [points[0]] *)
        rewrite (Hone eq_refl). simpl app. exact F2.
      * specialize (N1 ltac:(lia)).
        rewrite first_app.
        -- rewrite first_dropLast by exact N1. rewrite F1.
           apply first_firstn. lia.
        -- intros E. apply (f_equal (@length _)) in E.
           rewrite dropLast_length in E. simpl in E. lia.
    + rewrite last_app by exact Hres2. rewrite L2. apply last_skipn. lia.
    + intros _. rewrite length_app. lia.
  - intros [= <-]. split; [|split].
    + symmetry. apply nth_first. destruct points; simpl in *; [lia|congruence].
    + symmetry. apply nth_last.
      destruct points; simpl in *; [lia|congruence].
    + simpl. lia.
Qed.

(** A negative [epsilon] on an array whose inner points all lie on the
    chord: the loop leaves [index = 0], the second recursive call gets the
    whole array again, and no amount of fuel yields a result. *)
Lemma simplifyRDP_no_result fuel : forall points epsilon,
  (3 <= length points)%nat -> epsilon < 0 ->
  Kernel.farthest dist points = (0%nat, 0) ->
  Kernel.simplifyRDP dist fuel points epsilon = None.
Proof.
  induction fuel as [|fuel IH]; intros points epsilon Hlen Heps Hfar;
    rewrite simplifyRDP_unfold;
    destruct (Nat.ltb_spec (length points) 3) as [Hlt|_]; try lia; auto.
  cbv zeta. rewrite Hfar.
  assert (JS.ltb epsilon 0 = true) as -> by now apply ltb_true.
  rewrite slice_suffix. simpl skipn.
  destruct (Kernel.simplifyRDP dist fuel (slice 0 _ _) _); auto.
  now rewrite IH.
Qed.

End RDPFacts.

Section RDPClaims.

Local Open Scope R_scope.

Lemma perpDist_collinear3 :
  ColorAlgorithm.perpDist (mkPoint 1 0) (mkPoint 0 0) (mkPoint 2 0) = 0.
Proof.
  unfold ColorAlgorithm.perpDist. simpl.
  assert (JS.eqb (2 - 0) 0 = false) as ->.
  { unfold JS.eqb. destruct (Req_dec_T (2 - 0) 0); [lra | reflexivity]. }
  simpl.
  match goal with |- context [Rabs ?e] => replace e with 0 by lra end.
  rewrite Rabs_R0. unfold Rdiv. apply Rmult_0_l.
Qed.

Lemma chordDistance_collinear3 :
  AIColorAlgorithm.chordDistance (mkPoint 1 0) (mkPoint 0 0) (mkPoint 2 0) = 0.
Proof.
  unfold AIColorAlgorithm.chordDistance, AIColorAlgorithm.perpendicularDistance.
  simpl.
  match goal with |- context [Rabs ?e] => replace e with 0 by lra end.
  rewrite Rabs_R0. destruct (JS.eqb _ 0); [reflexivity|].
  unfold Rdiv. rewrite Rmult_0_l. apply Rmult_0_l.
Qed.

Lemma farthest_collinear3 dist :
  dist (mkPoint 1 0) (mkPoint 0 0) (mkPoint 2 0) = 0 ->
  Kernel.farthest dist collinear3 = (0%nat, 0).
Proof.
  intros H. unfold Kernel.farthest. simpl. rewrite H.
  now rewrite ltb_irrefl.
Qed.

(** On three collinear points and a positive [epsilon] the loop finds no
    point off the chord and both implementations return the endpoints. *)
Lemma simplifyRDP_collinear3 dist :
  dist (mkPoint 1 0) (mkPoint 0 0) (mkPoint 2 0) = 0 ->
  Kernel.simplifyRDP dist 3 collinear3 1 = Some [mkPoint 0 0; mkPoint 2 0].
Proof.
  intros H. rewrite simplifyRDP_unfold. cbv zeta.
  rewrite (farthest_collinear3 dist H).
  assert (JS.ltb 1 0 = false) as ->.
  { unfold JS.ltb. destruct (Rlt_dec 1 0); [lra | reflexivity]. }
  reflexivity.
Qed.

(** C3, as stated, fails: with [epsilon = -1] and the three collinear
    points (0,0), (1,0), (2,0) neither implementation of [simplifyRDP]
    returns a list at all. The second recursive call is made on the whole
    input again, so the recursion never ends. *)
Lemma simplifyRDP_negative_epsilon_no_result :
  ~ (exists fuel res,
       ColorAlgorithm.simplifyRDP fuel collinear3 (-1) = Some res) /\
  ~ (exists fuel res,
       AIColorAlgorithm.simplifyRDP fuel collinear3 (-1) = Some res).
Proof.
  split; intros (fuel & res & H);
    unfold ColorAlgorithm.simplifyRDP, AIColorAlgorithm.simplifyRDP in H;
    rewrite simplifyRDP_no_result in H; try discriminate;
    try (simpl; lia); try lra.
  - apply farthest_collinear3, perpDist_collinear3.
  - apply farthest_collinear3, chordDistance_collinear3.
Qed.

(** C3, amended: for every point list and every [epsilon >= 0],
    [simplifyRDP] (services/logic and AIColorAlgorithm) returns a list
    whose first element is the input's first point and whose last element
    is the input's last point; for a negative [epsilon] the same holds of
    every list it returns, but it need not return. *)
Theorem simplifyRDP_keeps_endpoints : forall (points : list Point) (epsilon : R),
  (forall fuel res,
     ColorAlgorithm.simplifyRDP fuel points epsilon = Some res ->
     first_ res = first_ points /\ last_ res = last_ points) /\
  (forall fuel res,
     AIColorAlgorithm.simplifyRDP fuel points epsilon = Some res ->
     first_ res = first_ points /\ last_ res = last_ points) /\
  (0 <= epsilon ->
   (exists res,
      ColorAlgorithm.simplifyRDP (length points) points epsilon = Some res /\
      first_ res = first_ points /\ last_ res = last_ points) /\
   (exists res,
      AIColorAlgorithm.simplifyRDP (length points) points epsilon = Some res /\
      first_ res = first_ points /\ last_ res = last_ points)).
Proof.
  intros points epsilon.
  assert (Hpart : forall dist fuel res,
            Kernel.simplifyRDP dist fuel points epsilon = Some res ->
            first_ res = first_ points /\ last_ res = last_ points).
  { intros dist fuel res H.
    destruct (simplifyRDP_endpoints dist fuel points epsilon res H)
      as (F & L & _). now split. }
  split; [apply Hpart|]. split; [apply Hpart|].
  intros Heps. split.
  - destruct (simplifyRDP_returns ColorAlgorithm.perpDist
                (length points) points epsilon Heps) as [res H]; [lia|].
    exists res. split; [exact H | exact (Hpart _ _ _ H)].
  - destruct (simplifyRDP_returns AIColorAlgorithm.chordDistance
                (length points) points epsilon Heps) as [res H]; [lia|].
    exists res. split; [exact H | exact (Hpart _ _ _ H)].
Qed.

Lemma simplifyRDP_keeps_endpoints_witness :
  0 <= 1 /\
  ColorAlgorithm.simplifyRDP 3 collinear3 1 = Some [mkPoint 0 0; mkPoint 2 0] /\
  (first_ [mkPoint 0 0; mkPoint 2 0] = first_ collinear3 /\
   last_ [mkPoint 0 0; mkPoint 2 0] = last_ collinear3) /\
  (exists res,
     AIColorAlgorithm.simplifyRDP (length collinear3) collinear3 1 = Some res /\
     first_ res = first_ collinear3 /\ last_ res = last_ collinear3).
Proof.
  assert (H01 : 0 <= 1) by lra.
  assert (Hrun : ColorAlgorithm.simplifyRDP 3 collinear3 1
                 = Some [mkPoint 0 0; mkPoint 2 0])
    by exact (simplifyRDP_collinear3 _ perpDist_collinear3).
  destruct (simplifyRDP_keeps_endpoints collinear3 1) as (Hl & _ & Htot).
  split; [exact H01|]. split; [exact Hrun|].
  split; [exact (Hl _ _ Hrun) | exact (proj2 (Htot H01))].
Defined.

(** C10: for every point list and every [epsilon >= 0], [simplifyRDP]
    (both implementations) terminates: fuel [length points] always yields
    a result, and whenever it recurses (the largest distance exceeds
    [epsilon] on three or more points) the split index lies strictly
    between index 0 and the last index, so both recursive calls get a
    list strictly shorter than the input. *)
Theorem simplifyRDP_terminates : forall (points : list Point) (epsilon : R),
  0 <= epsilon ->
  (exists res, forall fuel, (length points <= fuel)%nat ->
     ColorAlgorithm.simplifyRDP fuel points epsilon = Some res) /\
  (exists res, forall fuel, (length points <= fuel)%nat ->
     AIColorAlgorithm.simplifyRDP fuel points epsilon = Some res) /\
  (forall dist,
     dist = ColorAlgorithm.perpDist \/ dist = AIColorAlgorithm.chordDistance ->
     (3 <= length points)%nat ->
     JS.ltb epsilon (snd (Kernel.farthest dist points)) = true ->
     let index := fst (Kernel.farthest dist points) in
     let end_ := (length points - 1)%nat in
     (0 < index < end_)%nat /\
     (length (slice 0 (index + 1) points) < length points)%nat /\
     (length (slice index (end_ + 1) points) < length points)%nat).
Proof.
  intros points epsilon Heps.
  assert (Htot : forall dist, exists res, forall fuel,
            (length points <= fuel)%nat ->
            Kernel.simplifyRDP dist fuel points epsilon = Some res).
  { intros dist.
    destruct (simplifyRDP_returns dist (length points) points epsilon Heps)
      as [res H]; [lia|].
    exists res. intros fuel Hfuel.
    exact (simplifyRDP_fuel_mono dist _ _ _ _ _ Hfuel H). }
  split; [apply Htot|]. split; [apply Htot|].
  intros dist _ Hlen Hrec index end_.
  pose proof (split_index_inside dist points epsilon Heps Hrec) as Hidx.
  fold index in Hidx. subst end_.
  rewrite !slice_length by lia. lia.
Qed.

Lemma simplifyRDP_terminates_witness :
  0 <= 1 /\
  exists res, forall fuel, (length collinear3 <= fuel)%nat ->
    ColorAlgorithm.simplifyRDP fuel collinear3 1 = Some res.
Proof.
  assert (H01 : 0 <= 1) by lra.
  split; [exact H01|].
  exact (proj1 (simplifyRDP_terminates collinear3 1 H01)).
Defined.

(** C5, as stated, fails for the AIColorAlgorithm helper: for the chord
    a = b = (0,0) and p = (3,4), [perpendicularDistance] returns 0 (with
    or without the precomputed length), not the distance 5 from p to a. *)
Lemma perpendicularDistance_zero_chord_returns_zero :
  AIColorAlgorithm.perpendicularDistance
    (mkPoint 3 4) (mkPoint 0 0) (mkPoint 0 0) None = 0 /\
  AIColorAlgorithm.chordDistance (mkPoint 3 4) (mkPoint 0 0) (mkPoint 0 0) = 0 /\
  euclid (mkPoint 3 4) (mkPoint 0 0) = 5 /\
  AIColorAlgorithm.perpendicularDistance
    (mkPoint 3 4) (mkPoint 0 0) (mkPoint 0 0) None
  <> euclid (mkPoint 3 4) (mkPoint 0 0).
Proof.
  assert (Hs : JS.sqrtPow2 (0 - 0) (0 - 0) = 0).
  { unfold JS.sqrtPow2. replace ((0 - 0) ^ 2 + (0 - 0) ^ 2) with 0 by lra.
    apply sqrt_0. }
  assert (H0 : AIColorAlgorithm.perpendicularDistance
                 (mkPoint 3 4) (mkPoint 0 0) (mkPoint 0 0) None = 0).
  { unfold AIColorAlgorithm.perpendicularDistance. simpl. rewrite Hs.
    assert (JS.eqb 0 0 = true) as -> by now apply eqb_true.
    reflexivity. }
  assert (H5 : euclid (mkPoint 3 4) (mkPoint 0 0) = 5).
  { unfold euclid. cbn [px py].
    replace ((3 - 0) ^ 2 + (4 - 0) ^ 2) with (5 * 5) by lra.
    apply sqrt_square. lra. }
  split; [exact H0|]. split; [|split; [exact H5|]].
  - unfold AIColorAlgorithm.chordDistance,
      AIColorAlgorithm.perpendicularDistance. simpl. rewrite Hs.
    assert (JS.eqb 0 0 = true) as -> by now apply eqb_true.
    reflexivity.
  - rewrite H0, H5. lra.
Qed.

(** C5, amended: on a zero-length chord (a = b), [perpDist] of
    services/logic returns the straight-line distance from p to a, while
    [perpendicularDistance] of AIColorAlgorithm returns 0, both when it
    computes the chord length itself and when [simplifyRDP] passes it. *)
Theorem zero_chord_distance : forall (p a : Point),
  ColorAlgorithm.perpDist p a a = euclid p a /\
  AIColorAlgorithm.perpendicularDistance p a a None = 0 /\
  AIColorAlgorithm.chordDistance p a a = 0.
Proof.
  intros p a.
  assert (Hs : JS.sqrtPow2 (px a - px a) (py a - py a) = 0).
  { unfold JS.sqrtPow2.
    replace ((px a - px a) ^ 2 + (py a - py a) ^ 2) with 0 by lra.
    apply sqrt_0. }
  assert (Ht : JS.eqb 0 0 = true) by now apply eqb_true.
  split; [|split].
  - unfold ColorAlgorithm.perpDist. cbv zeta.
    replace (px a - px a) with 0 by lra.
    replace (py a - py a) with 0 by lra.
    rewrite Ht. simpl. unfold JS.hypot, euclid. f_equal. lra.
  - unfold AIColorAlgorithm.perpendicularDistance. cbv zeta.
    now rewrite Hs, Ht.
  - unfold AIColorAlgorithm.chordDistance,
      AIColorAlgorithm.perpendicularDistance. cbv zeta.
    now rewrite Hs, Ht.
Qed.

End RDPClaims.

(** * convexHull *)

Section HullFacts.

Local Open Scope R_scope.

Lemma logic_sortLe_lex a b : ColorAlgorithm.sortLe a b = true <-> lexLe a b.
Proof.
  unfold ColorAlgorithm.sortLe, ColorAlgorithm.comparator, JS.eqb, lexLe.
  rewrite leb_true. destruct (Req_dec_T (px a - px b) 0); split; intros; lra.
Qed.

Lemma ai_sortLe_lex a b : AIColorAlgorithm.sortLe a b = true <-> lexLe a b.
Proof.
  unfold AIColorAlgorithm.sortLe, AIColorAlgorithm.comparator, JS.eqb, lexLe.
  rewrite leb_true. destruct (Req_dec_T (px a) (px b)); split; intros; lra.
Qed.

Lemma lexLe_total a b : lexLe a b \/ lexLe b a.
Proof. unfold lexLe. lra. Qed.

Lemma lexLe_trans a b c : lexLe a b -> lexLe b c -> lexLe a c.
Proof. unfold lexLe. lra. Qed.

Lemma heap_get_set_same h r a :
  (r < length h)%nat -> Heap.get (Heap.set h r a) r = a.
Proof.
  intros H. unfold Heap.get, Heap.set.
  destruct (Nat.ltb_spec r (length h)); [|lia].
  rewrite app_nth2; rewrite length_firstn; [|lia].
  now replace (r - Nat.min r (length h))%nat with 0%nat by lia.
Qed.

Lemma heap_get_set_other h r r' a :
  r' <> r -> Heap.get (Heap.set h r a) r' = Heap.get h r'.
Proof.
  intros H. unfold Heap.get, Heap.set.
  destruct (Nat.ltb_spec r (length h)); [|reflexivity].
  destruct (Nat.lt_ge_cases r' r).
  - rewrite app_nth1 by (rewrite length_firstn; lia).
    rewrite nth_firstn. destruct (Nat.ltb_spec r' r); [reflexivity | lia].
  - rewrite app_nth2; rewrite length_firstn; [|lia].
    replace (Nat.min r (length h)) with r by lia.
    destruct (r' - r)%nat as [|k] eqn:E; [lia|]. cbn [nth].
    rewrite nth_skipn. f_equal. lia.
Qed.

Lemma heap_set_length h r a : length (Heap.set h r a) = length h.
Proof.
  unfold Heap.set. destruct (Nat.ltb_spec r (length h)); [|reflexivity].
  rewrite length_app. cbn [length]. rewrite length_firstn, length_skipn. lia.
Qed.

Lemma heap_get_alloc_old h a r :
  (r < length h)%nat -> Heap.get (fst (Heap.alloc h a)) r = Heap.get h r.
Proof. intros H. unfold Heap.get, Heap.alloc. simpl. now apply app_nth1. Qed.

Lemma heap_get_alloc_new h a :
  Heap.get (fst (Heap.alloc h a)) (snd (Heap.alloc h a)) = a.
Proof.
  unfold Heap.get, Heap.alloc. simpl. rewrite app_nth2 by lia.
  now rewrite Nat.sub_diag.
Qed.

(** What [convexHull] does to the store, for any comparator. *)
Lemma convexHull_store le h points :
  (points < length h)%nat -> (3 <= length (Heap.get h points))%nat ->
  let h' := fst (Kernel.convexHull le h points) in
  let hull := snd (Kernel.convexHull le h points) in
  Heap.get h' points = JS.sortBy le (Heap.get h points) /\
  hull = length h /\
  Heap.get h' hull = Kernel.hullOfSorted (JS.sortBy le (Heap.get h points)) /\
  (forall r, (r < length h)%nat -> r <> points -> Heap.get h' r = Heap.get h r).
Proof.
  intros Hr Hlen. unfold Kernel.convexHull.
  destruct (Nat.ltb_spec (length (Heap.get h points)) 3) as [|_]; [lia|].
  cbv zeta. rewrite (heap_get_set_same _ _ _ Hr).
  set (s := JS.sortBy le (Heap.get h points)).
  split; [|split; [|split]].
  - rewrite heap_get_alloc_old by (rewrite heap_set_length; exact Hr).
    now apply heap_get_set_same.
  - simpl. apply heap_set_length.
  - apply heap_get_alloc_new.
  - intros r Hlt Hne.
    rewrite heap_get_alloc_old by (rewrite heap_set_length; exact Hlt).
    now apply heap_get_set_other.
Qed.


(** The sort inside [convexHull] leaves a permutation of the points in
    ascending order, whichever of the two comparators is used. *)
Lemma sortBy_lex le points :
  (forall a b, le a b = true <-> lexLe a b) ->
  Permutation points (JS.sortBy le points) /\
  StronglySorted lexLe (JS.sortBy le points).
Proof.
  intros Hle. split; [apply sortBy_perm|].
  apply (sortBy_sorted le (fun _ => True) lexLe).
  - intros a b _ _. apply Hle.
  - intros a b _ _. apply lexLe_total.
  - intros a b c _ _ _. apply lexLe_trans.
  - apply Forall_forall. trivial.
Qed.

(** C9: [convexHull] (services/logic and AIColorAlgorithm) sorts its
    argument in place.  After a call on an array of three or more points
    the caller's array holds a permutation of its old contents in
    ascending order by x, ties broken by y; the returned hull is a new
    array object, and no other array is touched. *)
Theorem convexHull_sorts_argument_in_place :
  forall (h : Heap.t) (points : Heap.ref),
  (points < length h)%nat -> (3 <= length (Heap.get h points))%nat ->
  forall convexHull,
    convexHull = ColorAlgorithm.convexHull \/
    convexHull = AIColorAlgorithm.convexHull ->
    let h' := fst (convexHull h points) in
    let hull := snd (convexHull h points) in
    Permutation (Heap.get h points) (Heap.get h' points) /\
    StronglySorted lexLe (Heap.get h' points) /\
    hull <> points /\ hull = length h /\
    Heap.get h' hull = Kernel.hullOfSorted (Heap.get h' points) /\
    (forall r, (r < length h)%nat -> r <> points ->
               Heap.get h' r = Heap.get h r).
Proof.
  intros h points Hr Hlen convexHull Hc h' hull.
  assert (Hgen : exists le, (forall a b, le a b = true <-> lexLe a b) /\
                            convexHull = Kernel.convexHull le).
  { destruct Hc as [-> | ->].
    - exists ColorAlgorithm.sortLe. split; [apply logic_sortLe_lex | reflexivity].
    - exists AIColorAlgorithm.sortLe. split; [apply ai_sortLe_lex | reflexivity]. }
  destruct Hgen as (le & Hle & ->).
  destruct (convexHull_store le h points Hr Hlen) as (Hs & Hnew & Hhull & Hrest).
  destruct (sortBy_lex le (Heap.get h points) Hle) as [Hperm Hsorted].
  subst h' hull. rewrite Hs.
  repeat split; auto.
  rewrite Hnew. lia.
Qed.

Lemma convexHull_sorts_argument_in_place_witness :
  (0 < length [rev triangle])%nat /\
  (3 <= length (Heap.get [rev triangle] 0%nat))%nat /\
  StronglySorted lexLe
    (Heap.get (fst (ColorAlgorithm.convexHull [rev triangle] 0%nat)) 0%nat) /\
  snd (ColorAlgorithm.convexHull [rev triangle] 0%nat) = 1%nat.
Proof.
  assert (H1 : (0 < length [rev triangle])%nat) by (simpl; lia).
  assert (H3 : (3 <= length (Heap.get [rev triangle] 0%nat))%nat) by (simpl; lia).
  destruct (convexHull_sorts_argument_in_place [rev triangle] 0%nat H1 H3
              ColorAlgorithm.convexHull (or_introl eq_refl))
    as (_ & Hsorted & _ & Hnew & _).
  split; [exact H1|]. split; [exact H3|]. split; [exact Hsorted | exact Hnew].
Defined.

End HullFacts.

(** * calculatePolygonArea *)

Section AreaFacts.

Local Open Scope R_scope.

Lemma term_antisym p q : term q p = - term p q.
Proof. unfold term. lra. Qed.

Lemma last_cons_default (t : list Point) : forall b a,
  last (b :: t) a = last t b.
Proof.
  induction t as [|c t IH]; intros b a; [reflexivity|].
  change (last (b :: c :: t) a) with (last (c :: t) a).
  now rewrite (IH c a), (IH c b).
Qed.

Lemma path_snoc l : forall a y,
  path a (l ++ [y]) = path a l + term (last l a) y.
Proof.
  induction l as [|b t IH]; intros a y.
  - simpl. lra.
  - rewrite last_cons_default. simpl. rewrite IH. lra.
Qed.

Lemma pathL_snoc m y :
  pathL (m ++ [y]) =
  pathL m + match m with [] => 0 | _ :: _ => term (last m y) y end.
Proof.
  destruct m as [|a t]; [simpl; lra|].
  rewrite last_cons_default. simpl. apply path_snoc.
Qed.

Lemma last_rev_cons (b : Point) t d : last (rev (b :: t)) d = b.
Proof. simpl. apply last_last. Qed.

Lemma pathL_rev m : pathL (rev m) = - pathL m.
Proof.
  induction m as [|a t IH]; simpl; [lra|].
  rewrite pathL_snoc, IH.
  destruct t as [|b t']; [simpl; lra|].
  destruct (rev (b :: t')) eqn:E.
  - apply (f_equal (@length _)) in E. rewrite length_rev in E. discriminate.
  - rewrite <- E, last_rev_cons. simpl. rewrite term_antisym. lra.
Qed.

(** Moving the first vertex to the end leaves the closed sum unchanged. *)
Lemma closed_rot1 a t : closed (t ++ [a]) = closed (a :: t).
Proof.
  unfold closed. destruct t as [|b t']; [reflexivity|].
  simpl firstn. simpl app.
  replace (b :: (t' ++ [a]) ++ [b]) with ((b :: t' ++ [a]) ++ [b]) by reflexivity.
  rewrite pathL_snoc. simpl.
  rewrite last_last. destruct (t' ++ [a]) eqn:E.
  - destruct t'; discriminate.
  - rewrite <- E. lra.
Qed.

Lemma closed_app_comm l1 : forall l2, closed (l2 ++ l1) = closed (l1 ++ l2).
Proof.
  induction l1 as [|a l1 IH]; intros l2.
  - now rewrite app_nil_r.
  - replace (l2 ++ a :: l1) with ((l2 ++ [a]) ++ l1)
      by now rewrite <- app_assoc.
    rewrite IH, app_assoc, closed_rot1. reflexivity.
Qed.

Lemma closed_rotate k l : closed (rotate k l) = closed l.
Proof.
  unfold rotate. rewrite closed_app_comm. now rewrite firstn_skipn.
Qed.

Lemma closed_rev l : closed (rev l) = - closed l.
Proof.
  destruct (rev l) as [|z m] eqn:E.
  - apply (f_equal (@rev _)) in E. rewrite rev_involutive in E. now subst; simpl; unfold closed; simpl; lra.
  - assert (Hl : l = rev m ++ [z]).
    { apply (f_equal (@rev _)) in E. now rewrite rev_involutive in E. }
    rewrite Hl, closed_rot1. unfold closed. simpl firstn.
    replace ((z :: m) ++ [z]) with (rev ((z :: rev m) ++ [z])).
    + now rewrite pathL_rev.
    + rewrite rev_app_distr. simpl. now rewrite rev_involutive.
Qed.

Lemma fold_left_sum (f : nat -> R) idxs : forall a0,
  fold_left (fun (a : R) (i : nat) => a + f i) idxs a0 =
  a0 + fold_right (fun i s => f i + s) 0 idxs.
Proof.
  induction idxs as [|i idxs IH]; intros a0; simpl; [lra|].
  rewrite IH. lra.
Qed.

Lemma sum_ext (f g : nat -> R) idxs :
  (forall i, In i idxs -> f i = g i) ->
  fold_right (fun i s => f i + s) 0 idxs =
  fold_right (fun i s => g i + s) 0 idxs.
Proof.
  induction idxs as [|i idxs IH]; intros H; simpl; [reflexivity|].
  rewrite H by now left. rewrite IH; [reflexivity|].
  intros j Hj. apply H. now right.
Qed.

Lemma sum_shift (f : nat -> R) len : forall s,
  fold_right (fun i acc => f i + acc) 0 (seq (S s) len) =
  fold_right (fun i acc => f (S i) + acc) 0 (seq s len).
Proof.
  induction len as [|len IH]; intros s; simpl; [reflexivity|].
  now rewrite IH.
Qed.

Lemma pathL_sum m :
  pathL m =
  fold_right
    (fun i s => term (nth i m Kernel.origin) (nth (S i) m Kernel.origin) + s)
    0 (seq 0 (length m - 1)).
Proof.
  destruct m as [|a t]; [reflexivity|].
  simpl pathL. replace (length (a :: t) - 1)%nat with (length t)
    by (simpl; lia).
  revert a. induction t as [|b t IH]; intros a; simpl; [reflexivity|].
  rewrite IH.
  rewrite (sum_shift (fun i => term (nth i (a :: b :: t) Kernel.origin)
                                     (nth (S i) (a :: b :: t) Kernel.origin))).
  reflexivity.
Qed.

(** The index loop of [calculatePolygonArea] computes the closed sum. *)
Lemma shoelace_closed l : Utils.shoelace l = closed l.
Proof.
  unfold Utils.shoelace.
  rewrite (fold_left_sum
    (fun i => px (nth i l Kernel.origin) * py (nth ((i + 1) mod length l) l Kernel.origin)
              - px (nth ((i + 1) mod length l) l Kernel.origin) * py (nth i l Kernel.origin))).
  rewrite Rplus_0_l. unfold closed. rewrite pathL_sum.
  destruct l as [|a t]; [reflexivity|].
  rewrite length_app. simpl firstn. simpl length.
  replace (S (length t) + 1 - 1)%nat with (S (length t)) by lia.
  apply sum_ext. intros i Hi. apply in_seq in Hi. unfold term.
  assert (H1 : nth i ((a :: t) ++ [a]) Kernel.origin = nth i (a :: t) Kernel.origin).
  { apply app_nth1. simpl. lia. }
  assert (H2 : nth (S i) ((a :: t) ++ [a]) Kernel.origin =
               nth ((i + 1) mod S (length t)) (a :: t) Kernel.origin).
  { destruct (Nat.eq_dec (S i) (S (length t))) as [E|NE].
    - rewrite app_nth2 by (simpl; lia).
      replace (i + 1)%nat with (S (length t)) by lia.
      rewrite Nat.Div0.mod_same. simpl length.
      replace (S i - S (length t))%nat with 0%nat by lia. reflexivity.
    - rewrite Nat.mod_small by lia.
      replace (i + 1)%nat with (S i) by lia.
      apply app_nth1. simpl. lia. }
  rewrite H1, H2. reflexivity.
Qed.


Lemma area_triangle : Utils.calculatePolygonArea triangle = 1 / 2.
Proof.
  unfold Utils.calculatePolygonArea, Utils.shoelace. simpl.
  match goal with |- Rabs ?e = _ => replace e with (1 / 2) by lra end.
  apply Rabs_pos_eq. lra.
Qed.

Lemma area_rev_triangle : Utils.calculatePolygonArea (rev triangle) = 1 / 2.
Proof.
  unfold Utils.calculatePolygonArea, Utils.shoelace. simpl.
  match goal with |- Rabs ?e = _ => replace e with (- (1 / 2)) by lra end.
  rewrite Rabs_Ropp. apply Rabs_pos_eq. lra.
Qed.

(** C6, as stated, fails: for the triangle (0,0), (1,0), (0,1) and its
    reversal [calculatePolygonArea] returns 1/2 both times, not values of
    opposite sign. *)
Lemma calculatePolygonArea_reversal_keeps_sign :
  Utils.calculatePolygonArea triangle = 1 / 2 /\
  Utils.calculatePolygonArea (rev triangle) = 1 / 2 /\
  Utils.calculatePolygonArea (rev triangle)
  <> - Utils.calculatePolygonArea triangle.
Proof.
  split; [apply area_triangle|]. split; [apply area_rev_triangle|].
  rewrite area_triangle, area_rev_triangle. lra.
Qed.

(** C6, amended: [calculatePolygonArea] returns the same value for every
    cyclic rotation of the point list and also for the reversed list: it
    returns the absolute value, which is never negative; only the signed
    shoelace sum inside it changes sign under reversal. *)
Theorem calculatePolygonArea_rotation_reversal :
  forall (points : list Point) (k : nat),
  Utils.calculatePolygonArea (rotate k points)
  = Utils.calculatePolygonArea points /\
  Utils.calculatePolygonArea (rev points)
  = Utils.calculatePolygonArea points /\
  0 <= Utils.calculatePolygonArea points /\
  Utils.shoelace (rev points) = - Utils.shoelace points.
Proof.
  intros points k. unfold Utils.calculatePolygonArea.
  rewrite !shoelace_closed, closed_rotate, closed_rev.
  split; [reflexivity|]. split; [|split; [apply Rabs_pos | reflexivity]].
  replace (- closed points / 2) with (- (closed points / 2)) by lra.
  apply Rabs_Ropp.
Qed.

End AreaFacts.

(** * scanFrame *)

Section ScanFacts.

Import AIColorAlgorithm.

Lemma on_app_here pre x l :
  on (pre ++ x :: l) (0 + Z.of_nat (length pre)) = negb (x =? 0)%Z.
Proof.
  unfold on, JS.at_. rewrite Z.add_0_l.
  destruct (Z.ltb_spec (Z.of_nat (length pre)) 0); [lia|].
  rewrite Nat2Z.id, nth_error_app2 by lia. now rewrite Nat.sub_diag.
Qed.

Lemma countWhite_loop l : forall pre acc,
  fold_left
    (fun (whitePixels : Z) (i : Z) =>
       if on (pre ++ l) i then (whitePixels + 1)%Z else whitePixels)
    (map (fun k => (0 + Z.of_nat k)%Z) (seq (length pre) (length l))) acc
  = (acc + onCount l)%Z.
Proof.
  induction l as [|x l IH]; intros pre acc.
  - unfold onCount. simpl. lia.
  - cbn [length seq map fold_left]. rewrite on_app_here.
    replace (pre ++ x :: l) with ((pre ++ [x]) ++ l) by now rewrite <- app_assoc.
    replace (S (length pre)) with (length (pre ++ [x]))
      by (rewrite length_app; simpl; lia).
    rewrite IH. unfold onCount. simpl filter.
    destruct (x =? 0)%Z; simpl negb; cbn [length]; lia.
Qed.

(** The counting loop of [scanFrame] counts the "on" cells. *)
Lemma countWhite_onCount maskData : countWhite maskData = onCount maskData.
Proof.
  unfold countWhite, JS.range. rewrite Z.sub_0_r, Nat2Z.id.
  apply (countWhite_loop maskData [] 0%Z).
Qed.

Local Open Scope R_scope.

Lemma roundTenth_0 : JS.roundTenth 0 = 0.
Proof.
  unfold JS.roundTenth. destruct (Rlt_dec 0 0); [lra|].
  rewrite (Zfloor_eq 0); [lra|]. simpl. lra.
Qed.

(** [scanFrame] below the significance threshold: no helper is called. *)
Lemma scanFrame_small fuel maskData imgW imgH :
  (onCount maskData <= 20)%Z ->
  scanFrame fuel maskData imgW imgH [] =
  Some (mkScan (JS.roundTenth (IZR (onCount maskData)
                               * (IZR imgW / IZR MODEL_SIZE)
                               * (IZR imgH / IZR MODEL_SIZE))) [], []).
Proof.
  intros H. unfold scanFrame. rewrite countWhite_onCount.
  destruct (Z.ltb_spec 20 (onCount maskData)); [lia|]. reflexivity.
Qed.

(** [scanFrame] above the threshold, with enough fuel for [simplifyRDP]. *)
Lemma scanFrame_large maskData imgW imgH :
  (20 < onCount maskData)%Z ->
  let scaleX := IZR imgW / IZR MODEL_SIZE in
  let scaleY := IZR imgH / IZR MODEL_SIZE in
  let edgePoints := extractEdgesFromMask maskData MODEL_SIZE MODEL_SIZE in
  let scaled :=
    map (fun p => mkPoint (px p * scaleX) (py p * scaleY))
        (Kernel.hullValue sortLe edgePoints) in
  exists fuel0 polygon,
    (forall fuel, (fuel0 <= fuel)%nat ->
       scanFrame fuel maskData imgW imgH [] =
       Some (mkScan (JS.roundTenth (IZR (onCount maskData) * scaleX * scaleY))
                    polygon,
             CallExtractEdges ::
               (if (0 <? length edgePoints)%nat
                then [CallConvexHull; CallSimplifyRDP] else [])))
    /\ (edgePoints = [] -> polygon = [])
    /\ (edgePoints <> [] -> simplifyRDP fuel0 scaled 3.0 = Some polygon).
Proof.
  intros H scaleX scaleY edgePoints scaled.
  destruct edgePoints as [|e es] eqn:E.
  - exists 0%nat, []. split; [|split; [reflexivity | congruence]].
    intros fuel _. unfold scanFrame. rewrite countWhite_onCount.
    destruct (Z.ltb_spec 20 (onCount maskData)); [|lia].
    unfold bind, invoke, ret. fold edgePoints. subst edgePoints.
    rewrite E. reflexivity.
  - destruct (simplifyRDP_returns chordDistance (length scaled) scaled 3.0)
      as [res Hres]; [lra | lia |].
    exists (length scaled), res. split; [|split; [discriminate | now intros _]].
    intros fuel Hfuel. unfold scanFrame. rewrite countWhite_onCount.
    destruct (Z.ltb_spec 20 (onCount maskData)); [|lia].
    unfold bind, invoke, ret. fold edgePoints. subst edgePoints. rewrite E.
    cbn [length Nat.ltb Nat.leb]. fold scaleX scaleY. fold scaled.
    unfold simplifyRDP.
    now rewrite (simplifyRDP_fuel_mono chordDistance _ _ _ _ _ Hfuel Hres).
Qed.

Lemma onCount_all_zero maskData :
  Forall (fun v => v = 0%Z) maskData -> onCount maskData = 0%Z.
Proof.
  unfold onCount. induction 1 as [|v l -> _ IH]; [reflexivity|].
  simpl. exact IH.
Qed.

Lemma onCount_onePixelMask : onCount onePixelMask = 1%Z.
Proof. vm_compute. reflexivity. Qed.

Lemma roundTenth_onePixel :
  JS.roundTenth (IZR 1 * (IZR 100 / IZR MODEL_SIZE) * (IZR 100 / IZR MODEL_SIZE))
  = 2 / 10.
Proof.
  unfold JS.roundTenth, MODEL_SIZE.
  destruct (Rlt_dec _ 0) as [H|_]; [lra|].
  rewrite (Zfloor_eq 2); [lra|]. simpl. lra.
Qed.

(** C4, as stated, fails: on the 256x256 mask with one "on" cell and a
    100x100 frame, [scanFrame] returns [area = 0.2], while the count
    times [scaleX * scaleY] is 10000/65536 (about 0.1526).  The area is
    passed through [toFixed(1)]. *)
Lemma scanFrame_area_is_rounded :
  scanFrame 256 onePixelMask 100 100 [] = Some (mkScan (2 / 10) [], []) /\
  IZR (onCount onePixelMask) * (IZR 100 / IZR MODEL_SIZE)
    * (IZR 100 / IZR MODEL_SIZE) = 10000 / 65536 /\
  2 / 10 <> 10000 / 65536.
Proof.
  split; [|split].
  - rewrite scanFrame_small by (rewrite onCount_onePixelMask; lia).
    now rewrite onCount_onePixelMask, roundTenth_onePixel.
  - rewrite onCount_onePixelMask. unfold MODEL_SIZE. lra.
  - lra.
Qed.

(** C4, amended: for every frame whose binarized mask has been computed,
    [scanFrame] returns as [area] the count of "on" mask pixels times
    [scaleX * scaleY], rounded to one decimal place ([toFixed(1)]), never
    a value derived from the polygon.  It computes a polygon (edge
    extraction, then hull, then simplify) only when the count exceeds 20
    (and some edge point exists); otherwise the polygon is the empty list
    and hull and simplify are not invoked.  An all-zero mask yields
    [area = 0] and [polygon = []] with no helper call. *)
Theorem scanFrame_area_and_polygon :
  forall (maskData : list Z) (imgW imgH : Z),
  let scaleX := IZR imgW / IZR MODEL_SIZE in
  let scaleY := IZR imgH / IZR MODEL_SIZE in
  let edgePoints := extractEdgesFromMask maskData MODEL_SIZE MODEL_SIZE in
  let scaled :=
    map (fun p => mkPoint (px p * scaleX) (py p * scaleY))
        (Kernel.hullValue sortLe edgePoints) in
  exists fuel0 polygon log,
    (forall fuel, (fuel0 <= fuel)%nat ->
       scanFrame fuel maskData imgW imgH [] =
       Some (mkScan (JS.roundTenth (IZR (onCount maskData) * scaleX * scaleY))
                    polygon, log)) /\
    ((onCount maskData <= 20)%Z -> polygon = [] /\ log = []) /\
    ((20 < onCount maskData)%Z ->
       log = CallExtractEdges ::
               (if (0 <? length edgePoints)%nat
                then [CallConvexHull; CallSimplifyRDP] else []) /\
       (edgePoints = [] -> polygon = []) /\
       (edgePoints <> [] -> simplifyRDP fuel0 scaled 3.0 = Some polygon)) /\
    (Forall (fun v => v = 0%Z) maskData ->
       JS.roundTenth (IZR (onCount maskData) * scaleX * scaleY) = 0
       /\ polygon = [] /\ log = []).
Proof.
  intros maskData imgW imgH scaleX scaleY edgePoints scaled.
  destruct (Z.le_gt_cases (onCount maskData) 20) as [Hsmall | Hlarge].
  - exists 0%nat, [], []. split; [|split; [|split]].
    + intros fuel _. now apply scanFrame_small.
    + auto.
    + intros H. lia.
    + intros H0. rewrite (onCount_all_zero _ H0).
      replace (IZR 0 * scaleX * scaleY) with 0 by (simpl; lra).
      split; [apply roundTenth_0 | auto].
  - destruct (scanFrame_large maskData imgW imgH Hlarge)
      as (fuel0 & polygon & Hrun & Hnil & Hsimp).
    exists fuel0, polygon,
      (CallExtractEdges ::
         (if (0 <? length edgePoints)%nat
          then [CallConvexHull; CallSimplifyRDP] else [])).
    split; [exact Hrun|]. split; [|split].
    + intros H. lia.
    + intros _. split; [reflexivity|]. split; assumption.
    + intros H0. rewrite (onCount_all_zero _ H0) in Hlarge. lia.
Qed.

Lemma scanFrame_area_and_polygon_witness :
  Forall (fun v => v = 0%Z) zeroMask /\
  exists fuel0,
    scanFrame fuel0 zeroMask 640 480 [] = Some (mkScan 0 [], []).
Proof.
  assert (Hz : Forall (fun v => v = 0%Z) zeroMask).
  { unfold zeroMask. apply Forall_forall. intros v Hv.
    now apply repeat_spec in Hv. }
  split; [exact Hz|].
  destruct (scanFrame_area_and_polygon zeroMask 640 480)
    as (fuel0 & polygon & log & Hrun & _ & _ & Hzero).
  destruct (Hzero Hz) as (Ha & -> & ->).
  exists fuel0. rewrite (Hrun fuel0 (Nat.le_refl fuel0)), Ha. reflexivity.
Defined.

End ScanFacts.

(** * calculateStats *)

Section StatsFacts.

Local Open Scope R_scope.
Import SummaryManager.

Variable parseFloat : string -> option R.

Lemma isValid_parsed item :
  isValid parseFloat item = true ->
  parseFloat (area item) = Some (parsedArea parseFloat item) /\
  0 < parsedArea parseFloat item.
Proof.
  unfold isValid, parsedArea, gt. intros H.
  apply andb_true_iff in H. destruct H as [_ H].
  destruct (parseFloat (area item)); [|discriminate].
  apply ltb_true in H. auto.
Qed.

Lemma areaLe_parsed a b :
  isValid parseFloat a = true -> isValid parseFloat b = true ->
  (areaLe parseFloat a b = true <->
   parsedArea parseFloat a <= parsedArea parseFloat b).
Proof.
  intros Ha Hb. apply isValid_parsed in Ha, Hb.
  destruct Ha as [Ea _], Hb as [Eb _].
  unfold areaLe, sub. rewrite Ea, Eb, leb_true. lra.
Qed.

Lemma validData_valid m :
  Forall (fun item => isValid parseFloat item = true) (validData parseFloat m).
Proof. apply Forall_forall. intros x Hx. now apply filter_In in Hx. Qed.

Lemma sorted_perm m :
  Permutation (validData parseFloat m) (sorted parseFloat m).
Proof. apply sortBy_perm. Qed.

Lemma sorted_ascending m :
  StronglySorted
    (fun a b => parsedArea parseFloat a <= parsedArea parseFloat b)
    (sorted parseFloat m).
Proof.
  apply (sortBy_sorted (areaLe parseFloat)
           (fun item => isValid parseFloat item = true)).
  - intros a b. apply areaLe_parsed.
  - intros a b _ _. lra.
  - intros a b c _ _ _. lra.
  - apply validData_valid.
Qed.

Lemma sorted_valid m x :
  In x (sorted parseFloat m) -> isValid parseFloat x = true.
Proof.
  intros Hx.
  apply (Permutation_in _ (Permutation_sym (sorted_perm m))) in Hx.
  now apply filter_In in Hx.
Qed.

(** The normal path of [calculateStats], with the parsed areas named. *)
Lemma calculateStats_normal m :
  (2 <= length (validData parseFloat m))%nat ->
  let lo := nth 0 (sorted parseFloat m) placeholder in
  let hi := nth (length (sorted parseFloat m) - 1) (sorted parseFloat m)
                placeholder in
  let pct := (parsedArea parseFloat hi - parsedArea parseFloat lo)
             / parsedArea parseFloat hi * 100 in
  0 < parsedArea parseFloat lo <= parsedArea parseFloat hi /\
  calculateStats parseFloat m =
    mkStats lo hi (Some pct)
      (if JS.ltb 75 pct then 2%Z else if JS.leb 50 pct then 1%Z else 0%Z)
      None.
Proof.
  intros Hlen lo hi pct.
  assert (Hlen' : (2 <= length (sorted parseFloat m))%nat).
  { now rewrite <- (Permutation_length (sorted_perm m)). }
  assert (Hne : sorted parseFloat m <> []).
  { intros E. rewrite E in Hlen'. simpl in Hlen'. lia. }
  assert (Hlo : In lo (sorted parseFloat m)) by (apply nth_In; lia).
  assert (Hhi : In hi (sorted parseFloat m)) by (apply nth_In; lia).
  pose proof (isValid_parsed _ (sorted_valid _ _ Hlo)) as [Elo Plo].
  pose proof (isValid_parsed _ (sorted_valid _ _ Hhi)) as [Ehi Phi].
  pose proof (sorted_first_last _ placeholder _
                (fun a => Rle_refl (parsedArea parseFloat a))
                (sorted_ascending m) Hne hi Hhi) as [Hle _].
  fold lo in Hle. split; [lra|].
  unfold calculateStats.
  destruct (Nat.ltb_spec (length (validData parseFloat m)) 2) as [|_]; [lia|].
  cbv zeta. fold lo. fold hi.
  rewrite Elo, Ehi.
  assert (gt (Some (parsedArea parseFloat hi)) 0 = true) as ->
    by now apply ltb_true.
  reflexivity.
Qed.

Lemma calculateStats_degenerate m :
  (length (validData parseFloat m) < 2)%nat ->
  calculateStats parseFloat m =
    let singleData :=
      match validData parseFloat m with
      | [item] => item
      | _ => placeholder
      end in
    mkStats singleData singleData (Some 0) 0%Z (Some errorText).
Proof.
  intros Hlen. unfold calculateStats.
  destruct (Nat.ltb_spec (length (validData parseFloat m)) 2) as [_|]; [|lia].
  destruct (validData parseFloat m) as [|a [|b l]]; simpl in *;
    try reflexivity; lia.
Qed.

End StatsFacts.

Section StatsClaims.

Local Open Scope R_scope.
Local Open Scope string_scope.
Import SummaryManager.








End StatsClaims.

(** * floodFill *)

Section FloodFillFacts.

Import ColorAlgorithm.

(** The integer test of [colorMatch] is the comparison of the source,
    [Math.sqrt(d2) <= tol]. *)
Lemma colorMatch_sqrt (r g b tr tg tb tol : Z) :
  colorMatch r g b tr tg tb tol = true <->
  (sqrt (IZR (dist2 r g b tr tg tb)) <= IZR tol)%R.
Proof.
  unfold colorMatch.
  assert (Hd : (0 <= dist2 r g b tr tg tb)%Z) by (unfold dist2; nia).
  assert (HdR : (0 <= IZR (dist2 r g b tr tg tb))%R) by now apply IZR_le.
  rewrite andb_true_iff, Z.leb_le, Z.leb_le. split.
  - intros [Htol Hle]. apply IZR_le in Htol, Hle.
    rewrite mult_IZR in Hle.
    rewrite <- (sqrt_square (IZR tol)) by exact Htol.
    now apply sqrt_le_1_alt.
  - intros Hle. pose proof (sqrt_pos (IZR (dist2 r g b tr tg tb))) as Hpos.
    assert (Htol : (0 <= IZR tol)%R) by lra.
    split; [now apply le_IZR|].
    apply le_IZR. rewrite mult_IZR.
    rewrite <- (sqrt_def _ HdR). now apply Rmult_le_compat.
Qed.

Variables (data : list Z) (width height : Z).
Variables (target : Z * Z * Z) (tol : Z).

Lemma scanRow_queue y xs st :
  queue st <> [] -> queue (scanRow data width height target tol y xs st) <> [].
Proof.
  intros H. induction xs as [|x xs IH]; simpl; [exact H|].
  destruct (_ && _); [|exact IH].
  simpl. destruct (queue st); [congruence | discriminate].
Qed.

(** The queue holds the seed from the start, so the test
    [queue.length > 0] after the first row of the window always succeeds:
    only the row [y = start.y - 2] is ever scanned. *)
Lemma scanWindow_first_row_only xs y ys st :
  queue st <> [] ->
  scanWindow data width height target tol xs (y :: ys) st
  = scanRow data width height target tol y xs st.
Proof.
  intros H. simpl.
  pose proof (scanRow_queue y xs st H) as Hq.
  destruct (queue (scanRow data width height target tol y xs st));
    [congruence | reflexivity].
Qed.

End FloodFillFacts.

Section FloodFillClaims.

Local Open Scope Z_scope.

(** C1 fails on the code: on the 5x5 frame [cornerFrame] (black, with a
    red pixel at (4,4)), target red, tolerance 1 and seed (2,2), the 5x5
    window centred on the seed contains a matching pixel, yet [floodFill]
    returns the empty region.  For every input the window search is the
    scan of the single row [y = start.y - 2]: the queue already holds the
    seed, so the loop is left after its first row. *)
Theorem floodFill_window_search_stops_after_first_row :
  ColorAlgorithm.windowHasMatch cornerFrame 5 5 (255, 0, 0) 1 (2, 2) = true /\
  ColorAlgorithm.floodFill cornerFrame 5 5 (255, 0, 0) 1 27 (2, 2) = Some [] /\
  ColorAlgorithm.floodFill cornerFrame 5 5 (255, 0, 0) 1 27 (4, 4)
  = Some [(4, 4)] /\
  forall data width height target tol sx sy,
    ColorAlgorithm.scanWindow data width height target tol
      (ColorAlgorithm.offsets sx) (ColorAlgorithm.offsets sy)
      (ColorAlgorithm.mkState (sx, sy) [] [(sx, sy)])
    = ColorAlgorithm.scanRow data width height target tol
        (sy - 2) (ColorAlgorithm.offsets sx)
        (ColorAlgorithm.mkState (sx, sy) [] [(sx, sy)]).
Proof.
  split; [vm_compute; reflexivity|].
  split; [vm_compute; reflexivity|].
  split; [vm_compute; reflexivity|].
  intros data width height target tol sx sy.
  unfold ColorAlgorithm.offsets at 2.
  apply scanWindow_first_row_only. discriminate.
Qed.

End FloodFillClaims.

(** * Utils: editing helpers *)

Section EditingFacts.

Local Open Scope R_scope.
Import Editing.

Lemma euclid_sq p q :
  euclid p q = sqrt ((px p - px q) * (px p - px q) + (py p - py q) * (py p - py q)).
Proof. unfold euclid. f_equal. ring. Qed.

(** The clamped parameter computed by [pointToSegmentDistance]. *)
Lemma segment_parameter (p a b : Point) :
  exists t, 0 <= t <= 1 /\
    pointToSegmentDistance p a b = euclid p (onSegment a b t) /\
    forall s, 0 <= s <= 1 ->
      (px p - px (onSegment a b t)) * (px p - px (onSegment a b t))
      + (py p - py (onSegment a b t)) * (py p - py (onSegment a b t))
      <= (px p - px (onSegment a b s)) * (px p - px (onSegment a b s))
         + (py p - py (onSegment a b s)) * (py p - py (onSegment a b s)).
Proof.
  unfold pointToSegmentDistance. cbv zeta.
  set (A := px p - px a). set (B := py p - py a).
  set (C := px b - px a). set (D := py b - py a).
  set (r := if JS.eqb (C * C + D * D) 0 then -1 else (A * C + B * D) / (C * C + D * D)).
  exists (Rmax 0 (Rmin 1 r)).
  assert (Ht : 0 <= Rmax 0 (Rmin 1 r) <= 1).
  { split; [apply Rmax_l|]. apply Rmax_lub; [lra | apply Rmin_l]. }
  split; [exact Ht|]. split.
  { rewrite euclid_sq. unfold onSegment. cbn [px py]. reflexivity. }
  intros s Hs. unfold onSegment. cbn [px py]. fold A B C D.
  set (t := Rmax 0 (Rmin 1 r)) in *.
  replace (px p - (px a + t * C)) with (A - t * C) by (unfold A; ring).
  replace (py p - (py a + t * D)) with (B - t * D) by (unfold B; ring).
  replace (px p - (px a + s * C)) with (A - s * C) by (unfold A; ring).
  replace (py p - (py a + s * D)) with (B - s * D) by (unfold B; ring).
  set (len := C * C + D * D). set (dot := A * C + B * D).
  assert (Hlen : 0 <= len) by (unfold len; nra).
  assert (Hkey : 0 <= (s - t) * ((s + t) * len - 2 * dot)).
  { unfold r in t. fold len dot in t.
    destruct (JS.eqb len 0) eqn:E.
    - apply eqb_true in E. rewrite E.
      assert (C = 0 /\ D = 0) as [HC HD] by (unfold len in E; split; nra).
      unfold dot. rewrite HC, HD. nra.
    - assert (Hpos : 0 < len).
      { destruct (Req_dec len 0) as [H0|H0]; [|lra].
        apply eqb_true in H0. congruence. }
      assert (Hq : dot / len * len = dot) by (field; lra).
      set (q := dot / len) in *.
      assert (Hcases : (q <= 0 /\ t = 0) \/ (1 <= q /\ t = 1) \/ (0 <= q <= 1 /\ t = q)).
      { subst t. unfold Rmax, Rmin.
        destruct (Rle_dec 1 q); destruct (Rle_dec 0 1); try lra;
          destruct (Rle_dec 0 q); try lra;
          destruct (Rle_dec 0 1); try lra. }
      destruct Hcases as [[Hq0 ->] | [[Hq1 ->] | [Hq01 ->]]].
      + assert (dot <= 0) by nra.
        replace ((s - 0) * ((s + 0) * len - 2 * dot))
          with (s * (s * len + 2 * - dot)) by ring.
        apply Rmult_le_pos; nra.
      + assert (len <= dot) by nra.
        replace ((s - 1) * ((s + 1) * len - 2 * dot))
          with ((1 - s) * (2 * dot - (s + 1) * len)) by ring.
        apply Rmult_le_pos; nra.
      + rewrite <- Hq.
        replace ((s - q) * ((s + q) * len - 2 * (q * len)))
          with ((s - q) * (s - q) * len) by ring.
        apply Rmult_le_pos; [exact (Rle_0_sqr (s - q)) | exact Hlen]. }
  clearbody t. unfold len, dot in Hkey. nra.
Qed.

Lemma segment_distance_attained (p a b : Point) :
  exists t, 0 <= t <= 1 /\
    pointToSegmentDistance p a b = euclid p (onSegment a b t).
Proof.
  destruct (segment_parameter p a b) as (t & Ht & Hd & _).
  exists t. split; assumption.
Qed.

Lemma segment_distance_le (p a b : Point) (s : R) :
  0 <= s <= 1 -> pointToSegmentDistance p a b <= euclid p (onSegment a b s).
Proof.
  intros Hs. destruct (segment_parameter p a b) as (t & Ht & Hd & Hmin).
  rewrite Hd, !euclid_sq. apply sqrt_le_1_alt. now apply Hmin.
Qed.

Lemma onSegment_flip a b s : onSegment b a (1 - s) = onSegment a b s.
Proof. unfold onSegment. f_equal; ring. Qed.

Lemma euclid_nonneg p q : 0 <= euclid p q.
Proof. apply sqrt_pos. Qed.

Lemma euclid_refl p : euclid p p = 0.
Proof.
  rewrite euclid_sq.
  replace ((px p - px p) * (px p - px p) + (py p - py p) * (py p - py p))
    with 0 by ring.
  apply sqrt_0.
Qed.

Lemma segment_distance_flip (p a b : Point) :
  pointToSegmentDistance p a b = pointToSegmentDistance p b a.
Proof.
  assert (Hle : forall a b,
            pointToSegmentDistance p a b <= pointToSegmentDistance p b a).
  { intros a0 b0.
    destruct (segment_distance_attained p b0 a0) as (t & Ht & ->).
    rewrite <- onSegment_flip. apply segment_distance_le. lra. }
  apply Rle_antisym; apply Hle.
Qed.

Lemma segment_distance_zero (a b : Point) (s : R) :
  0 <= s <= 1 -> pointToSegmentDistance (onSegment a b s) a b = 0.
Proof.
  intros Hs. apply Rle_antisym.
  - rewrite <- (euclid_refl (onSegment a b s)). now apply segment_distance_le.
  - destruct (segment_distance_attained (onSegment a b s) a b) as (t & _ & ->).
    apply euclid_nonneg.
Qed.

(** [pointToSegmentDistance] is the distance from [p] to the nearest point
    of the segment from [a] to [b]: it is attained at a point of the
    segment, and no point of the segment is nearer. *)
Theorem pointToSegmentDistance_nearest : forall (p a b : Point),
  (exists t, 0 <= t <= 1 /\
      pointToSegmentDistance p a b = euclid p (onSegment a b t)) /\
  (forall s, 0 <= s <= 1 ->
      pointToSegmentDistance p a b <= euclid p (onSegment a b s)).
Proof.
  intros p a b. split.
  - apply segment_distance_attained.
  - intros s Hs. now apply segment_distance_le.
Qed.

Lemma pointToSegmentDistance_nearest_witness :
  0 <= 1 <= 1 /\
  pointToSegmentDistance (mkPoint 3 4) (mkPoint 0 0) (mkPoint 6 0)
  <= euclid (mkPoint 3 4) (onSegment (mkPoint 0 0) (mkPoint 6 0) 1).
Proof.
  assert (H : 0 <= 1 <= 1) by lra.
  split; [exact H|].
  exact (proj2 (pointToSegmentDistance_nearest
                  (mkPoint 3 4) (mkPoint 0 0) (mkPoint 6 0)) 1 H).
Defined.

(** The distance does not depend on the direction of the segment, is the
    distance to the point on a zero-length segment, and is 0 on every
    point of the segment. *)
Theorem pointToSegmentDistance_symmetric : forall (p a b : Point),
  pointToSegmentDistance p a b = pointToSegmentDistance p b a /\
  pointToSegmentDistance p a a = euclid p a /\
  (forall s, 0 <= s <= 1 ->
     pointToSegmentDistance (onSegment a b s) a b = 0).
Proof.
  intros p a b.
  split; [apply segment_distance_flip|]. split.
  - destruct (segment_distance_attained p a a) as (t & Ht & ->).
    f_equal. unfold onSegment. destruct a as [ax ay]. cbn [px py]. f_equal; ring.
  - intros s Hs. now apply segment_distance_zero.
Qed.

Lemma pointToSegmentDistance_symmetric_witness :
  0 <= / 2 <= 1 /\
  pointToSegmentDistance
    (onSegment (mkPoint 0 0) (mkPoint 6 0) (/ 2)) (mkPoint 0 0) (mkPoint 6 0) = 0.
Proof.
  assert (H : 0 <= / 2 <= 1) by lra.
  split; [exact H|].
  exact (proj2 (proj2 (pointToSegmentDistance_symmetric
                         (mkPoint 0 0) (mkPoint 0 0) (mkPoint 6 0))) (/ 2) H).
Defined.

End EditingFacts.

(** * Utils: vertices, edges, handles and boxes *)

Lemma ltb_false x y : JS.ltb x y = false <-> (y <= x)%R.
Proof.
  unfold JS.ltb. destruct (Rlt_dec x y); split; intros;
    try lra; try discriminate; reflexivity.
Qed.

Lemma leb_false x y : JS.leb x y = false <-> (y < x)%R.
Proof.
  unfold JS.leb. destruct (Rle_dec x y); split; intros;
    try lra; try discriminate; reflexivity.
Qed.

Section FindFacts.

(** A loop over [0 .. n-1] that returns at the first hit. *)
Lemma find_seq_first (f : nat -> bool) (n : nat) : forall start,
  match find f (seq start n) with
  | Some i => (start <= i < start + n)%nat /\ f i = true /\
              forall j, (start <= j < i)%nat -> f j = false
  | None => forall j, (start <= j < start + n)%nat -> f j = false
  end.
Proof.
  induction n as [|n IH]; intros start; simpl.
  - intros j Hj. lia.
  - destruct (f start) eqn:E.
    + split; [lia|]. split; [exact E|]. intros j Hj. lia.
    + specialize (IH (S start)). destruct (find f (seq (S start) n)) as [i|].
      * destruct IH as (Hi & Hf & Hfirst). split; [lia|]. split; [exact Hf|].
        intros j Hj. destruct (Nat.eq_dec j start) as [->|]; [exact E|].
        apply Hfirst. lia.
      * intros j Hj. destruct (Nat.eq_dec j start) as [->|]; [exact E|].
        apply IH. lia.
Qed.

End FindFacts.

Section EditingFacts2.

Local Open Scope R_scope.
Import Editing.

(** [findEdgeToInsert] returns the first edge of the closed polygon (the
    last edge runs from the last vertex back to the first) that is closer
    to [m] than 8, and [null] exactly when no edge is; a point on an edge
    always gets an edge at or before that one. *)
Theorem findEdgeToInsert_first_close_edge :
  forall (m : Point) (polygon : list Point),
  match findEdgeToInsert m polygon with
  | Some i => (i < length polygon)%nat /\ edgeDistance m polygon i < 8 /\
              forall j, (j < i)%nat -> 8 <= edgeDistance m polygon j
  | None => forall j, (j < length polygon)%nat -> 8 <= edgeDistance m polygon j
  end /\
  (forall k s, (k < length polygon)%nat -> 0 <= s <= 1 ->
     m = onSegment (nth k polygon Kernel.origin)
           (nth ((k + 1) mod length polygon) polygon Kernel.origin) s ->
     exists i, findEdgeToInsert m polygon = Some i /\ (i <= k)%nat).
Proof.
  intros m polygon.
  pose proof (find_seq_first
    (fun i => JS.ltb (edgeDistance m polygon i) 8) (length polygon) 0) as H.
  unfold findEdgeToInsert, edgeDistance in *. cbv zeta.
  split.
  - destruct (find _ (seq 0 (length polygon))) as [i|].
    + destruct H as (Hi & Hf & Hfirst). split; [lia|].
      split; [now apply ltb_true|]. intros j Hj. apply ltb_false, Hfirst. lia.
    + intros j Hj. apply ltb_false, H. lia.
  - intros k s Hk Hs Hm.
    assert (Hzero : pointToSegmentDistance m (nth k polygon Kernel.origin)
              (nth ((k + 1) mod length polygon) polygon Kernel.origin) = 0).
    { rewrite Hm. now apply segment_distance_zero. }
    destruct (find _ (seq 0 (length polygon))) as [i|].
    + exists i. split; [reflexivity|].
      destruct H as (_ & _ & Hfirst).
      destruct (Nat.le_gt_cases i k) as [|Hgt]; [assumption|].
      specialize (Hfirst k ltac:(lia)). apply ltb_false in Hfirst. lra.
    + specialize (H k ltac:(lia)). apply ltb_false in H. lra.
Qed.

Lemma findEdgeToInsert_first_close_edge_witness :
  (0 < length triangle)%nat /\ 0 <= 0 <= 1 /\
  exists i, findEdgeToInsert (mkPoint 0 0) triangle = Some i /\ (i <= 0)%nat.
Proof.
  assert (H0 : (0 < length triangle)%nat) by (simpl; lia).
  assert (Hs : 0 <= 0 <= 1) by lra.
  split; [exact H0|]. split; [exact Hs|].
  apply (proj2 (findEdgeToInsert_first_close_edge (mkPoint 0 0) triangle)
           0%nat 0 H0 Hs).
  unfold onSegment, triangle. simpl. f_equal; ring.
Defined.

(** [getPolygonVertex] returns the first vertex within [2 * size] of [m] on
    both axes and [null] exactly when there is none; with [size <= 0] it
    is always [null], and with [size > 0] a vertex clicked exactly is
    found at or before its index. *)
Theorem getPolygonVertex_first_near_vertex :
  forall (m : Point) (polygon : list Point) (size : R),
  match getPolygonVertex m polygon size with
  | Some i => (i < length polygon)%nat /\ vertexNear m polygon size i /\
              forall j, (j < i)%nat -> ~ vertexNear m polygon size j
  | None => forall j, (j < length polygon)%nat -> ~ vertexNear m polygon size j
  end /\
  (size <= 0 -> getPolygonVertex m polygon size = None) /\
  (0 < size -> forall k, (k < length polygon)%nat ->
     m = nth k polygon Kernel.origin ->
     exists i, getPolygonVertex m polygon size = Some i /\ (i <= k)%nat).
Proof.
  intros m polygon size.
  set (f := fun i =>
          JS.ltb (Rabs (px (nth i polygon Kernel.origin) - px m)) (size * 2)
          && JS.ltb (Rabs (py (nth i polygon Kernel.origin) - py m)) (size * 2)).
  assert (Hf : forall i, f i = true <-> vertexNear m polygon size i).
  { intros i. unfold f, vertexNear. now rewrite andb_true_iff, !ltb_true. }
  assert (Hnf : forall i, f i = false -> ~ vertexNear m polygon size i).
  { intros i E V. apply Hf in V. congruence. }
  pose proof (find_seq_first f (length polygon) 0) as H.
  assert (Hmain :
    match getPolygonVertex m polygon size with
    | Some i => (i < length polygon)%nat /\ vertexNear m polygon size i /\
                forall j, (j < i)%nat -> ~ vertexNear m polygon size j
    | None => forall j, (j < length polygon)%nat -> ~ vertexNear m polygon size j
    end).
  { unfold getPolygonVertex. cbv zeta. fold f.
    destruct (find f (seq 0 (length polygon))) as [i|].
    - destruct H as (Hi & Hfi & Hfirst). split; [lia|].
      split; [now apply Hf|]. intros j Hj. apply Hnf, Hfirst. lia.
    - intros j Hj. apply Hnf, H. lia. }
  split; [exact Hmain|]. split.
  - intros Hsize. destruct (getPolygonVertex m polygon size) as [i|];
      [|reflexivity].
    destruct Hmain as (_ & [V _] & _). pose proof (Rabs_pos
      (px (nth i polygon Kernel.origin) - px m)). lra.
  - intros Hsize k Hk Hm.
    assert (Vk : vertexNear m polygon size k).
    { unfold vertexNear. rewrite <- Hm.
      replace (px m - px m) with 0 by ring.
      replace (py m - py m) with 0 by ring. rewrite Rabs_R0. lra. }
    destruct (getPolygonVertex m polygon size) as [i|].
    + exists i. split; [reflexivity|]. destruct Hmain as (_ & _ & Hfirst).
      destruct (Nat.le_gt_cases i k) as [|Hgt]; [assumption|].
      exfalso. exact (Hfirst k Hgt Vk).
    + exfalso. exact (Hmain k Hk Vk).
Qed.

Lemma getPolygonVertex_first_near_vertex_witness :
  0 < 8 /\ (1 < length triangle)%nat /\
  exists i, getPolygonVertex (mkPoint 1 0) triangle 8 = Some i /\ (i <= 1)%nat.
Proof.
  assert (H8 : 0 < 8) by lra.
  assert (H1 : (1 < length triangle)%nat) by (simpl; lia).
  split; [exact H8|]. split; [exact H1|].
  exact (proj2 (proj2 (getPolygonVertex_first_near_vertex
                         (mkPoint 1 0) triangle 8)) H8 1%nat H1 eq_refl).
Defined.

Lemma resizeBox_min_size (handle : string) (m : Point) (box : Box) :
  10 <= bw (resizeBox handle m box) /\ 10 <= bh (resizeBox handle m box).
Proof.
  unfold resizeBox. cbv zeta.
  assert (Hclamp : forall v, 10 <= (if JS.ltb v 10 then 10 else v)).
  { intros v. destruct (JS.ltb v 10) eqn:E; [lra | now apply ltb_false]. }
  split.
  - destruct (String.eqb handle "tl"), (String.eqb handle "tr"),
      (String.eqb handle "br"), (String.eqb handle "bl");
      cbn [bw]; apply Hclamp.
  - destruct (String.eqb handle "tl"), (String.eqb handle "tr"),
      (String.eqb handle "br"), (String.eqb handle "bl");
      cbn [bh]; apply Hclamp.
Qed.

(** [resizeBox] never returns a box narrower or lower than 10, whatever
    the handle name; when neither bound applies, dragging a corner puts
    that corner at [m] and leaves the opposite corner where it was, and an
    unknown handle name leaves the box unchanged. *)
Theorem resizeBox_bounds_and_anchor :
  forall (handle : string) (m : Point) (box : Box),
  let r := resizeBox handle m box in
  10 <= bw r /\ 10 <= bh r /\
  (10 <= bw box + (bx box - px m) -> 10 <= bh box + (by_ box - py m) ->
   handle = "tl"%string ->
   bx r = px m /\ by_ r = py m /\
   bx r + bw r = bx box + bw box /\ by_ r + bh r = by_ box + bh box) /\
  (10 <= px m - bx box -> 10 <= bh box + (by_ box - py m) ->
   handle = "tr"%string ->
   bx r + bw r = px m /\ by_ r = py m /\
   bx r = bx box /\ by_ r + bh r = by_ box + bh box) /\
  (10 <= px m - bx box -> 10 <= py m - by_ box ->
   handle = "br"%string ->
   bx r + bw r = px m /\ by_ r + bh r = py m /\
   bx r = bx box /\ by_ r = by_ box) /\
  (10 <= bw box + (bx box - px m) -> 10 <= py m - by_ box ->
   handle = "bl"%string ->
   bx r = px m /\ by_ r + bh r = py m /\
   bx r + bw r = bx box + bw box /\ by_ r = by_ box) /\
  (10 <= bw box -> 10 <= bh box ->
   handle <> "tl"%string -> handle <> "tr"%string ->
   handle <> "br"%string -> handle <> "bl"%string -> r = box).
Proof.
  intros handle m box r. subst r.
  split; [apply resizeBox_min_size|]. split; [apply resizeBox_min_size|].
  unfold resizeBox. cbv zeta.
  assert (Hkeep : forall v, 10 <= v -> (if JS.ltb v 10 then 10 else v) = v).
  { intros v Hv. destruct (JS.ltb v 10) eqn:E; [|reflexivity].
    apply ltb_true in E. lra. }
  split; [|split; [|split; [|split]]].
  - intros Hw Hh ->. cbn [String.eqb Ascii.eqb Bool.eqb].
    rewrite (Hkeep _ Hw), (Hkeep _ Hh). cbn [bx by_ bw bh].
    repeat split; lra.
  - intros Hw Hh ->. cbn [String.eqb Ascii.eqb Bool.eqb].
    rewrite (Hkeep _ Hw), (Hkeep _ Hh). cbn [bx by_ bw bh].
    repeat split; lra.
  - intros Hw Hh ->. cbn [String.eqb Ascii.eqb Bool.eqb].
    rewrite (Hkeep _ Hw), (Hkeep _ Hh). cbn [bx by_ bw bh].
    repeat split; lra.
  - intros Hw Hh ->. cbn [String.eqb Ascii.eqb Bool.eqb].
    rewrite (Hkeep _ Hw), (Hkeep _ Hh). cbn [bx by_ bw bh].
    repeat split; lra.
  - intros Hw Hh N1 N2 N3 N4.
    apply String.eqb_neq in N1, N2, N3, N4. rewrite N1, N2, N3, N4.
    rewrite (Hkeep _ Hw), (Hkeep _ Hh). now destruct box.
Qed.

Lemma resizeBox_bounds_and_anchor_witness :
  10 <= px (mkPoint 50 60) - bx (mkBox 0 0 20 20) /\
  10 <= py (mkPoint 50 60) - by_ (mkBox 0 0 20 20) /\
  bx (resizeBox "br" (mkPoint 50 60) (mkBox 0 0 20 20))
  + bw (resizeBox "br" (mkPoint 50 60) (mkBox 0 0 20 20)) = px (mkPoint 50 60).
Proof.
  assert (H1 : 10 <= px (mkPoint 50 60) - bx (mkBox 0 0 20 20))
    by (simpl; lra).
  assert (H2 : 10 <= py (mkPoint 50 60) - by_ (mkBox 0 0 20 20))
    by (simpl; lra).
  split; [exact H1|]. split; [exact H2|].
  exact (proj1 (proj1 (proj2 (proj2 (proj2 (proj2
           (resizeBox_bounds_and_anchor "br" (mkPoint 50 60)
              (mkBox 0 0 20 20))))))
         H1 H2 eq_refl)).
Defined.

End EditingFacts2.

Section BoxFacts.

Local Open Scope R_scope.
Import Editing.

(** [getBoxHandle] answers with the name of a corner handle that is within
    [2 * size] of [m] on both axes, and with [null] exactly when no corner
    is; with [size <= 0] it is always [null], and a click exactly on the
    top-left corner with [size > 0] gives ["tl"]. *)
Theorem getBoxHandle_names_near_corner :
  forall (m : Point) (box : Box) (size : R),
  (forall n, getBoxHandle m box size = Some n ->
     exists h, In h (getBoxHandles box) /\ name h = n /\
               Rabs (px m - hx h) < size * 2 /\
               Rabs (py m - hy h) < size * 2) /\
  (getBoxHandle m box size = None ->
     forall h, In h (getBoxHandles box) ->
       ~ (Rabs (px m - hx h) < size * 2 /\ Rabs (py m - hy h) < size * 2)) /\
  (size <= 0 -> getBoxHandle m box size = None) /\
  (0 < size -> m = mkPoint (bx box) (by_ box) ->
   getBoxHandle m box size = Some "tl"%string).
Proof.
  intros m box size.
  assert (Hw : forall h, within m (hx h) (hy h) size = true <->
             Rabs (px m - hx h) < size * 2 /\ Rabs (py m - hy h) < size * 2).
  { intros h. unfold within. now rewrite andb_true_iff, !ltb_true. }
  assert (Hname : forall h, In h (getBoxHandles box) ->
             String.eqb (name h) "" = false).
  { intros h Hh. unfold getBoxHandles in Hh. cbv zeta in Hh. simpl in Hh.
    destruct Hh as [<-|[<-|[<-|[<-|[]]]]]; reflexivity. }
  assert (Hsome : forall n, getBoxHandle m box size = Some n ->
     exists h, In h (getBoxHandles box) /\ name h = n /\
               Rabs (px m - hx h) < size * 2 /\
               Rabs (py m - hy h) < size * 2).
  { intros n. unfold getBoxHandle.
    destruct (find _ (getBoxHandles box)) as [h|] eqn:E; [|discriminate].
    apply find_some in E. destruct E as [Hin Hnear].
    rewrite (Hname h Hin). intros [= <-]. exists h.
    split; [exact Hin|]. split; [reflexivity|]. now apply Hw. }
  split; [exact Hsome|]. split; [|split].
  - unfold getBoxHandle.
    destruct (find _ (getBoxHandles box)) as [h|] eqn:E.
    + apply find_some in E. destruct E as [Hin _]. now rewrite (Hname h Hin).
    + intros _ h Hin Hnear. apply Hw in Hnear.
      pose proof (find_none _ _ E h Hin) as Hf. cbv beta in Hf. congruence.
  - intros Hsize. destruct (getBoxHandle m box size) as [n|] eqn:E;
      [|reflexivity].
    destruct (Hsome n eq_refl) as (h & _ & _ & Hx & _).
    pose proof (Rabs_pos (px m - hx h)). lra.
  - intros Hsize ->. unfold getBoxHandle, getBoxHandles. cbv zeta.
    cbn [find hx hy px py].
    assert (within (mkPoint (bx box) (by_ box)) (bx box) (by_ box) size = true)
      as ->; [|reflexivity].
    unfold within. cbn [px py].
    replace (bx box - bx box) with 0 by ring.
    replace (by_ box - by_ box) with 0 by ring. rewrite Rabs_R0.
    apply andb_true_iff. split; apply ltb_true; lra.
Qed.

Lemma getBoxHandle_names_near_corner_witness :
  0 < 8 /\
  getBoxHandle (mkPoint 5 7) (mkBox 5 7 100 50) 8 = Some "tl"%string.
Proof.
  assert (H : 0 < 8) by lra.
  split; [exact H|].
  exact (proj2 (proj2 (proj2 (getBoxHandle_names_near_corner
           (mkPoint 5 7) (mkBox 5 7 100 50) 8))) H eq_refl).
Defined.

Lemma box_shoelace b :
  Utils.shoelace (getBoxPolygonPoints b) = 2 * (bw b * bh b).
Proof.
  unfold Utils.shoelace, getBoxPolygonPoints. cbv zeta.
  cbn [length seq fold_left Nat.modulo Nat.divmod Nat.add nth px py fst snd
       Nat.sub].
  ring.
Qed.

(** The eight-point polygon of a box has the area of the box, and its
    centroid is the centre of the box; after [resizeBox] that area is at
    least 100. *)
Theorem box_polygon_area_and_centroid : forall (b : Box),
  Utils.calculatePolygonArea (getBoxPolygonPoints b) = Rabs (bw b * bh b) /\
  getPolygonCentroid (getBoxPolygonPoints b)
  = Some (mkPoint (bx b + bw b / 2) (by_ b + bh b / 2)) /\
  forall handle m,
    100 <= Utils.calculatePolygonArea
             (getBoxPolygonPoints (resizeBox handle m b)).
Proof.
  intros b.
  assert (Harea : forall b,
    Utils.calculatePolygonArea (getBoxPolygonPoints b) = Rabs (bw b * bh b)).
  { intros b0. unfold Utils.calculatePolygonArea. rewrite box_shoelace.
    f_equal. field. }
  split; [apply Harea|]. split.
  - unfold getPolygonCentroid, getBoxPolygonPoints. cbv zeta.
    cbn [fold_left px py length].
    f_equal. f_equal; simpl INR; field.
  - intros handle m. rewrite Harea.
    destruct (resizeBox_min_size handle m b) as (Hw & Hh).
    rewrite Rabs_pos_eq by nra. nra.
Qed.

Lemma sum_px_perm (f : Point -> R) (l l' : list Point) :
  Permutation l l' ->
  forall a, fold_left (fun x p => x + f p) l a
          = fold_left (fun x p => x + f p) l' a.
Proof.
  induction 1 as [|x l l' _ IH|x y l|l l' l'' _ IH1 _ IH2]; intros a; simpl.
  - reflexivity.
  - apply IH.
  - f_equal. ring.
  - now rewrite IH1, IH2.
Qed.

(** [getPolygonCentroid] does not depend on the order of the points, and
    answers with [NaN] coordinates exactly on the empty array. *)
Theorem getPolygonCentroid_order_independent :
  forall (points points' : list Point),
  (Permutation points points' ->
   getPolygonCentroid points = getPolygonCentroid points') /\
  (getPolygonCentroid points = None <-> points = []).
Proof.
  intros points points'. split.
  - intros Hp. unfold getPolygonCentroid.
    rewrite (sum_px_perm px _ _ Hp 0), (sum_px_perm py _ _ Hp 0).
    rewrite (Permutation_length Hp).
    destruct points as [|p l], points' as [|p' l']; try reflexivity.
    + apply Permutation_nil in Hp. discriminate.
    + apply Permutation_sym, Permutation_nil in Hp. discriminate.
  - unfold getPolygonCentroid. destruct points; split; intros; try reflexivity;
      discriminate.
Qed.

Lemma getPolygonCentroid_order_independent_witness :
  Permutation triangle (rev triangle) /\
  getPolygonCentroid triangle = getPolygonCentroid (rev triangle).
Proof.
  assert (H : Permutation triangle (rev triangle)) by apply Permutation_rev.
  split; [exact H|].
  exact (proj1 (getPolygonCentroid_order_independent triangle (rev triangle)) H).
Defined.

End BoxFacts.

(** * ColorAlgorithm: the flood fill *)

Section FillFacts.

Import ColorAlgorithm.
Local Open Scope Z_scope.

Lemma pixel_eqb_eq (a b : Pixel) : pixel_eqb a b = true <-> a = b.
Proof.
  unfold pixel_eqb. destruct a as [ax ay], b as [bx0 by0]. simpl.
  rewrite andb_true_iff, !Z.eqb_eq. split; [intros [-> ->] | intros [= -> ->]]; auto.
Qed.

Lemma has_In (v : list Pixel) (k : Pixel) : has v k = true <-> In k v.
Proof.
  unfold has. rewrite existsb_exists. split.
  - intros (x & Hx & E). apply pixel_eqb_eq in E. now subst.
  - intros H. exists k. split; [exact H | now apply pixel_eqb_eq].
Qed.

Lemma has_false (v : list Pixel) (k : Pixel) : has v k = false <-> ~ In k v.
Proof.
  rewrite <- has_In. destruct (has v k); split; intros; congruence.
Qed.

Lemma add_In (v : list Pixel) (k p : Pixel) : In p (add v k) <-> In p v \/ p = k.
Proof.
  unfold add. destruct (has v k) eqn:E.
  - apply has_In in E. split; [auto | intros [H | ->]; auto].
  - rewrite in_app_iff. simpl. intuition (subst; auto).
Qed.

Lemma add_NoDup (v : list Pixel) (k : Pixel) : NoDup v -> NoDup (add v k).
Proof.
  intros H. unfold add. destruct (has v k) eqn:E; [exact H|].
  apply has_false in E.
  apply NoDup_rev in H. rewrite <- (rev_involutive (v ++ [k])).
  apply NoDup_rev. rewrite rev_app_distr. simpl. constructor; [|exact H].
  now rewrite <- in_rev.
Qed.

Variables (data : list Z) (width height : Z).
Variables (target : Z * Z * Z) (tol : Z).

(** One neighbour visit: what it adds is new, in the frame and matching. *)
Lemma visit_spec (v q : list Pixel) (n : Pixel) :
  let v' := fst (visit data width height target tol (v, q) n) in
  let q' := snd (visit data width height target tol (v, q) n) in
  (v' = v /\ q' = q /\
   (pixelInFrame width height n = true ->
    pixelMatches data width target tol n = true -> In n v))
  \/ (v' = v ++ [n] /\ q' = q ++ [n] /\ ~ In n v /\
      pixelInFrame width height n = true /\ pixelMatches data width target tol n = true).
Proof.
  unfold visit, pixelInFrame, pixelMatches. destruct n as [nx ny]. cbn [fst snd].
  destruct (inBounds width height nx ny) eqn:Eb; cbn [andb].
  - destruct (has v (nx, ny)) eqn:Eh; cbn [negb].
    + left. repeat split. intros _ _. now apply has_In.
    + destruct (matchAt data (getIndex width nx ny) target tol) eqn:Em.
      * right. cbn [fst snd]. unfold add. rewrite Eh.
        repeat split. now apply has_false.
      * left. repeat split. discriminate.
  - left. repeat split. discriminate.
Qed.

Lemma range_In lo hi x : In x (JS.range lo hi) <-> lo <= x < hi.
Proof.
  unfold JS.range. rewrite in_map_iff. split.
  - intros (k & <- & Hk). apply in_seq in Hk. lia.
  - intros H. exists (Z.to_nat (x - lo)). split; [lia|]. apply in_seq. lia.
Qed.

Lemma cells_In (p : Pixel) :
  pixelInFrame width height p = true -> In p (cells width height).
Proof.
  unfold pixelInFrame, inBounds, cells. destruct p as [x y]. cbn [fst snd].
  rewrite !andb_true_iff, !Z.leb_le, !Z.ltb_lt. intros [[[Hx0 Hx1] Hy0] Hy1].
  apply in_flat_map. exists y. split; [apply range_In; lia|].
  apply in_map_iff. exists x. split; [reflexivity | apply range_In; lia].
Qed.

Lemma cells_length : length (cells width height) = (Z.to_nat width * Z.to_nat height)%nat.
Proof.
  unfold cells.
  assert (Hrow : forall y : Z, length (map (fun x : Z => (x, y)) (JS.range 0 width))
                           = Z.to_nat width).
  { intros y. rewrite length_map. unfold JS.range.
    rewrite length_map, length_seq. f_equal. lia. }
  assert (Hlen : length (JS.range 0 height) = Z.to_nat height).
  { unfold JS.range. rewrite length_map, length_seq. f_equal. lia. }
  rewrite <- Hlen. clear Hlen.
  induction (JS.range 0 height) as [|y ys IH]; simpl.
  - now rewrite Nat.mul_0_r.
  - rewrite length_app, Hrow, IH, Nat.mul_succ_r. lia.
Qed.

Lemma filter_shrinks {A : Type} (f g : A -> bool) (l : list A) (a : A) :
  (forall x, g x = true -> f x = true) ->
  In a l -> f a = true -> g a = false ->
  (length (filter g l) < length (filter f l))%nat.
Proof.
  intros Hgf. 
  assert (Hle : forall l0, (length (filter g l0) <= length (filter f l0))%nat).
  { induction l0 as [|x l0 IH]; simpl; [lia|].
    destruct (g x) eqn:Eg; [rewrite (Hgf x Eg); simpl; lia|].
    destruct (f x); simpl; lia. }
  induction l as [|x l IH]; intros Hin Hf Hg; [destruct Hin|].
  simpl. destruct Hin as [->|Hin].
  - rewrite Hf, Hg. simpl. specialize (Hle l). lia.
  - specialize (IH Hin Hf Hg).
    destruct (g x) eqn:Eg; [rewrite (Hgf x Eg); simpl; lia|].
    destruct (f x); simpl; lia.
Qed.

Lemma unvisited_bound v :
  (unvisitedCells width height v <= Z.to_nat width * Z.to_nat height)%nat.
Proof.
  unfold unvisitedCells. rewrite <- cells_length. apply filter_length_le.
Qed.

Lemma unvisited_decreases v n :
  pixelInFrame width height n = true -> ~ In n v ->
  (unvisitedCells width height (v ++ [n])
   < unvisitedCells width height v)%nat.
Proof.
  intros Hf Hn. unfold unvisitedCells.
  apply (filter_shrinks _ _ _ n).
  - intros c Hc. apply negb_true_iff in Hc. apply negb_true_iff.
    apply has_false. apply has_false in Hc. intros H. apply Hc.
    apply in_app_iff. now left.
  - now apply cells_In.
  - apply negb_true_iff. now apply has_false.
  - apply negb_false_iff. apply has_In. apply in_app_iff. right. now left.
Qed.

(** The inner [for (const [nx, ny] of neighbors)] loop. *)
Lemma expand_spec (ns : list Pixel) : forall (v q : list Pixel),
  let r := fold_left (visit data width height target tol) ns (v, q) in
  exists news,
    fst r = v ++ news /\ snd r = q ++ news /\
    (length (snd r) + unvisitedCells width height (fst r)
     <= length q + unvisitedCells width height v)%nat /\
    (NoDup v -> NoDup (fst r)) /\
    Forall (fun n => pixelInFrame width height n = true /\
                     pixelMatches data width target tol n = true) news /\
    (forall n, In n ns -> pixelInFrame width height n = true ->
               pixelMatches data width target tol n = true ->
               In n (fst r)).
Proof.
  induction ns as [|n ns IH]; intros v q; cbn [fold_left].
  - exists []. rewrite !app_nil_r. repeat split; auto. intros n [].
  - pose proof (visit_spec v q n) as Hv. cbv zeta in Hv.
    destruct (visit data width height target tol (v, q) n) as [v1 q1].
    cbn [fst snd] in Hv.
    destruct (IH v1 q1) as (news & Hf & Hs & Hpot & Hnd & Hall & Hcl).
    destruct Hv as [(-> & -> & Hin) | (-> & -> & Hnew & Hfr & Hm)].
    + exists news. repeat split; auto.
      intros n0 [<-|Hn0] Hfr Hm; [|now apply Hcl].
      rewrite Hf. apply in_app_iff. left. now apply Hin.
    + exists (n :: news).
      rewrite Hf, Hs, <- !app_assoc. cbn [app].
      split; [reflexivity|]. split; [reflexivity|].
      split.
      { rewrite <- !app_assoc in Hf, Hs. cbn [app] in Hf, Hs.
        rewrite <- Hf, <- Hs.
        pose proof (unvisited_decreases v n Hfr Hnew).
        rewrite length_app in Hpot. simpl in Hpot. lia. }
      split.
      { intros Hv. rewrite <- !app_assoc in Hf. cbn [app] in Hf.
        rewrite <- Hf. apply Hnd.
        apply NoDup_rev in Hv. rewrite <- (rev_involutive (v ++ [n])).
        apply NoDup_rev. rewrite rev_app_distr. simpl.
        constructor; [|exact Hv]. now rewrite <- in_rev. }
      split; [constructor; auto|].
      intros n0 [<-|Hn0] Hfr0 Hm0.
      * apply in_app_iff. right. now left.
      * specialize (Hcl n0 Hn0 Hfr0 Hm0). rewrite Hf in Hcl.
        rewrite <- app_assoc in Hcl. exact Hcl.
Qed.

(** The work queue loop ends: fuel above [queue.length] plus the number of
    unvisited cells is enough. *)
Lemma bfs_terminates (fuel : nat) : forall (v q : list Pixel),
  (length q + unvisitedCells width height v < fuel)%nat ->
  exists r, bfs data width height target tol fuel v q = Some r.
Proof.
  induction fuel as [|fuel IH]; intros v q Hlt; [lia|].
  destruct q as [|current rest]; [now exists v|].
  cbn [bfs].
  destruct (expand_spec (neighbors current) v rest)
    as (news & _ & _ & Hpot & _).
  destruct (fold_left _ (neighbors current) (v, rest)) as [v' q'].
  cbn [fst snd] in Hpot. apply IH. simpl in Hlt. lia.
Qed.

Lemma bfs_fuel_mono (fuel : nat) : forall fuel' (v q r : list Pixel),
  (fuel <= fuel')%nat ->
  bfs data width height target tol fuel v q = Some r ->
  bfs data width height target tol fuel' v q = Some r.
Proof.
  induction fuel as [|fuel IH]; intros fuel' v q r Hle; [discriminate|].
  destruct fuel' as [|fuel']; [lia|].
  cbn [bfs]. destruct q as [|current rest]; [auto|].
  destruct (fold_left _ (neighbors current) (v, rest)) as [v' q'].
  apply IH. lia.
Qed.

(** What the work queue loop returns. *)
Lemma bfs_result (fuel : nat) : forall (v q r : list Pixel),
  bfs data width height target tol fuel v q = Some r ->
  (exists news, r = v ++ news /\
     Forall (fun n => pixelInFrame width height n = true /\
                      pixelMatches data width target tol n = true) news) /\
  (NoDup v -> NoDup r) /\
  ((forall p, In p v -> In p q \/ regionClosedAt data width height target tol v p) ->
   forall p, In p r -> regionClosedAt data width height target tol r p).
Proof.
  induction fuel as [|fuel IH]; intros v q r; [discriminate|].
  cbn [bfs]. destruct q as [|current rest].
  - intros [= <-]. split; [exists []; now rewrite app_nil_r|].
    split; [auto|]. intros Hinv p Hp. destruct (Hinv p Hp) as [[]|H]. exact H.
  - destruct (expand_spec (neighbors current) v rest)
      as (news & Hf & Hs & _ & Hnd & Hall & Hcl).
    destruct (fold_left _ (neighbors current) (v, rest)) as [v' q'].
    cbn [fst snd] in *. subst v' q'. intros Hrun.
    destruct (IH _ _ _ Hrun) as ((news' & -> & Hall') & Hnd' & Hinv').
    split; [|split].
    + exists (news ++ news'). rewrite app_assoc. split; [reflexivity|].
      apply Forall_app. now split.
    + auto.
    + intros Hinv. apply Hinv'. intros p Hp.
      apply in_app_iff in Hp. destruct Hp as [Hp|Hp].
      * destruct (Hinv p Hp) as [[<-|Hq]|Hc].
        -- right. intros n Hn Hfr Hm. now apply Hcl.
        -- left. apply in_app_iff. now left.
        -- right. intros n Hn Hfr Hm. apply in_app_iff. left.
           now apply Hc.
      * left. apply in_app_iff. now right.
Qed.

Lemma scanRow_cases (y : Z) (xs : list Z) (st : State) :
  scanRow data width height target tol y xs st = st \/
  exists x, pixelInFrame width height (x, y) = true /\
    pixelMatches data width target tol (x, y) = true /\
    scanRow data width height target tol y xs st
    = mkState (x, y) (add (visited st) (x, y)) (queue st ++ [(x, y)]).
Proof.
  induction xs as [|x xs IH]; cbn [scanRow]; [now left|].
  destruct (inBounds width height x y
            && matchAt data (getIndex width x y) target tol) eqn:E;
    [|exact IH].
  apply andb_true_iff in E. right. exists x. now repeat split.
Qed.

(** The state in which [floodFill] enters its work queue loop. *)
Lemma floodFill_start (fuel : nat) (seed : Pixel) :
  exists v0 q0,
    floodFill data width height target tol fuel seed
    = bfs data width height target tol fuel v0 q0 /\
    (length q0 <= 2)%nat /\ NoDup v0 /\
    (forall p, In p v0 -> In p q0) /\
    (forall p, In p v0 ->
       pixelMatches data width target tol p = true /\
       (pixelMatches data width target tol seed = false ->
        pixelInFrame width height p = true)) /\
    (pixelMatches data width target tol seed = true -> v0 = [seed]).
Proof.
  unfold floodFill. destruct seed as [sx sy]. cbv beta iota zeta.
  change (matchAt data (getIndex width sx sy) target tol)
    with (pixelMatches data width target tol (sx, sy)).
  destruct (pixelMatches data width target tol (sx, sy)) eqn:Em; cbn [negb].
  - exists [(sx, sy)], [(sx, sy)]. cbn [visited queue add has existsb app].
    split; [reflexivity|]. split; [simpl; lia|].
    split; [repeat constructor; intros []|].
    split; [auto|]. split; [|reflexivity].
    intros p [<-|[]]. split; [exact Em | congruence].
  - set (st := scanWindow data width height target tol
                  (offsets sx) (offsets sy) _).
    assert (Hw : st = scanRow data width height target tol (sy - 2) (offsets sx)
                        (mkState (sx, sy) [] [(sx, sy)])).
    { subst st. unfold offsets at 2. apply scanWindow_first_row_only.
      discriminate. }
    clearbody st.
    destruct (scanRow_cases (sy - 2) (offsets sx)
                (mkState (sx, sy) [] [(sx, sy)])) as [Hc | (x & Hf & Hm & Hc)];
      rewrite Hc in Hw; clear Hc.
    + exists [], [(sx, sy)]. rewrite Hw.
      cbn [visited queue length Z.of_nat Pos.of_succ_nat Z.eqb].
      split; [reflexivity|]. split; [simpl; lia|].
      split; [constructor|]. split; [intros p []|].
      split; [intros p [] | discriminate].
    + exists [(x, sy - 2)], [(sx, sy); (x, sy - 2)]. rewrite Hw.
      cbn [visited queue app length add has existsb].
      cbn [Z.of_nat Pos.of_succ_nat Pos.succ Z.eqb].
      split; [reflexivity|]. split; [simpl; lia|].
      split; [repeat constructor; intros []|].
      split; [intros p [<-|[]]; right; now left|].
      split; [|discriminate].
      intros p [<-|[]]. split; [exact Hm | intros _; exact Hf].
Qed.

End FillFacts.

Section FillTheorems.

Import ColorAlgorithm.

Lemma floodFill_fuel_mono (data : list Z) (width height : Z)
    (target : Z * Z * Z) (tol : Z) (seed : Pixel) (fuel fuel' : nat)
    (region : list Pixel) :
  (fuel <= fuel')%nat ->
  floodFill data width height target tol fuel seed = Some region ->
  floodFill data width height target tol fuel' seed = Some region.
Proof.
  intros Hle. unfold floodFill. destruct seed as [sx sy].
  cbv zeta. destruct (negb _).
  - destruct (Z.of_nat _ =? 0)%Z; [auto|]. now apply bfs_fuel_mono.
  - now apply bfs_fuel_mono.
Qed.

Lemma floodFill_total (data : list Z) (width height : Z)
    (target : Z * Z * Z) (tol : Z) (seed : Pixel) :
  exists region, forall fuel,
    (Z.to_nat width * Z.to_nat height + 3 <= fuel)%nat ->
    floodFill data width height target tol fuel seed = Some region.
Proof.
  set (bound := (Z.to_nat width * Z.to_nat height + 3)%nat).
  destruct (floodFill_start data width height target tol bound seed)
    as (v0 & q0 & Hrun & Hq & _).
  destruct (bfs_terminates data width height target tol bound v0 q0)
    as [region Hregion].
  { pose proof (unvisited_bound width height v0). unfold bound. lia. }
  exists region. intros fuel Hfuel.
  apply (floodFill_fuel_mono data width height target tol seed bound);
    [exact Hfuel | now rewrite Hrun].
Qed.

Lemma floodFill_sound (data : list Z) (width height : Z)
    (target : Z * Z * Z) (tol : Z) (fuel : nat) (seed : Pixel)
    (region : list Pixel) :
  floodFill data width height target tol fuel seed = Some region ->
  (forall p, In p region -> pixelMatches data width target tol p = true) /\
  (pixelMatches data width target tol seed = true ->
   first_ region = Some seed).
Proof.
  intros Hrun.
  destruct (floodFill_start data width height target tol fuel seed)
    as (v0 & q0 & Heq & _ & _ & _ & Hv0 & Hseed).
  rewrite Heq in Hrun.
  destruct (bfs_result data width height target tol fuel v0 q0 region Hrun)
    as ((news & -> & Hall) & _).
  rewrite Forall_forall in Hall. split.
  - intros p Hp. apply in_app_iff in Hp. destruct Hp as [Hp|Hp].
    + now apply Hv0.
    + now apply Hall.
  - intros Hm. rewrite (Hseed Hm). reflexivity.
Qed.

(** [floodFill] terminates on every input: the work queue loop needs at
    most [width * height + 2] rounds, so fuel [width * height + 3] yields
    a region, and no amount of fuel yields another one. *)
Theorem floodFill_terminates :
  forall (data : list Z) (width height : Z) (target : Z * Z * Z) (tol : Z)
         (seed : Pixel),
  exists region,
    (forall fuel,
       (Z.to_nat width * Z.to_nat height + 3 <= fuel)%nat ->
       floodFill data width height target tol fuel seed = Some region) /\
    (forall fuel region',
       floodFill data width height target tol fuel seed = Some region' ->
       region' = region).
Proof.
  intros data width height target tol seed.
  destruct (floodFill_total data width height target tol seed)
    as [region Hregion].
  exists region. split; [exact Hregion|].
  intros fuel region' Hrun.
  set (bound := (Z.to_nat width * Z.to_nat height + 3)%nat) in *.
  assert (H1 : floodFill data width height target tol (Nat.max fuel bound) seed
               = Some region') by
    (apply (floodFill_fuel_mono _ _ _ _ _ _ fuel); [lia | exact Hrun]).
  assert (H2 : floodFill data width height target tol (Nat.max fuel bound) seed
               = Some region) by (apply Hregion; lia).
  congruence.
Qed.

Lemma floodFill_terminates_witness :
  (Z.to_nat 5 * Z.to_nat 5 + 3 <= 28)%nat /\
  exists region,
    floodFill cornerFrame 5 5 (0, 0, 0)%Z 1 28 (2, 2)%Z = Some region.
Proof.
  assert (H : (Z.to_nat 5 * Z.to_nat 5 + 3 <= 28)%nat) by (simpl; lia).
  split; [exact H|].
  destruct (floodFill_terminates cornerFrame 5 5 (0, 0, 0)%Z 1 (2, 2)%Z)
    as [region [Hr _]].
  exists region. exact (Hr 28%nat H).
Defined.

(** Whatever [floodFill] returns holds no pixel twice, only pixels that
    match the target within tolerance, and with each pixel all of its four
    neighbours that lie in the frame and match.  A matching seed is the
    first pixel of the region; when the seed lies in the frame or does not
    match, the whole region lies in the frame. *)
Theorem floodFill_region :
  forall (data : list Z) (width height : Z) (target : Z * Z * Z) (tol : Z)
         (fuel : nat) (seed : Pixel) (region : list Pixel),
  floodFill data width height target tol fuel seed = Some region ->
  NoDup region /\
  (forall p, In p region -> pixelMatches data width target tol p = true) /\
  (forall p n, In p region -> In n (neighbors p) ->
     pixelInFrame width height n = true ->
     pixelMatches data width target tol n = true -> In n region) /\
  (pixelMatches data width target tol seed = true ->
   first_ region = Some seed) /\
  (pixelInFrame width height seed = true
   \/ pixelMatches data width target tol seed = false ->
   forall p, In p region -> pixelInFrame width height p = true).
Proof.
  intros data width height target tol fuel seed region Hrun.
  destruct (floodFill_start data width height target tol fuel seed)
    as (v0 & q0 & Heq & _ & Hnd & Hvq & Hv0 & Hseed).
  rewrite Heq in Hrun.
  destruct (bfs_result data width height target tol fuel v0 q0 region Hrun)
    as ((news & -> & Hall) & Hnd' & Hinv).
  rewrite Forall_forall in Hall.
  split; [auto|]. split; [|split; [|split]].
  - intros p Hp. apply in_app_iff in Hp. destruct Hp as [Hp|Hp].
    + now apply Hv0.
    + now apply Hall.
  - intros p n Hp Hn Hfr Hm.
    apply (Hinv (fun p0 Hp0 => or_introl (Hvq p0 Hp0)) p Hp n Hn Hfr Hm).
  - intros Hm. rewrite (Hseed Hm). reflexivity.
  - intros Hcase p Hp. apply in_app_iff in Hp. destruct Hp as [Hp|Hp].
    + destruct (pixelMatches data width target tol seed) eqn:Em.
      * rewrite (Hseed eq_refl) in Hp. destruct Hp as [<-|[]].
        destruct Hcase as [H|H]; [exact H | discriminate].
      * now apply Hv0.
    + now apply Hall.
Qed.

Lemma floodFill_region_witness :
  floodFill cornerFrame 5 5 (255, 0, 0)%Z 1 28 (4, 4)%Z = Some [(4, 4)%Z] /\
  first_ [(4, 4)%Z] = Some (4, 4)%Z.
Proof.
  assert (H : floodFill cornerFrame 5 5 (255, 0, 0)%Z 1 28 (4, 4)%Z
              = Some [(4, 4)%Z]) by (vm_compute; reflexivity).
  split; [exact H|].
  apply (proj1 (proj2 (proj2 (proj2
           (floodFill_region cornerFrame 5 5 (255, 0, 0)%Z 1 28 (4, 4)%Z
              [(4, 4)%Z] H))))).
  vm_compute. reflexivity.
Defined.

End FillTheorems.

(** * Subsequences, simplification and hull chains *)

Section SubseqFacts.

Context {A : Type}.
Implicit Types l r : list A.

Lemma Subseq_nil_l l : Subseq [] l.
Proof. induction l; constructor; assumption. Qed.

Lemma Subseq_refl l : Subseq l l.
Proof. induction l; constructor; assumption. Qed.

Lemma Subseq_length r l : Subseq r l -> (length r <= length l)%nat.
Proof. induction 1; simpl; lia. Qed.

Lemma Subseq_In r l x : Subseq r l -> In x r -> In x l.
Proof.
  induction 1 as [|y r l _ IH|y r l _ IH]; simpl; auto.
  intros [->|H]; auto.
Qed.

Lemma Subseq_app r1 l1 r2 l2 :
  Subseq r1 l1 -> Subseq r2 l2 -> Subseq (r1 ++ r2) (l1 ++ l2).
Proof.
  induction 1 as [|y r l _ IH|y r l _ IH]; simpl; intros H2.
  - exact H2.
  - apply Subseq_skip. now apply IH.
  - apply Subseq_keep. now apply IH.
Qed.

Lemma Subseq_trans r m l : Subseq r m -> Subseq m l -> Subseq r l.
Proof.
  intros H1 H2. revert r H1.
  induction H2 as [|y m l _ IH|y m l _ IH]; intros r H1.
  - exact H1.
  - apply Subseq_skip. now apply IH.
  - inversion H1; subst; [apply Subseq_skip | apply Subseq_keep]; now apply IH.
Qed.

Lemma Subseq_snoc_inv l : forall r x y,
  Subseq (r ++ [x]) (l ++ [y]) -> Subseq r l.
Proof.
  induction l as [|a l IH]; intros r x y H.
  - apply Subseq_length in H. rewrite length_app in H. simpl in H.
    destruct r; [constructor | simpl in H; lia].
  - simpl in H. inversion H as [|? ? ? H'|? r0 ? H' E]; subst.
    + apply Subseq_skip. eapply IH. exact H'.
    + destruct r as [|b r]; [apply Subseq_nil_l|].
      simpl in E. injection E as -> ->. apply Subseq_keep. eapply IH. exact H'.
Qed.

Lemma Subseq_firstn k l : Subseq (firstn k l) l.
Proof.
  rewrite <- (firstn_skipn k l) at 2.
  rewrite <- (app_nil_r (firstn k l)) at 1.
  apply Subseq_app; [apply Subseq_refl | apply Subseq_nil_l].
Qed.

Lemma Subseq_ends (d : A) l :
  (2 <= length l)%nat -> Subseq [nth 0 l d; nth (length l - 1) l d] l.
Proof.
  destruct l as [|a t]; simpl; [lia|]. intros H. apply Subseq_keep.
  rewrite Nat.sub_0_r.
  assert (Ht : t <> []) by (destruct t; simpl in *; [lia | discriminate]).
  clear H. induction t as [|b t IH]; [congruence|].
  destruct t as [|c t].
  - simpl. apply Subseq_keep, Subseq_nil.
  - simpl length. cbn [nth]. apply Subseq_skip. apply IH. discriminate.
Qed.

Lemma Subseq_NoDup r l : Subseq r l -> NoDup l -> NoDup r.
Proof.
  induction 1 as [|y r l Hs IH|y r l Hs IH]; intros Hnd.
  - constructor.
  - inversion Hnd; auto.
  - inversion Hnd as [|? ? Hn Hd]; subst. apply NoDup_cons; auto.
    intros Hin. apply Hn. eapply Subseq_In; eauto.
Qed.

End SubseqFacts.

Section RDPMore.

Local Open Scope R_scope.

Variable dist : Point -> Point -> Point -> R.

Lemma dropLast_snoc {A : Type} (r : list A) (x : A) : dropLast (r ++ [x]) = r.
Proof.
  unfold dropLast, slice. rewrite length_app. simpl length.
  replace (length r + 1 - 1 - 0)%nat with (length r) by lia.
  cbn [skipn]. rewrite firstn_app, Nat.sub_diag, firstn_all. cbn [firstn].
  apply app_nil_r.
Qed.

Lemma last_snoc {A : Type} (r : list A) (x : A) : last_ (r ++ [x]) = Some x.
Proof.
  unfold last_. rewrite length_app. simpl length.
  rewrite nth_error_app2 by lia.
  now replace (length r + 1 - 1 - length r)%nat with 0%nat by lia.
Qed.

(** [simplifyRDP] only leaves points out: its result is the input with
    some points removed, in the same order. *)
Lemma simplifyRDP_subseq fuel : forall points epsilon res,
  Kernel.simplifyRDP dist fuel points epsilon = Some res ->
  Subseq res points.
Proof.
  induction fuel as [|fuel IH]; intros points epsilon res;
    rewrite simplifyRDP_unfold;
    destruct (Nat.ltb_spec (length points) 3) as [Hlt|Hge];
    try (intros [= <-]; apply Subseq_refl); try discriminate.
  cbv zeta.
  pose proof (split_index_le dist points Hge) as Hidx.
  destruct (Kernel.farthest dist points) as [index dmax]. simpl in Hidx.
  destruct (JS.ltb epsilon dmax).
  - destruct (Kernel.simplifyRDP dist fuel (slice 0 _ _) _) as [res1|] eqn:E1;
      [|discriminate].
    destruct (Kernel.simplifyRDP dist fuel (slice index _ _) _) as [res2|] eqn:E2;
      [|discriminate].
    intros [= <-].
    pose proof (simplifyRDP_endpoints dist fuel _ _ _ E1) as (_ & L1 & _).
    apply IH in E1. apply IH in E2.
    rewrite slice_suffix in E2. rewrite slice_prefix in E1, L1.
    rewrite <- (firstn_skipn index points) at 1.
    apply Subseq_app; [|exact E2].
    assert (Hsplit : firstn (index + 1) points
                     = firstn index points ++ [nth index points Kernel.origin]).
    { rewrite <- (firstn_skipn index points) at 1.
      rewrite firstn_app, length_firstn.
      replace (index + 1 - Nat.min index (length points))%nat with 1%nat by lia.
      rewrite (firstn_all2 (n := index + 1)) by (rewrite length_firstn; lia).
      f_equal. rewrite <- (firstn_skipn index points) at 2.
      rewrite app_nth2 by (rewrite length_firstn; lia).
      rewrite length_firstn.
      replace (index - Nat.min index (length points))%nat with 0%nat by lia.
      destruct (skipn index points) as [|x t] eqn:Es; [|reflexivity].
      apply (f_equal (@length _)) in Es. rewrite length_skipn in Es.
      simpl in Es. lia. }
    rewrite Hsplit in E1, L1. rewrite last_snoc in L1.
    destruct (exists_last (l := res1)) as (r & x & ->).
    { intros ->. discriminate. }
    rewrite dropLast_snoc. eapply Subseq_snoc_inv. exact E1.
  - intros [= <-]. apply Subseq_ends. lia.
Qed.

End RDPMore.

Section RDPAgree.

Local Open Scope R_scope.

(** On a chord of positive length the two distance helpers agree. *)
Lemma distances_agree (p a b : Point) :
  a <> b -> ColorAlgorithm.perpDist p a b = AIColorAlgorithm.chordDistance p a b.
Proof.
  intros Hab.
  assert (Hne : px b - px a <> 0 \/ py b - py a <> 0).
  { destruct (Req_dec (px b - px a) 0) as [Hx|Hx]; [|now left].
    destruct (Req_dec (py b - py a) 0) as [Hy|Hy]; [|now right].
    exfalso. apply Hab. destruct a as [ax ay], b as [bx0 by0].
    cbn [px py] in *. f_equal; lra. }
  unfold ColorAlgorithm.perpDist, AIColorAlgorithm.chordDistance,
    AIColorAlgorithm.perpendicularDistance. cbv zeta.
  assert (Hsq : JS.sqrtPow2 (px a - px b) (py a - py b)
                = JS.hypot (px b - px a) (py b - py a)).
  { unfold JS.sqrtPow2, JS.hypot. f_equal. ring. }
  rewrite Hsq.
  assert (Hpos : 0 < JS.hypot (px b - px a) (py b - py a)).
  { unfold JS.hypot. apply sqrt_lt_R0.
    pose proof (Rle_0_sqr (px b - px a)) as Hx.
    pose proof (Rle_0_sqr (py b - py a)) as Hy.
    destruct Hne as [H|H]; apply Rsqr_pos_lt in H; unfold Rsqr in *; lra. }
  assert (JS.eqb (px b - px a) 0 && JS.eqb (py b - py a) 0 = false) as ->.
  { apply andb_false_iff. destruct Hne as [H|H]; [left | right];
      (destruct (JS.eqb _ 0) eqn:E; [apply eqb_true in E; contradiction
                                    | reflexivity]). }
  assert (JS.eqb (JS.hypot (px b - px a) (py b - py a)) 0 = false) as ->.
  { destruct (JS.eqb _ 0) eqn:E; [apply eqb_true in E; lra | reflexivity]. }
  rewrite Rabs_mult, (Rabs_pos_eq 0.5) by lra.
  match goal with |- Rabs ?u / _ = 0.5 * Rabs ?w / _ * 2 =>
    replace w with (- u) by ring end.
  rewrite Rabs_Ropp. replace 0.5 with (/ 2) by lra. field. lra.
Qed.

Lemma farthest_ext (d1 d2 : Point -> Point -> Point -> R) (points : list Point) :
  (forall p, d1 p (nth 0 points Kernel.origin)
                  (nth (length points - 1) points Kernel.origin)
           = d2 p (nth 0 points Kernel.origin)
                  (nth (length points - 1) points Kernel.origin)) ->
  Kernel.farthest d1 points = Kernel.farthest d2 points.
Proof.
  intros H. unfold Kernel.farthest.
  generalize (0%nat, 0). 
  induction (seq 1 (length points - 1 - 1)) as [|i idxs IH]; intros acc;
    [reflexivity|].
  cbn [fold_left]. rewrite H. apply IH.
Qed.

Lemma NoDup_firstn {A : Type} k (l : list A) : NoDup l -> NoDup (firstn k l).
Proof.
  intros H. rewrite <- (firstn_skipn k l) in H.
  now apply NoDup_app_remove_r in H.
Qed.

Lemma NoDup_skipn {A : Type} k (l : list A) : NoDup l -> NoDup (skipn k l).
Proof.
  intros H. rewrite <- (firstn_skipn k l) in H.
  now apply NoDup_app_remove_l in H.
Qed.

Lemma simplifyRDP_ext (d1 d2 : Point -> Point -> Point -> R) fuel :
  (forall p a b, a <> b -> d1 p a b = d2 p a b) ->
  forall points epsilon, NoDup points ->
  Kernel.simplifyRDP d1 fuel points epsilon
  = Kernel.simplifyRDP d2 fuel points epsilon.
Proof.
  intros Hd. induction fuel as [|fuel IH]; intros points epsilon Hnd;
    rewrite !(simplifyRDP_unfold _ _ points);
    destruct (Nat.ltb_spec (length points) 3) as [Hlt|Hge]; try reflexivity.
  cbv zeta.
  rewrite (farthest_ext d1 d2 points).
  - destruct (Kernel.farthest d2 points) as [index dmax].
    destruct (JS.ltb epsilon dmax); [|reflexivity].
    unfold slice.
    rewrite !IH by (apply NoDup_firstn; now apply NoDup_skipn).
    reflexivity.
  - intros p. apply Hd. intros E.
    apply (proj1 (NoDup_nth points Kernel.origin)) in E; [lia | exact Hnd | lia | lia].
Qed.

End RDPAgree.
Section ChainFacts.

Local Open Scope R_scope.

Lemma stackTurns_tail c t : stackTurns (c :: t) -> stackTurns t.
Proof. destruct t as [|b [|a t]]; simpl; tauto. Qed.

Lemma popWhile_spec (stack : list Point) (p : Point) :
  stackTurns stack ->
  stackTurns (p :: Kernel.popWhile stack p) /\
  (forall x, In x (Kernel.popWhile stack p) -> In x stack) /\
  (stack <> [] -> Kernel.popWhile stack p <> []) /\
  last (Kernel.popWhile stack p) p = last stack p.
Proof.
  induction stack as [|b t IH]; intros Hs.
  - simpl. repeat split; auto.
  - destruct t as [|a t'].
    + simpl. repeat split; auto; discriminate.
    + cbn [Kernel.popWhile]. destruct (JS.leb (Kernel.cross a b p) 0) eqn:E.
      * destruct (IH (stackTurns_tail _ _ Hs)) as (H1 & H2 & H3 & H4).
        split; [exact H1|]. split; [intros x Hx; right; now apply H2|].
        split; [intros _; apply H3; discriminate|].
        etransitivity; [exact H4 | reflexivity].
      * apply leb_false in E. split; [simpl; split; [exact E | exact Hs]|].
        split; [auto|]. split; [discriminate | reflexivity].
Qed.

Lemma stack_fold (pts : list Point) : forall stack,
  stackTurns stack ->
  let s := fold_left Kernel.pushPoint pts stack in
  stackTurns s /\
  (forall x, In x s -> In x stack \/ In x pts) /\
  (forall d, pts <> [] -> hd d s = last pts d) /\
  (forall d, stack <> [] -> last s d = last stack d) /\
  (forall d, stack = [] -> last s d = hd d pts) /\
  (2 <= length stack + length pts -> stack <> [] \/ 2 <= length pts ->
   2 <= length s)%nat.
Proof.
  induction pts as [|p pts IH]; intros stack Hs; cbn [fold_left].
  - cbv zeta. split; [exact Hs|]. split; [auto|]. split; [congruence|].
    split; [auto|]. split; [intros d ->; reflexivity|].
    intros H [Hne|H2]; simpl in *; lia.
  - destruct (popWhile_spec stack p Hs) as (Hp1 & Hp2 & Hp3 & Hp4).
    specialize (IH (Kernel.pushPoint stack p) Hp1). cbv zeta in IH.
    destruct IH as (I1 & I2 & I3 & I4 & I5 & I6).
    cbv zeta. split; [exact I1|]. split; [|split; [|split; [|split]]].
    + intros x Hx. destruct (I2 x Hx) as [[<-|H]|H].
      * right. now left.
      * left. now apply Hp2.
      * right. now right.
    + intros d _. destruct pts as [|q pts'].
      * reflexivity.
      * rewrite (I3 d) by discriminate. reflexivity.
    + intros d Hne. rewrite (I4 d) by discriminate.
      unfold Kernel.pushPoint.
      destruct (Kernel.popWhile stack p) as [|x t] eqn:Ep.
      * exfalso. now apply Hp3.
      * change (last (p :: x :: t) d) with (last (x :: t) d).
        assert (Hd : forall l (d1 d2 : Point), l <> [] -> last l d1 = last l d2).
        { induction l as [|y l IHl]; intros d1 d2 Hl; [congruence|].
          destruct l; [reflexivity|]. apply IHl. discriminate. }
        transitivity (last (x :: t) p); [apply Hd; discriminate|].
        rewrite Hp4. apply Hd. exact Hne.
    + intros d ->. rewrite (I4 d) by discriminate. reflexivity.
    + intros Hlen Hcase. apply I6.
      * unfold Kernel.pushPoint. simpl length.
        destruct stack as [|x t].
        -- destruct Hcase as [H|H]; [congruence|]. simpl in *. lia.
        -- assert (Kernel.popWhile (x :: t) p <> []) by (apply Hp3; discriminate).
           destruct (Kernel.popWhile (x :: t) p); [congruence|]. simpl. lia.
      * left. discriminate.
Qed.

Lemma leftTurns_snoc (l : list Point) : forall a b c,
  leftTurns (l ++ [a; b]) -> 0 < Kernel.cross a b c ->
  leftTurns (l ++ [a; b; c]).
Proof.
  induction l as [|x l IH]; intros a b c Hl Hc.
  - simpl. tauto.
  - destruct l as [|y l].
    + simpl in *. tauto.
    + destruct l as [|z l].
      * simpl in *. tauto.
      * specialize (IH a b c).
        change (leftTurns (x :: y :: z :: l ++ [a; b; c]))
          with (0 < Kernel.cross x y z /\ leftTurns ((y :: z :: l) ++ [a; b; c])).
        change (leftTurns ((x :: y :: z :: l) ++ [a; b]))
          with (0 < Kernel.cross x y z /\ leftTurns ((y :: z :: l) ++ [a; b]))
          in Hl.
        destruct Hl as [H1 H2]. split; [exact H1 | now apply IH].
Qed.

Lemma stackTurns_rev (s : list Point) : stackTurns s -> leftTurns (rev s).
Proof.
  induction s as [|c t IH]; intros Hs; [exact I|].
  destruct t as [|b [|a t']].
  - exact I.
  - simpl. exact I.
  - destruct Hs as [Hc Ht]. specialize (IH Ht).
    change (rev (c :: b :: a :: t')) with (((rev t' ++ [a]) ++ [b]) ++ [c]).
    change (rev (b :: a :: t')) with ((rev t' ++ [a]) ++ [b]) in IH.
    rewrite <- !app_assoc in *. cbn [app] in *. now apply leftTurns_snoc.
Qed.

(** One chain: made of input points, in strict left turns, from the first
    point it was given to the last. *)
Lemma chain_spec (pts : list Point) :
  leftTurns (Kernel.chain pts) /\
  (forall x, In x (Kernel.chain pts) -> In x pts) /\
  (forall d, hd d (Kernel.chain pts) = hd d pts) /\
  ((2 <= length pts)%nat -> (2 <= length (Kernel.chain pts))%nat).
Proof.
  unfold Kernel.chain.
  destruct (stack_fold pts [] I) as (H1 & H2 & _ & _ & H5 & H6).
  cbv zeta in *. split; [now apply stackTurns_rev|].
  split; [|split].
  - intros x Hx. apply in_rev in Hx. destruct (H2 x Hx) as [[]|H]. exact H.
  - intros d. rewrite <- (H5 d eq_refl).
    destruct (fold_left Kernel.pushPoint pts []) as [|x t] using rev_ind;
      [reflexivity|].
    rewrite rev_app_distr, last_last. reflexivity.
  - intros Hlen. rewrite length_rev. apply H6; simpl; [lia | now right].
Qed.

End ChainFacts.
Section HullMore.

Local Open Scope R_scope.

Lemma removelast_In {A : Type} (l : list A) x : In x (removelast l) -> In x l.
Proof.
  induction l as [|a l IH]; [auto|]. destruct l as [|b l]; [intros []|].
  intros [<-|H]; [now left | right; now apply IH].
Qed.

Lemma removelast_hd {A : Type} (l : list A) (d : A) :
  (2 <= length l)%nat -> first_ (removelast l) = Some (hd d l).
Proof. destruct l as [|a [|b l]]; simpl; try lia. reflexivity. Qed.

Lemma hd_rev {A : Type} (l : list A) (d : A) :
  hd d (rev l) = nth (length l - 1) l d.
Proof.
  destruct l as [|a l] using rev_ind; [reflexivity|].
  rewrite rev_app_distr, length_app. simpl.
  rewrite app_nth2 by lia.
  now replace (length l + 1 - 1 - length l)%nat with 0%nat by lia.
Qed.

Lemma lexLe_refl a : lexLe a a.
Proof. unfold lexLe. lra. Qed.

(** The value [convexHull] returns, for a comparator that orders by x and
    then y. *)
Lemma hullValue_spec le points :
  (forall a b, le a b = true <-> lexLe a b) ->
  (forall p, In p (Kernel.hullValue le points) -> In p points) /\
  ((3 <= length points)%nat ->
   exists lo hi,
     first_ (Kernel.hullValue le points) = Some lo /\
     In hi (Kernel.hullValue le points) /\
     In lo points /\ In hi points /\
     forall x, In x points -> lexLe lo x /\ lexLe x hi).
Proof.
  intros Hle. destruct (sortBy_lex le points Hle) as [Hperm Hsorted].
  unfold Kernel.hullValue.
  destruct (Nat.ltb_spec (length points) 3) as [Hlt|Hge]; [split; [auto|lia]|].
  set (s := JS.sortBy le points) in *.
  assert (Hlen : length s = length points)
    by (symmetry; now apply Permutation_length).
  destruct (chain_spec s) as (_ & Hin1 & Hhd1 & Hlen1).
  destruct (chain_spec (rev s)) as (_ & Hin2 & Hhd2 & Hlen2).
  rewrite length_rev in Hlen2.
  assert (Hsub : forall p, In p (Kernel.hullOfSorted s) -> In p points).
  { intros p Hp. unfold Kernel.hullOfSorted in Hp.
    apply (Permutation_in _ (Permutation_sym Hperm)).
    apply in_app_iff in Hp. destruct Hp as [Hp|Hp]; apply removelast_In in Hp.
    - now apply Hin1.
    - apply Hin2 in Hp. now apply in_rev. }
  split; [exact Hsub|]. intros _.
  assert (Hne : s <> []) by (intros E; rewrite E in Hlen; simpl in Hlen; lia).
  exists (nth 0 s Kernel.origin), (nth (length s - 1) s Kernel.origin).
  assert (Hfirst : first_ (Kernel.hullOfSorted s) = Some (nth 0 s Kernel.origin)).
  { unfold Kernel.hullOfSorted.
    pose proof (removelast_hd (Kernel.chain s) Kernel.origin ltac:(lia)) as H.
    rewrite Hhd1 in H.
    rewrite first_app by (intros E; rewrite E in H; discriminate).
    rewrite H. destruct s; [congruence | reflexivity]. }
  assert (Hhi : In (nth (length s - 1) s Kernel.origin) (Kernel.hullOfSorted s)).
  { unfold Kernel.hullOfSorted. apply in_app_iff. right.
    pose proof (removelast_hd (Kernel.chain (rev s)) Kernel.origin ltac:(lia))
      as H.
    rewrite Hhd2, hd_rev in H.
    destruct (removelast (Kernel.chain (rev s))) as [|a t]; [discriminate|].
    injection H as ->. now left. }
  split; [exact Hfirst|]. split; [exact Hhi|].
  split; [apply (Permutation_in _ (Permutation_sym Hperm)); apply nth_In; lia|].
  split; [apply (Permutation_in _ (Permutation_sym Hperm)); apply nth_In; lia|].
  intros x Hx. apply (Permutation_in _ Hperm) in Hx.
  exact (sorted_first_last lexLe Kernel.origin s lexLe_refl Hsorted Hne x Hx).
Qed.

(** [convexHull] never invents a vertex: every point of the returned hull
    is an input point.  On three or more points the hull starts at the
    lexicographically smallest input point (by x, then y) and contains the
    largest one.  The array that the call returns holds exactly the value
    [hullValue] of the argument's old contents. *)
Theorem convexHull_vertices_are_input_points :
  forall (le : Point -> Point -> bool) (points : list Point),
  le = ColorAlgorithm.sortLe \/ le = AIColorAlgorithm.sortLe ->
  (forall p, In p (Kernel.hullValue le points) -> In p points) /\
  ((3 <= length points)%nat ->
   exists lo hi,
     first_ (Kernel.hullValue le points) = Some lo /\
     In hi (Kernel.hullValue le points) /\
     In lo points /\ In hi points /\
     forall x, In x points -> lexLe lo x /\ lexLe x hi) /\
  (forall (h : Heap.t) (r : Heap.ref),
     (r < length h)%nat -> Heap.get h r = points ->
     Heap.get (fst (Kernel.convexHull le h r)) (snd (Kernel.convexHull le h r))
     = Kernel.hullValue le points).
Proof.
  intros le points Hle.
  assert (Hlex : forall a b, le a b = true <-> lexLe a b).
  { destruct Hle as [-> | ->]; [apply logic_sortLe_lex | apply ai_sortLe_lex]. }
  destruct (hullValue_spec le points Hlex) as [H1 H2].
  split; [exact H1|]. split; [exact H2|].
  intros h r Hr Hget.
  destruct (Nat.lt_ge_cases (length points) 3) as [Hlt|Hge].
  - unfold Kernel.convexHull, Kernel.hullValue. rewrite Hget.
    destruct (Nat.ltb_spec (length points) 3); [|lia]. exact Hget.
  - rewrite <- Hget in Hge.
    destruct (convexHull_store le h r Hr Hge) as (_ & _ & Hhull & _).
    rewrite Hhull, Hget. unfold Kernel.hullValue.
    rewrite <- Hget in *. destruct (Nat.ltb_spec (length (Heap.get h r)) 3);
      [lia | reflexivity].
Qed.

Lemma convexHull_vertices_are_input_points_witness :
  (3 <= length triangle)%nat /\
  exists lo hi,
    first_ (Kernel.hullValue ColorAlgorithm.sortLe triangle) = Some lo /\
    In hi (Kernel.hullValue ColorAlgorithm.sortLe triangle) /\
    In lo triangle /\ In hi triangle /\
    forall x, In x triangle -> lexLe lo x /\ lexLe x hi.
Proof.
  assert (H3 : (3 <= length triangle)%nat) by (simpl; lia).
  split; [exact H3|].
  exact (proj1 (proj2 (convexHull_vertices_are_input_points
           ColorAlgorithm.sortLe triangle (or_introl eq_refl))) H3).
Defined.

End HullMore.

(** * ColorAlgorithm: the contour and the seeded pipeline *)

Section ContourFacts.

Import ColorAlgorithm Contour.
Local Open Scope Z_scope.

Lemma Subseq_filter {A : Type} (f : A -> bool) (l : list A) :
  Subseq (filter f l) l.
Proof.
  induction l as [|a l IH]; simpl; [constructor|].
  destruct (f a); [now apply Subseq_keep | now apply Subseq_skip].
Qed.

Lemma min_column (l : list Pixel) :
  l <> [] -> exists p, In p l /\ forall q, In q l -> fst p <= fst q.
Proof.
  induction l as [|a l IH]; [congruence|]. intros _.
  destruct l as [|b l].
  - exists a. split; [now left|]. intros q [<-|[]]. lia.
  - destruct (IH ltac:(discriminate)) as (p & Hp & Hmin).
    destruct (Z.le_gt_cases (fst a) (fst p)).
    + exists a. split; [now left|]. intros q [<-|Hq]; [lia|].
      specialize (Hmin q Hq). lia.
    + exists p. split; [now right|]. intros q [<-|Hq]; [lia|]. now apply Hmin.
Qed.

Lemma isBoundary_iff (visited : list Pixel) (width height : Z) (p : Pixel) :
  isBoundary visited width height p = true <->
  exists n, In n (neighbors p) /\
            (pixelInFrame width height n = false \/ ~ In n visited).
Proof.
  unfold isBoundary. rewrite existsb_exists. destruct p as [x y].
  cbn [fst snd neighbors].
  assert (Hout : forall nx ny,
    (nx <? 0) || (width <=? nx) || (ny <? 0) || (height <=? ny)
    || negb (has visited (nx, ny)) = true <->
    pixelInFrame width height (nx, ny) = false \/ ~ In (nx, ny) visited).
  { intros nx ny. unfold pixelInFrame, inBounds. cbn [fst snd].
    rewrite <- has_false.
    destruct (has visited (nx, ny)); cbn [negb];
      destruct (Z.ltb_spec nx 0), (Z.leb_spec width nx), (Z.ltb_spec ny 0),
        (Z.leb_spec height ny), (Z.leb_spec 0 nx), (Z.ltb_spec nx width),
        (Z.leb_spec 0 ny), (Z.ltb_spec ny height); cbn; try lia;
      intuition congruence. }
  split.
  - intros (d & Hd & H). apply Hout in H. unfold dirs in Hd. simpl in Hd.
    destruct Hd as [<-|[<-|[<-|[<-|[]]]]]; cbn [fst snd] in H;
      eexists; (split; [|exact H]); simpl.
    + left. f_equal; lia.
    + right; right; right; left. f_equal; lia.
    + right; left. f_equal; lia.
    + right; right; left. f_equal; lia.
  - intros (n & Hn & H). simpl in Hn.
    destruct Hn as [<-|[<-|[<-|[<-|[]]]]].
    + exists (0, -1). split; [simpl; auto|]. cbn [fst snd].
      replace (y + -1) with (y - 1) by lia. replace (x + 0) with x by lia.
      now apply Hout.
    + exists (0, 1). split; [simpl; auto|]. cbn [fst snd].
      replace (x + 0) with x by lia. now apply Hout.
    + exists (-1, 0). split; [simpl; auto|]. cbn [fst snd].
      replace (x + -1) with (x - 1) by lia. replace (y + 0) with y by lia.
      now apply Hout.
    + exists (1, 0). split; [simpl; auto|]. cbn [fst snd].
      replace (y + 0) with y by lia. now apply Hout.
Qed.

(** [traceContour] keeps, in insertion order, exactly the region pixels
    that have a four-neighbour outside the frame or outside the region,
    and a non-empty region always has such a pixel. *)
Theorem traceContour_boundary_pixels :
  forall (visited : list Pixel) (width height : Z),
  (forall p, In p (traceContour visited width height) <->
     In p visited /\
     exists n, In n (neighbors p) /\
               (pixelInFrame width height n = false \/ ~ In n visited)) /\
  Subseq (traceContour visited width height) visited /\
  (visited <> [] -> traceContour visited width height <> []).
Proof.
  intros visited width height. unfold traceContour.
  split; [|split].
  - intros p. rewrite filter_In, isBoundary_iff. reflexivity.
  - apply Subseq_filter.
  - intros Hne. destruct (min_column visited Hne) as (p & Hp & Hmin).
    assert (Hin : In p (filter (isBoundary visited width height) visited)).
    { apply filter_In. split; [exact Hp|]. apply isBoundary_iff.
      exists (fst p - 1, snd p). destruct p as [x y]. cbn [fst snd] in *.
      split; [simpl; auto|]. right. intros Hq.
      specialize (Hmin _ Hq). cbn [fst] in Hmin. lia. }
    intros E. rewrite E in Hin. exact Hin.
Qed.

Lemma traceContour_boundary_pixels_witness :
  [(4, 4)] <> ([] : list Pixel) /\ traceContour [(4, 4)] 5 5 <> [].
Proof.
  assert (H : [(4, 4)] <> ([] : list Pixel)) by discriminate.
  split; [exact H|].
  exact (proj2 (proj2 (traceContour_boundary_pixels [(4, 4)] 5 5)) H).
Defined.

End ContourFacts.

Section FindBoundaryFacts.

Import ColorAlgorithm Contour.
Local Open Scope R_scope.

Lemma hullValue_length le points :
  (3 <= length points)%nat -> (2 <= length (Kernel.hullValue le points))%nat.
Proof.
  intros H. unfold Kernel.hullValue.
  destruct (Nat.ltb_spec (length points) 3); [lia|].
  unfold Kernel.hullOfSorted. rewrite length_app.
  assert (Hs : (2 <= length (JS.sortBy le points))%nat).
  { rewrite <- (Permutation_length (sortBy_perm le points)). lia. }
  destruct (chain_spec (JS.sortBy le points)) as (_ & _ & _ & H1).
  destruct (chain_spec (rev (JS.sortBy le points))) as (_ & _ & _ & H2).
  rewrite length_rev in H2. specialize (H1 Hs). specialize (H2 Hs).
  assert (Hr : forall l : list Point, (2 <= length l)%nat ->
                 (1 <= length (removelast l))%nat).
  { intros [|a [|b l]]; simpl; lia. }
  specialize (Hr _ H1) as R1. specialize (Hr _ H2) as R2. lia.
Qed.

(** What [findBoundary] (services/logic) can answer.  It rejects with "no
    matching region" only when the rounded seed pixel itself does not
    match; a polygon it resolves with has at least two vertices, and each
    vertex is a pixel of the filled region: it matches the target within
    tolerance and has a four-neighbour outside the region or the frame.
    With [epsilon >= 0] the call always settles, and with the same outcome
    for every fuel that is large enough. *)
Theorem findBoundary_outcomes :
  forall (data : list Z) (width height : Z) (seedPoint : Point)
         (targetColor : Z * Z * Z) (tolerance : Z) (epsilon : R),
  let seed := (round (px seedPoint), round (py seedPoint)) in
  (forall fuel out,
     findBoundary fuel data width height seedPoint targetColor tolerance
       epsilon = Some out ->
     match out with
     | inl NoMatchingRegion =>
         pixelMatches data width targetColor tolerance seed = false
     | inl NoClosedRegion => True
     | inr polygon =>
         (2 <= length polygon)%nat /\
         forall v, In v polygon ->
           exists p region,
             v = toPoint p /\
             floodFill data width height targetColor tolerance fuel seed
             = Some region /\
             In p (traceContour region width height) /\
             pixelMatches data width targetColor tolerance p = true
     end) /\
  (0 <= epsilon ->
   exists out fuel0, forall fuel, (fuel0 <= fuel)%nat ->
     findBoundary fuel data width height seedPoint targetColor tolerance
       epsilon = Some out).
Proof.
  intros data width height seedPoint targetColor tolerance epsilon seed.
  split.
  - intros fuel out. unfold findBoundary. fold seed.
    destruct (floodFill data width height targetColor tolerance fuel seed)
      as [region|] eqn:Efill; [|discriminate].
    destruct (floodFill_sound _ _ _ _ _ _ _ _ Efill) as (Hmatch & Hseed).
    destruct (Nat.eqb_spec (length region) 0) as [Hz|Hnz].
    + intros [= <-].
      destruct (pixelMatches data width targetColor tolerance seed) eqn:Em;
        [|reflexivity].
      specialize (Hseed eq_refl).
      destruct region as [|p0 region0];
        [discriminate Hseed | discriminate Hz].
    + set (boundaryPixels := map toPoint (traceContour region width height)).
      destruct (Nat.ltb_spec (length boundaryPixels) 3) as [Hlt|Hge];
        [intros [= <-]; exact I|].
      set (hullPoints := Kernel.hullValue sortLe boundaryPixels).
      destruct (simplifyRDP fuel hullPoints epsilon) as [res|] eqn:Erdp;
        [|discriminate].
      intros [= <-]. unfold simplifyRDP in Erdp.
      pose proof (simplifyRDP_endpoints perpDist fuel hullPoints epsilon res
                    Erdp) as (_ & _ & Hlen).
      pose proof (simplifyRDP_subseq perpDist fuel hullPoints epsilon res Erdp)
        as Hsub.
      pose proof (hullValue_length sortLe boundaryPixels Hge) as Hhull.
      pose proof (proj1 (hullValue_spec sortLe boundaryPixels logic_sortLe_lex))
        as Hin.
      fold hullPoints in Hhull, Hin. clearbody hullPoints.
      split; [now apply Hlen|].
      intros v Hv. apply (Subseq_In res hullPoints v Hsub) in Hv.
      apply Hin in Hv. unfold boundaryPixels in Hv.
      apply in_map_iff in Hv. destruct Hv as (p & <- & Hp).
      exists p, region. split; [reflexivity|]. split; [reflexivity|].
      split; [exact Hp|]. apply Hmatch.
      unfold traceContour in Hp. apply filter_In in Hp. exact (proj1 Hp).
  - intros Heps.
    destruct (floodFill_total data width height targetColor tolerance seed)
      as [region Hregion].
    set (bound := (Z.to_nat width * Z.to_nat height + 3)%nat) in *.
    destruct (Nat.eqb_spec (length region) 0) as [Hz|Hnz].
    { exists (inl NoMatchingRegion), bound. intros fuel Hfuel.
      unfold findBoundary. fold seed. rewrite (Hregion fuel Hfuel).
      destruct (Nat.eqb_spec (length region) 0); [reflexivity | contradiction]. }
    set (boundaryPixels := map toPoint (traceContour region width height)).
    destruct (Nat.ltb_spec (length boundaryPixels) 3) as [Hlt|Hge].
    { exists (inl NoClosedRegion), bound. intros fuel Hfuel.
      unfold findBoundary. fold seed. rewrite (Hregion fuel Hfuel).
      destruct (Nat.eqb_spec (length region) 0); [contradiction|].
      fold boundaryPixels.
      destruct (Nat.ltb_spec (length boundaryPixels) 3); [reflexivity | lia]. }
    set (hullPoints := Kernel.hullValue sortLe boundaryPixels).
    destruct (simplifyRDP_returns perpDist (length hullPoints) hullPoints
                epsilon Heps) as [res Hres]; [lia|].
    exists (inr res), (Nat.max bound (length hullPoints)). intros fuel Hfuel.
    assert (Hb : (bound <= fuel)%nat) by lia.
    assert (Hh : (length hullPoints <= fuel)%nat) by lia.
    unfold findBoundary. fold seed. rewrite (Hregion fuel Hb).
    destruct (Nat.eqb_spec (length region) 0); [contradiction|].
    fold boundaryPixels.
    destruct (Nat.ltb_spec (length boundaryPixels) 3); [lia|].
    fold hullPoints. unfold simplifyRDP.
    rewrite (simplifyRDP_fuel_mono perpDist _ fuel _ _ _ Hh Hres).
    reflexivity.
Qed.

Lemma findBoundary_outcomes_witness :
  0 <= 1 /\
  exists out fuel0, forall fuel, (fuel0 <= fuel)%nat ->
    findBoundary fuel cornerFrame 5 5 (mkPoint 2 2) (0, 0, 0)%Z 1 1 = Some out.
Proof.
  assert (H : 0 <= 1) by lra.
  split; [exact H|].
  exact (proj2 (findBoundary_outcomes cornerFrame 5 5 (mkPoint 2 2)
                  (0, 0, 0)%Z 1 1) H).
Defined.

End FindBoundaryFacts.

(** * AIColorAlgorithm: mask edges, frame scan and seeded mode *)

Section MaskFacts.

Import AIColorAlgorithm.

(** Membership in the result of [extractEdgesFromMask]. *)
Lemma extractEdges_In (data : list Z) (width height : Z) (p : Point) :
  In p (extractEdgesFromMask data width height) <->
  exists x y : Z,
    p = mkPoint (IZR x) (IZR y) /\
    (1 <= x < width - 1)%Z /\ (1 <= y < height - 1)%Z /\
    on data (y * width + x) = true /\
    (on data ((y - 1) * width + x) = false \/
     on data ((y + 1) * width + x) = false \/
     on data (y * width + x - 1) = false \/
     on data (y * width + x + 1) = false).
Proof.
  unfold extractEdgesFromMask. cbv zeta. rewrite in_flat_map. split.
  - intros (y & Hy & Hp). apply range_In in Hy.
    apply in_flat_map in Hp. destruct Hp as (x & Hx & Hp).
    apply range_In in Hx.
    destruct (on data (y * width + x)) eqn:Eon; [|destruct Hp].
    destruct (negb (on data ((y - 1) * width + x))
              || negb (on data ((y + 1) * width + x))
              || negb (on data (y * width + x - 1))
              || negb (on data (y * width + x + 1))) eqn:Eoff;
      [|destruct Hp].
    destruct Hp as [<-|[]]. exists x, y.
    split; [reflexivity|]. split; [lia|]. split; [lia|]. split; [exact Eon|].
    rewrite !orb_true_iff, !negb_true_iff in Eoff. tauto.
  - intros (x & y & -> & Hx & Hy & Eon & Eoff).
    exists y. split; [apply range_In; lia|].
    apply in_flat_map. exists x. split; [apply range_In; lia|].
    rewrite Eon.
    assert (negb (on data ((y - 1) * width + x))
              || negb (on data ((y + 1) * width + x))
              || negb (on data (y * width + x - 1))
              || negb (on data (y * width + x + 1)) = true) as ->.
    { rewrite !orb_true_iff, !negb_true_iff. tauto. }
    now left.
Qed.

Lemma nil_iff {A : Type} (l : list A) : (forall x, ~ In x l) -> l = [].
Proof. destruct l as [|a l]; [auto|]. intros H. destruct (H a). now left. Qed.

Lemma on_nonzero (data : list Z) (i : Z) :
  Forall (fun v => v <> 0%Z) data ->
  (0 <= i < Z.of_nat (length data))%Z -> on data i = true.
Proof.
  intros Hall Hi. unfold on, JS.at_.
  destruct (Z.ltb_spec i 0); [lia|].
  destruct (nth_error data (Z.to_nat i)) as [v|] eqn:E.
  - apply nth_error_In in E. rewrite Forall_forall in Hall.
    apply Hall in E. apply negb_true_iff. now apply Z.eqb_neq.
  - apply nth_error_None in E. lia.
Qed.

Lemma on_zero (data : list Z) (i : Z) :
  Forall (fun v => v = 0%Z) data -> on data i = false.
Proof.
  intros Hall. unfold on, JS.at_. destruct (i <? 0)%Z; [reflexivity|].
  destruct (nth_error data (Z.to_nat i)) as [v|] eqn:E; [|reflexivity].
  apply nth_error_In in E. rewrite Forall_forall in Hall.
  rewrite (Hall v E). reflexivity.
Qed.

Lemma extractEdges_all_on (data : list Z) (width height : Z) :
  Forall (fun v => v <> 0%Z) data ->
  (width * height <= Z.of_nat (length data))%Z ->
  extractEdgesFromMask data width height = [].
Proof.
  intros Hall Hlen. apply nil_iff. intros p Hp.
  apply extractEdges_In in Hp.
  destruct Hp as (x & y & _ & Hx & Hy & _ & Hoff).
  assert (Hon : forall i, (0 <= i < width * height)%Z -> on data i = true).
  { intros i Hi. apply on_nonzero; [exact Hall | lia]. }
  assert (on data ((y - 1) * width + x) = true) by (apply Hon; nia).
  assert (on data ((y + 1) * width + x) = true) by (apply Hon; nia).
  assert (on data (y * width + x - 1) = true) by (apply Hon; nia).
  assert (on data (y * width + x + 1) = true) by (apply Hon; nia).
  destruct Hoff as [H'|[H'|[H'|H']]]; congruence.
Qed.

Lemma extractEdges_all_off (data : list Z) (width height : Z) :
  Forall (fun v => v = 0%Z) data ->
  extractEdgesFromMask data width height = [].
Proof.
  intros Hall. apply nil_iff. intros p Hp. apply extractEdges_In in Hp.
  destruct Hp as (x & y & _ & _ & _ & Hon & _).
  rewrite (on_zero data _ Hall) in Hon. discriminate.
Qed.

Lemma zeroMask_all_off : Forall (fun v => v = 0%Z) zeroMask.
Proof.
  unfold zeroMask. apply Forall_forall. intros v Hv.
  now apply repeat_spec in Hv.
Qed.

Lemma fullMask_all_on : Forall (fun v => v <> 0%Z) fullMask.
Proof.
  unfold fullMask. apply Forall_forall. intros v Hv.
  apply repeat_spec in Hv. now subst v.
Qed.

(** [extractEdgesFromMask] returns exactly the cells strictly inside the
    frame that are "on" and have an "off" cell above, below, left or right
    of them.  So a mask that is "on" everywhere has no edge at all, like a
    mask that is "off" everywhere; cells of the outermost ring are never
    returned. *)
Theorem extractEdgesFromMask_interior_edges :
  forall (data : list Z) (width height : Z),
  (forall p, In p (extractEdgesFromMask data width height) <->
     exists x y : Z,
       p = mkPoint (IZR x) (IZR y) /\
       (1 <= x < width - 1)%Z /\ (1 <= y < height - 1)%Z /\
       on data (y * width + x) = true /\
       (on data ((y - 1) * width + x) = false \/
        on data ((y + 1) * width + x) = false \/
        on data (y * width + x - 1) = false \/
        on data (y * width + x + 1) = false)) /\
  (Forall (fun v => v <> 0%Z) data ->
   (width * height <= Z.of_nat (length data))%Z ->
   extractEdgesFromMask data width height = []) /\
  (Forall (fun v => v = 0%Z) data ->
   extractEdgesFromMask data width height = []).
Proof.
  intros data width height. split; [apply extractEdges_In|]. split.
  - apply extractEdges_all_on.
  - apply extractEdges_all_off.
Qed.

Lemma extractEdgesFromMask_interior_edges_witness :
  Forall (fun v => v = 0%Z) zeroMask /\
  extractEdgesFromMask zeroMask MODEL_SIZE MODEL_SIZE = [].
Proof.
  split; [exact zeroMask_all_off|].
  exact (proj2 (proj2 (extractEdgesFromMask_interior_edges
                         zeroMask MODEL_SIZE MODEL_SIZE)) zeroMask_all_off).
Defined.

Local Open Scope R_scope.

Lemma onCount_all_on (maskData : list Z) :
  Forall (fun v => v <> 0%Z) maskData ->
  onCount maskData = Z.of_nat (length maskData).
Proof.
  intros H. unfold onCount. f_equal. induction H as [|v l Hv _ IH]; simpl.
  - reflexivity.
  - apply Z.eqb_neq in Hv. rewrite Hv. simpl. now rewrite IH.
Qed.

(** On a mask that is "on" in every cell of the 256x256 grid, [scanFrame]
    reports the area of the whole frame (rounded to a tenth) and an empty
    polygon: the edge extraction is called and finds nothing, and hull and
    simplify are not called. *)
Theorem scanFrame_full_mask_has_no_polygon :
  forall (fuel : nat) (maskData : list Z) (imgW imgH : Z),
  Forall (fun v => v <> 0%Z) maskData ->
  length maskData = Z.to_nat (MODEL_SIZE * MODEL_SIZE) ->
  scanFrame fuel maskData imgW imgH [] =
  Some (mkScan (JS.roundTenth (IZR (MODEL_SIZE * MODEL_SIZE)
                               * (IZR imgW / IZR MODEL_SIZE)
                               * (IZR imgH / IZR MODEL_SIZE))) [],
        [CallExtractEdges]).
Proof.
  intros fuel maskData imgW imgH Hall Hlen.
  assert (Hcount : onCount maskData = (MODEL_SIZE * MODEL_SIZE)%Z).
  { rewrite (onCount_all_on _ Hall), Hlen. unfold MODEL_SIZE. lia. }
  assert (Hedges : extractEdgesFromMask maskData MODEL_SIZE MODEL_SIZE = []).
  { apply extractEdges_all_on; [exact Hall|].
    rewrite Hlen. unfold MODEL_SIZE. lia. }
  unfold scanFrame. rewrite countWhite_onCount, Hcount.
  assert ((20 <? MODEL_SIZE * MODEL_SIZE)%Z = true) as -> by reflexivity.
  unfold bind, invoke, ret. rewrite Hedges. reflexivity.
Qed.

Lemma scanFrame_full_mask_has_no_polygon_witness :
  Forall (fun v => v <> 0%Z) fullMask /\
  length fullMask = Z.to_nat (MODEL_SIZE * MODEL_SIZE) /\
  scanFrame 0 fullMask 640 480 [] =
  Some (mkScan (JS.roundTenth (IZR (MODEL_SIZE * MODEL_SIZE)
                               * (IZR 640 / IZR MODEL_SIZE)
                               * (IZR 480 / IZR MODEL_SIZE))) [],
        [CallExtractEdges]).
Proof.
  assert (Hlen : length fullMask = Z.to_nat (MODEL_SIZE * MODEL_SIZE))
    by apply repeat_length.
  split; [exact fullMask_all_on|]. split; [exact Hlen|].
  exact (scanFrame_full_mask_has_no_polygon 0 fullMask 640 480
           fullMask_all_on Hlen).
Defined.

Lemma roundTenth_error x : Rabs (JS.roundTenth x - x) <= / 20.
Proof.
  unfold JS.roundTenth. destruct (Rlt_dec x 0) as [Hneg|Hpos].
  - pose proof (Zfloor_bound (- x * 10 + / 2)) as [H1 H2].
    apply Rabs_le. lra.
  - pose proof (Zfloor_bound (x * 10 + / 2)) as [H1 H2].
    apply Rabs_le. lra.
Qed.

Lemma roundTenth_nonneg x : 0 <= x -> 0 <= JS.roundTenth x.
Proof.
  intros Hx. unfold JS.roundTenth. destruct (Rlt_dec x 0); [lra|].
  assert (0 <= Zfloor (x * 10 + / 2))%Z by (apply Zfloor_lub; simpl; lra).
  apply IZR_le in H. lra.
Qed.

Lemma scanFrame_area fuel maskData imgW imgH log0 r log :
  scanFrame fuel maskData imgW imgH log0 = Some (r, log) ->
  area r = JS.roundTenth (IZR (onCount maskData)
                          * (IZR imgW / IZR MODEL_SIZE)
                          * (IZR imgH / IZR MODEL_SIZE)).
Proof.
  unfold scanFrame. rewrite countWhite_onCount. unfold bind at 1.
  match goal with |- context [match ?m log0 with _ => _ end] =>
    destruct (m log0) as [[pts log1]|] end; [|discriminate].
  unfold ret. intros [= <- _]. reflexivity.
Qed.

(** The [area] that [scanFrame] reports is a whole number of tenths, never
    further than 0.05 from the "on" count times [scaleX * scaleY], and not
    negative for a frame of non-negative width and height. *)
Theorem scanFrame_area_within_rounding :
  forall (fuel : nat) (maskData : list Z) (imgW imgH : Z)
         (r : ScanResult) (log : list Call),
  scanFrame fuel maskData imgW imgH [] = Some (r, log) ->
  Rabs (area r - IZR (onCount maskData) * (IZR imgW / IZR MODEL_SIZE)
                 * (IZR imgH / IZR MODEL_SIZE)) <= 0.05 /\
  (exists k : Z, area r = IZR k / 10) /\
  ((0 <= imgW)%Z -> (0 <= imgH)%Z -> 0 <= area r).
Proof.
  intros fuel maskData imgW imgH r log Hrun.
  rewrite (scanFrame_area _ _ _ _ _ _ _ Hrun).
  set (a := IZR (onCount maskData) * (IZR imgW / IZR MODEL_SIZE)
            * (IZR imgH / IZR MODEL_SIZE)).
  split; [|split].
  - pose proof (roundTenth_error a). lra.
  - unfold JS.roundTenth. destruct (Rlt_dec a 0).
    + exists (- Zfloor (- a * 10 + / 2))%Z. rewrite opp_IZR. lra.
    + exists (Zfloor (a * 10 + / 2)). reflexivity.
  - intros Hw Hh. apply roundTenth_nonneg. unfold a.
    assert (0 <= onCount maskData)%Z by (unfold onCount; lia).
    apply IZR_le in H, Hw, Hh. unfold MODEL_SIZE.
    apply Rmult_le_pos; [apply Rmult_le_pos|]; try lra;
      apply Rmult_le_pos; lra.
Qed.

Lemma scanFrame_area_within_rounding_witness :
  exists r log,
    scanFrame 0 onePixelMask 640 480 [] = Some (r, log) /\ 0 <= area r.
Proof.
  assert (Hsmall : (onCount onePixelMask <= 20)%Z)
    by (rewrite onCount_onePixelMask; lia).
  pose proof (scanFrame_small 0 onePixelMask 640 480 Hsmall) as Hrun.
  eexists. eexists. split; [exact Hrun|].
  apply (proj2 (proj2 (scanFrame_area_within_rounding _ _ _ _ _ _ Hrun)));
    lia.
Defined.

End MaskFacts.

Section SeededFacts.

Import AIColorAlgorithm.
Local Open Scope R_scope.

(** Seeded mask mode ([findBoundary] of AIColorAlgorithm): it throws
    exactly when the mask has no edge point; every vertex it returns is an
    edge point of the mask scaled back to the frame, taken from the points
    within half the model size of the scaled seed when more than ten of
    them exist and from all edge points otherwise; with [epsilon >= 0] the
    call always returns or throws. *)
Theorem seeded_findBoundary_outcomes :
  forall (maskData : list Z) (imgW imgH : Z) (seedPoint : Point) (epsilon : R),
  let scaleX := IZR imgW / IZR MODEL_SIZE in
  let scaleY := IZR imgH / IZR MODEL_SIZE in
  let scaledSeed := mkPoint (px seedPoint / scaleX) (py seedPoint / scaleY) in
  let edgePoints := extractEdgesFromMask maskData MODEL_SIZE MODEL_SIZE in
  let validPoints :=
    filter (fun p => JS.ltb (JS.sqrtPow2 (px p - px scaledSeed)
                                         (py p - py scaledSeed))
                            (IZR MODEL_SIZE / 2)) edgePoints in
  let finalPoints :=
    if (10 <? length validPoints)%nat then validPoints else edgePoints in
  (edgePoints = [] ->
   forall fuel,
     AISeeded.findBoundary fuel maskData imgW imgH seedPoint epsilon
     = Some None) /\
  (edgePoints <> [] ->
   forall fuel out,
     AISeeded.findBoundary fuel maskData imgW imgH seedPoint epsilon
     = Some out ->
     exists polygon, out = Some polygon /\
       forall v, In v polygon ->
         exists e, In e finalPoints /\ In e edgePoints /\
                   v = mkPoint (px e * scaleX) (py e * scaleY)) /\
  (0 <= epsilon ->
   exists out fuel0, forall fuel, (fuel0 <= fuel)%nat ->
     AISeeded.findBoundary fuel maskData imgW imgH seedPoint epsilon
     = Some out).
Proof.
  intros maskData imgW imgH seedPoint epsilon scaleX scaleY scaledSeed
    edgePoints validPoints finalPoints.
  assert (Hfinal : forall e, In e finalPoints -> In e edgePoints).
  { intros e He. unfold finalPoints in He.
    destruct (10 <? length validPoints)%nat; [|exact He].
    unfold validPoints in He. apply filter_In in He. exact (proj1 He). }
  set (hullPoints := Kernel.hullValue sortLe finalPoints).
  set (scaled := map (fun p => mkPoint (px p * scaleX) (py p * scaleY))
                     hullPoints).
  assert (Hunfold : forall fuel,
    AISeeded.findBoundary fuel maskData imgW imgH seedPoint epsilon =
    if (length edgePoints =? 0)%nat then Some None
    else match simplifyRDP fuel scaled epsilon with
         | None => None
         | Some res => Some (Some res)
         end) by reflexivity.
  split; [|split].
  - intros He fuel. rewrite Hunfold, He. reflexivity.
  - intros Hne fuel out. rewrite Hunfold.
    destruct (Nat.eqb_spec (length edgePoints) 0) as [Hz|_].
    { destruct edgePoints; [congruence | discriminate]. }
    destruct (simplifyRDP fuel scaled epsilon) as [res|] eqn:Erdp;
      [|discriminate].
    intros [= <-]. exists res. split; [reflexivity|].
    intros v Hv. unfold simplifyRDP in Erdp.
    apply (Subseq_In _ _ _ (simplifyRDP_subseq _ _ _ _ _ Erdp)) in Hv.
    unfold scaled in Hv. apply in_map_iff in Hv. destruct Hv as (e & <- & He).
    apply (proj1 (hullValue_spec sortLe finalPoints ai_sortLe_lex)) in He.
    exists e. split; [exact He|]. split; [exact (Hfinal e He) | reflexivity].
  - intros Heps.
    destruct (Nat.eqb_spec (length edgePoints) 0) as [Hz|Hnz].
    + exists None, 0%nat. intros fuel _. rewrite Hunfold.
      destruct (Nat.eqb_spec (length edgePoints) 0); [reflexivity | lia].
    + destruct (simplifyRDP_returns chordDistance (length scaled) scaled
                  epsilon Heps) as [res Hres]; [lia|].
      exists (Some res), (length scaled). intros fuel Hfuel.
      rewrite Hunfold.
      destruct (Nat.eqb_spec (length edgePoints) 0); [lia|].
      unfold simplifyRDP.
      rewrite (simplifyRDP_fuel_mono chordDistance _ fuel _ _ _ Hfuel Hres).
      reflexivity.
Qed.

Lemma seeded_findBoundary_outcomes_witness :
  extractEdgesFromMask zeroMask MODEL_SIZE MODEL_SIZE = [] /\
  AISeeded.findBoundary 0 zeroMask 640 480 (mkPoint 320 240) 1 = Some None.
Proof.
  assert (He : extractEdgesFromMask zeroMask MODEL_SIZE MODEL_SIZE = [])
    by (apply extractEdges_all_off, zeroMask_all_off).
  split; [exact He|].
  exact (proj1 (seeded_findBoundary_outcomes zeroMask 640 480
                  (mkPoint 320 240) 1) He 0%nat).
Defined.

End SeededFacts.

Section BucketFacts.

Local Open Scope R_scope.
Import Buckets.

(** [classifyArea] puts a number below 10000 in S, from 10000 and below
    90000 in M, from 90000 and below 400000 in L, and anything else in XL:
    from 400000 on, and also an area that does not parse.  A string is
    classified like the number it parses to. *)
Theorem classifyArea_buckets :
  forall (parseFloat : string -> option R) (area : string + R),
  let a := match area with inl s => parseFloat s | inr n => Some n end in
  match a with
  | None => classifyArea parseFloat area = bucketXL
  | Some x =>
      (x < 10000 <-> classifyArea parseFloat area = bucketS) /\
      (10000 <= x < 90000 <-> classifyArea parseFloat area = bucketM) /\
      (90000 <= x < 400000 <-> classifyArea parseFloat area = bucketL) /\
      (400000 <= x <-> classifyArea parseFloat area = bucketXL) /\
      classifyArea parseFloat area = classifyArea parseFloat (inr x)
  end.
Proof.
  intros parseFloat area a. unfold classifyArea. fold a.
  destruct a as [x|]; [|reflexivity]. unfold JS.ltb.
  destruct (Rlt_dec x 10000), (Rlt_dec x 90000), (Rlt_dec x 400000);
    try lra; (repeat split; intros; try lra; try discriminate; auto).
Qed.

End BucketFacts.

(** * SummaryManager statistics, the clock text and the two simplifiers *)

Section StatsMore.

Local Open Scope R_scope.
Import SummaryManager.

Variable parseFloat : string -> option R.

Lemma filter_perm {A : Type} (f : A -> bool) (l l' : list A) :
  Permutation l l' -> Permutation (filter f l) (filter f l').
Proof.
  induction 1 as [|x l l' _ IH|x y l|l l' l'' _ IH1 _ IH2]; simpl.
  - constructor.
  - destruct (f x); [now apply perm_skip | exact IH].
  - destruct (f x), (f y); try apply Permutation_refl. apply perm_swap.
  - eapply perm_trans; eassumption.
Qed.

Lemma validData_perm m m' :
  Permutation m m' ->
  Permutation (validData parseFloat m) (validData parseFloat m').
Proof. intros H. unfold validData. now apply filter_perm, Permutation_map. Qed.

(** The extreme areas of the sorted records bound every valid record. *)
Lemma extremes_bound m :
  (2 <= length (validData parseFloat m))%nat ->
  let lo := nth 0 (sorted parseFloat m) placeholder in
  let hi := nth (length (sorted parseFloat m) - 1) (sorted parseFloat m)
                placeholder in
  In lo (validData parseFloat m) /\ In hi (validData parseFloat m) /\
  forall x, In x (validData parseFloat m) ->
    parsedArea parseFloat lo <= parsedArea parseFloat x
    <= parsedArea parseFloat hi.
Proof.
  intros Hlen lo hi.
  pose proof (sorted_perm parseFloat m) as Hperm.
  assert (Hlen' : (2 <= length (sorted parseFloat m))%nat)
    by now rewrite <- (Permutation_length Hperm).
  assert (Hne : sorted parseFloat m <> []).
  { intros E. rewrite E in Hlen'. simpl in Hlen'. lia. }
  split; [|split].
  - apply (Permutation_in _ (Permutation_sym Hperm)). apply nth_In. lia.
  - apply (Permutation_in _ (Permutation_sym Hperm)). apply nth_In. lia.
  - intros x Hx. apply (Permutation_in _ Hperm) in Hx.
    exact (sorted_first_last _ placeholder _
             (fun a => Rle_refl (parsedArea parseFloat a))
             (sorted_ascending parseFloat m) Hne x Hx).
Qed.

Lemma extremes_perm m m' :
  Permutation m m' -> (2 <= length (validData parseFloat m))%nat ->
  parsedArea parseFloat (nth 0 (sorted parseFloat m) placeholder)
  = parsedArea parseFloat (nth 0 (sorted parseFloat m') placeholder) /\
  parsedArea parseFloat
    (nth (length (sorted parseFloat m) - 1) (sorted parseFloat m) placeholder)
  = parsedArea parseFloat
      (nth (length (sorted parseFloat m') - 1) (sorted parseFloat m')
           placeholder).
Proof.
  intros Hp Hlen. pose proof (validData_perm m m' Hp) as Hv.
  assert (Hlen' : (2 <= length (validData parseFloat m'))%nat)
    by now rewrite <- (Permutation_length Hv).
  destruct (extremes_bound m Hlen) as (Hlo & Hhi & Hb).
  destruct (extremes_bound m' Hlen') as (Hlo' & Hhi' & Hb').
  cbv zeta in *.
  pose proof (Hb _ (Permutation_in _ (Permutation_sym Hv) Hlo')).
  pose proof (Hb _ (Permutation_in _ (Permutation_sym Hv) Hhi')).
  pose proof (Hb' _ (Permutation_in _ Hv Hlo)).
  pose proof (Hb' _ (Permutation_in _ Hv Hhi)).
  split; lra.
Qed.

End StatsMore.

Section StatsTheorems.

Local Open Scope R_scope.
Import SummaryManager.

(** [calculateStats] is a min/max reduction: the obstruction percentage,
    the vote score and the error marker do not depend on the order of the
    entries of the map. *)
Theorem calculateStats_order_independent :
  forall (parseFloat : string -> option R)
         (m m' : list (R * AnnotationData)),
  Permutation m m' ->
  obstructionPercent (calculateStats parseFloat m)
  = obstructionPercent (calculateStats parseFloat m') /\
  voteScore (calculateStats parseFloat m)
  = voteScore (calculateStats parseFloat m') /\
  error (calculateStats parseFloat m) = error (calculateStats parseFloat m').
Proof.
  intros parseFloat m m' Hp.
  pose proof (validData_perm parseFloat m m' Hp) as Hv.
  pose proof (Permutation_length Hv) as Hl.
  destruct (Nat.lt_ge_cases (length (validData parseFloat m)) 2) as [Hlt|Hge].
  - rewrite (calculateStats_degenerate parseFloat m Hlt).
    rewrite (calculateStats_degenerate parseFloat m') by lia.
    cbv zeta. cbn [obstructionPercent voteScore error]. auto.
  - destruct (calculateStats_normal parseFloat m Hge) as [_ ->].
    destruct (calculateStats_normal parseFloat m') as [_ ->]; [lia|].
    destruct (extremes_perm parseFloat m m' Hp Hge) as [<- <-].
    cbn [obstructionPercent voteScore error]. auto.
Qed.

Lemma calculateStats_order_independent_witness :
  Permutation sampleMap (rev sampleMap) /\
  voteScore (calculateStats JS.parseFloat sampleMap)
  = voteScore (calculateStats JS.parseFloat (rev sampleMap)).
Proof.
  assert (H : Permutation sampleMap (rev sampleMap)) by apply Permutation_rev.
  split; [exact H|].
  exact (proj1 (proj2 (calculateStats_order_independent
                         JS.parseFloat sampleMap (rev sampleMap) H))).
Defined.

End StatsTheorems.

Section ClockFacts.

Import Clock.
Local Open Scope string_scope.

Lemma readInt_toString z : readInt (toString z) = Some z.
Proof.
  unfold readInt, toString.
  rewrite DecimalString.NilZero.isi.
  - simpl. now rewrite DecimalZ.of_to.
  - destruct z; simpl; try discriminate.
    intros [= E]. exact (DecimalPos.Unsigned.to_uint_nonnil p E).
  - destruct z; simpl; try discriminate.
    intros [= E]. exact (DecimalPos.Unsigned.to_uint_nonnil p E).
Qed.

Lemma seconds_field (s : Z) :
  (0 <= s < 60)%Z ->
  String.length (padStart2 (toString s)) = 2%nat /\
  readInt (padStart2 (toString s)) = Some s.
Proof.
  intros Hs.
  assert (Hall : forallb (fun k =>
            (String.length (padStart2 (toString k)) =? 2)%nat
            && match readInt (padStart2 (toString k)) with
               | Some v => (v =? k)%Z
               | None => false
               end) (JS.range 0 60) = true) by (vm_compute; reflexivity).
  rewrite forallb_forall in Hall. specialize (Hall s).
  assert (Hin : In s (JS.range 0 60)).
  { unfold JS.range. apply in_map_iff. exists (Z.to_nat s). split; [lia|].
    apply in_seq. lia. }
  apply Hall in Hin. apply andb_true_iff in Hin. destruct Hin as [H1 H2].
  apply Nat.eqb_eq in H1. split; [exact H1|].
  destruct (readInt (padStart2 (toString s))) as [v|]; [|discriminate].
  apply Z.eqb_eq in H2. now subst.
Qed.

(** For a time that is not negative, [formatTime] prints the whole minutes,
    a colon and the seconds on exactly two characters; the two fields read
    back as numbers [m] and [s] with [0 <= s < 60] and
    [m * 60 + s = floor(sec)]. *)
Theorem formatTime_reads_back : forall (sec : R),
  (0 <= sec)%R ->
  exists mm ss m s,
    formatTime sec = mm ++ ":" ++ ss /\
    String.length ss = 2%nat /\
    readInt mm = Some m /\ readInt ss = Some s /\
    (0 <= m)%Z /\ (0 <= s < 60)%Z /\ (m * 60 + s)%Z = Zfloor sec.
Proof.
  intros sec Hsec. unfold formatTime. cbv zeta.
  set (n := Zfloor sec).
  assert (Hn : (0 <= n)%Z) by (apply Zfloor_lub; simpl; exact Hsec).
  assert (Hrem : (0 <= Z.rem n 60 < 60)%Z) by (apply Z.rem_bound_pos; lia).
  destruct (seconds_field (Z.rem n 60) Hrem) as [Hlen Hread].
  exists (toString (n / 60)), (padStart2 (toString (Z.rem n 60))),
    (n / 60)%Z, (Z.rem n 60).
  split; [reflexivity|]. split; [exact Hlen|].
  split; [apply readInt_toString|]. split; [exact Hread|].
  split; [apply Z.div_pos; lia|]. split; [exact Hrem|].
  rewrite Z.rem_mod_nonneg by lia.
  pose proof (Z.div_mod n 60 ltac:(lia)). lia.
Qed.

Lemma formatTime_reads_back_witness :
  (0 <= 125)%R /\
  exists mm ss m s,
    formatTime 125 = mm ++ ":" ++ ss /\
    String.length ss = 2%nat /\
    readInt mm = Some m /\ readInt ss = Some s /\
    (0 <= m)%Z /\ (0 <= s < 60)%Z /\ (m * 60 + s)%Z = Zfloor 125.
Proof.
  assert (H : (0 <= 125)%R) by lra.
  split; [exact H|]. exact (formatTime_reads_back 125 H).
Defined.

End ClockFacts.

Section RDPTheorems.

Local Open Scope R_scope.

(** [simplifyRDP] (both implementations) only leaves points out: what it
    returns is the input with some points removed, in the same order, so
    it is never longer than the input; and an input of two or more points
    keeps at least two. *)
Theorem simplifyRDP_result_is_subsequence :
  forall (fuel : nat) (points : list Point) (epsilon : R) (res : list Point),
  ColorAlgorithm.simplifyRDP fuel points epsilon = Some res \/
  AIColorAlgorithm.simplifyRDP fuel points epsilon = Some res ->
  Subseq res points /\
  (length res <= length points)%nat /\
  (forall p, In p res -> In p points) /\
  ((2 <= length points)%nat -> (2 <= length res)%nat).
Proof.
  intros fuel points epsilon res H.
  assert (Hgen : exists dist,
            Kernel.simplifyRDP dist fuel points epsilon = Some res).
  { destruct H as [H|H]; eexists; exact H. }
  destruct Hgen as [dist Hrun].
  pose proof (simplifyRDP_subseq dist fuel points epsilon res Hrun) as Hsub.
  split; [exact Hsub|]. split; [now apply Subseq_length|].
  split; [intros p; now apply Subseq_In|].
  now destruct (simplifyRDP_endpoints dist fuel points epsilon res Hrun)
    as (_ & _ & Hlen).
Qed.

Lemma simplifyRDP_result_is_subsequence_witness :
  (ColorAlgorithm.simplifyRDP 3 collinear3 1 = Some [mkPoint 0 0; mkPoint 2 0] \/
   AIColorAlgorithm.simplifyRDP 3 collinear3 1
   = Some [mkPoint 0 0; mkPoint 2 0]) /\
  Subseq [mkPoint 0 0; mkPoint 2 0] collinear3.
Proof.
  assert (H : ColorAlgorithm.simplifyRDP 3 collinear3 1
              = Some [mkPoint 0 0; mkPoint 2 0] \/
              AIColorAlgorithm.simplifyRDP 3 collinear3 1
              = Some [mkPoint 0 0; mkPoint 2 0]).
  { left. exact (simplifyRDP_collinear3 _ perpDist_collinear3). }
  split; [exact H|].
  exact (proj1 (simplifyRDP_result_is_subsequence 3 collinear3 1 _ H)).
Defined.

(** On a chord of positive length the two distance helpers compute the
    same number, so on a point list without repeated points the two
    implementations of [simplifyRDP] return the same result. *)
Theorem simplifyRDP_implementations_agree :
  (forall p a b : Point, a <> b ->
     ColorAlgorithm.perpDist p a b
     = AIColorAlgorithm.perpendicularDistance p a b None /\
     ColorAlgorithm.perpDist p a b = AIColorAlgorithm.chordDistance p a b) /\
  (forall (fuel : nat) (points : list Point) (epsilon : R),
     NoDup points ->
     ColorAlgorithm.simplifyRDP fuel points epsilon
     = AIColorAlgorithm.simplifyRDP fuel points epsilon).
Proof.
  split.
  - intros p a b Hab. split; [|now apply distances_agree].
    rewrite (distances_agree p a b Hab). reflexivity.
  - intros fuel points epsilon Hnd.
    apply simplifyRDP_ext; [|exact Hnd].
    intros p a b Hab. now apply distances_agree.
Qed.

Lemma simplifyRDP_implementations_agree_witness :
  NoDup triangle /\
  ColorAlgorithm.simplifyRDP 3 triangle 1
  = AIColorAlgorithm.simplifyRDP 3 triangle 1.
Proof.
  assert (H : NoDup triangle).
  { unfold triangle.
    apply NoDup_cons; [simpl; intros [E|[E|[]]]; injection E; intros; lra|].
    apply NoDup_cons; [simpl; intros [E|[]]; injection E; intros; lra|].
    apply NoDup_cons; [intros [] | apply NoDup_nil]. }
  split; [exact H|].
  exact (proj2 simplifyRDP_implementations_agree 3%nat triangle 1 H).
Defined.

End RDPTheorems.

(** * parseFloat on every number *)

Section ParseFloatSamples.

Local Open Scope R_scope.
Local Open Scope string_scope.

(** On the two sample areas [Number.parseFloat] is [JS.parseFloat]. *)
Lemma parseFloat_samples_agree :
  Number.parseFloat "100000" = Number.ofOption (JS.parseFloat "100000") /\
  Number.parseFloat "25000" = Number.ofOption (JS.parseFloat "25000").
Proof. split; reflexivity. Qed.

(** Signs, fractions without an integer part, exponents, and the two
    ways to read an infinity. *)
Lemma parseFloat_beyond_fragment :
  Number.parseFloat "-5" = Number.Fin (- 5) /\
  Number.parseFloat ".5" = Number.Fin (5 / 10) /\
  Number.parseFloat "1e5" = Number.Fin 100000 /\
  Number.parseFloat "  12px" = Number.Fin 12 /\
  Number.parseFloat "Infinity" = Number.Inf false /\
  Number.parseFloat "-Infinity" = Number.Inf true /\
  Number.parseFloat "1e999" = Number.Inf false /\
  Number.parseFloat "1e-999" = Number.Fin 0 /\
  Number.parseFloat "abc" = Number.NaN.
Proof.
  repeat split; try reflexivity; vm_compute; reflexivity.
Qed.

End ParseFloatSamples.

(** * calculateStats on every number *)

Section NumberOrder.

Local Open Scope R_scope.

Lemma ltb_zero_positive (a : Number.t) :
  Number.ltb (Number.Fin 0) a = true <-> Number.positive a.
Proof.
  destruct a as [|negative|x]; cbn [Number.ltb Number.positive].
  - split; [discriminate | intros []].
  - destruct negative; cbn; split; congruence.
  - apply ltb_true.
Qed.

(** On numbers above 0 the comparator of the sort decides [<=]. *)
Lemma sub_not_positive (a b : Number.t) :
  Number.positive a -> Number.positive b ->
  (negb (Number.ltb (Number.Fin 0) (Number.sub a b)) = true
   <-> Number.leb a b = true).
Proof.
  destruct a as [|na|x], b as [|nb|y]; cbn [Number.positive];
    try (intros []; fail); try (intros _ []; fail).
  - intros -> ->. cbn. tauto.
  - intros -> _. cbn. split; discriminate.
  - intros _ ->. cbn. tauto.
  - intros _ _. cbn [Number.sub Number.ltb Number.leb].
    rewrite negb_true_iff, ltb_false, leb_true. lra.
Qed.

Lemma leb_total (a b : Number.t) :
  Number.positive a -> Number.positive b ->
  Number.leb a b = true \/ Number.leb b a = true.
Proof.
  destruct a as [|na|x], b as [|nb|y]; cbn [Number.positive];
    try (intros []; fail); try (intros _ []; fail).
  - intros -> ->. now left.
  - intros -> _. now right.
  - intros _ ->. now left.
  - intros _ _. cbn [Number.leb]. rewrite !leb_true.
    destruct (Rle_dec x y); [now left | right; lra].
Qed.

Lemma leb_trans (a b c : Number.t) :
  Number.leb a b = true -> Number.leb b c = true -> Number.leb a c = true.
Proof.
  destruct a as [|[|]|x], b as [|[|]|y], c as [|[|]|z];
    cbn [Number.leb orb negb]; intros H1 H2;
    try discriminate; try reflexivity.
  rewrite leb_true in *. lra.
Qed.

Lemma leb_refl_positive (a : Number.t) :
  Number.positive a -> Number.leb a a = true.
Proof.
  destruct a as [|na|x]; cbn [Number.positive Number.leb].
  - intros [].
  - intros ->. reflexivity.
  - intros _. apply leb_true. lra.
Qed.

Lemma leb_antisym (a b : Number.t) :
  Number.leb a b = true -> Number.leb b a = true -> a = b.
Proof.
  destruct a as [|na|x], b as [|nb|y]; cbn [Number.leb]; try discriminate.
  - destruct na, nb; cbn; try discriminate; reflexivity.
  - destruct na; discriminate.
  - destruct nb; discriminate.
  - rewrite !leb_true. intros H1 H2. f_equal. lra.
Qed.

(** The percentage of two areas above 0, the first not above the second. *)
Lemma percent_cases (lo hi : Number.t) :
  Number.positive lo -> Number.positive hi -> Number.leb lo hi = true ->
  let pct := Number.mul (Number.div (Number.sub hi lo) hi) (Number.Fin 100) in
  (hi = Number.Inf false /\ pct = Number.NaN) \/
  (exists x y, lo = Number.Fin x /\ hi = Number.Fin y /\ 0 < x <= y /\
     pct = Number.Fin ((y - x) / y * 100)).
Proof.
  destruct lo as [|nl|x], hi as [|nh|y]; cbn [Number.positive];
    try (intros []; fail); try (intros _ []; fail).
  - intros -> -> _. left. split; reflexivity.
  - intros -> _ H. discriminate H.
  - intros _ -> _. left. split; reflexivity.
  - intros Hx Hy Hle. cbn [Number.leb] in Hle. apply leb_true in Hle.
    right. exists x, y. split; [reflexivity|]. split; [reflexivity|].
    split; [lra|]. cbn [Number.sub Number.div Number.mul].
    assert (JS.eqb y 0 = false) as ->; [|reflexivity].
    destruct (JS.eqb y 0) eqn:E; [|reflexivity].
    apply eqb_true in E. lra.
Qed.

Lemma percent_range (x y : R) :
  0 < x <= y -> 0 <= (y - x) / y * 100 < 100.
Proof.
  intros H.
  assert (Hq : 0 <= (y - x) / y < 1).
  { split.
    - apply Rmult_le_pos; [lra|]. left. apply Rinv_0_lt_compat. lra.
    - apply (Rmult_lt_reg_r y); [lra|].
      unfold Rdiv. rewrite Rmult_assoc, Rinv_l by lra. lra. }
  lra.
Qed.

End NumberOrder.

Section StatsOnNumbers.

Local Open Scope R_scope.
Local Open Scope string_scope.
Import SummaryManager.

Variable parseFloat : string -> Number.t.

Lemma isValid_positive item :
  Stats.isValid parseFloat item = true -> positiveArea parseFloat item.
Proof.
  unfold Stats.isValid, positiveArea. intros H.
  apply andb_true_iff in H. now apply ltb_zero_positive.
Qed.

Lemma positive_isValid item :
  parseFloat "" = Number.NaN ->
  positiveArea parseFloat item -> Stats.isValid parseFloat item = true.
Proof.
  unfold Stats.isValid, positiveArea. intros Hempty H.
  apply andb_true_iff. split; [|now apply ltb_zero_positive].
  apply negb_true_iff. destruct (String.eqb_spec (area item) ""); [|reflexivity].
  rewrite e, Hempty in H. destruct H.
Qed.

Lemma statsAreaLe_leb a b :
  Stats.isValid parseFloat a = true -> Stats.isValid parseFloat b = true ->
  (Stats.areaLe parseFloat a b = true <->
   Number.leb (parseFloat (area a)) (parseFloat (area b)) = true).
Proof.
  intros Ha Hb. apply isValid_positive in Ha, Hb.
  now apply sub_not_positive.
Qed.

Lemma statsSorted_perm m :
  Permutation (Stats.validData parseFloat m) (Stats.sorted parseFloat m).
Proof. apply sortBy_perm. Qed.

Lemma statsSorted_ascending m :
  StronglySorted
    (fun a b => Number.leb (parseFloat (area a)) (parseFloat (area b)) = true)
    (Stats.sorted parseFloat m).
Proof.
  apply (sortBy_sorted (Stats.areaLe parseFloat)
           (fun item => Stats.isValid parseFloat item = true)).
  - intros a b. apply statsAreaLe_leb.
  - intros a b Ha Hb. apply leb_total; now apply isValid_positive.
  - intros a b c _ _ _. apply leb_trans.
  - apply Forall_forall. intros x Hx. now apply filter_In in Hx.
Qed.

(** The normal path, with the two extreme records named. *)
Lemma statsNormal m :
  (2 <= length (Stats.validData parseFloat m))%nat ->
  let lo := nth 0 (Stats.sorted parseFloat m) placeholder in
  let hi := nth (length (Stats.sorted parseFloat m) - 1)
                (Stats.sorted parseFloat m) placeholder in
  let pct := Number.mul
               (Number.div (Number.sub (parseFloat (area hi))
                                       (parseFloat (area lo)))
                           (parseFloat (area hi)))
               (Number.Fin 100) in
  In lo (Stats.validData parseFloat m) /\
  In hi (Stats.validData parseFloat m) /\
  (forall x, In x (Stats.validData parseFloat m) ->
     Number.leb (parseFloat (area lo)) (parseFloat (area x)) = true /\
     Number.leb (parseFloat (area x)) (parseFloat (area hi)) = true) /\
  Stats.calculateStats parseFloat m =
    Stats.mkStats lo hi pct
      (if Number.ltb (Number.Fin 75) pct then 2%Z
       else if Number.leb (Number.Fin 50) pct then 1%Z else 0%Z)
      None.
Proof.
  intros Hlen lo hi pct.
  pose proof (statsSorted_perm m) as Hperm.
  assert (Hlen' : (2 <= length (Stats.sorted parseFloat m))%nat)
    by now rewrite <- (Permutation_length Hperm).
  assert (Hne : Stats.sorted parseFloat m <> []).
  { intros E. rewrite E in Hlen'. simpl in Hlen'. lia. }
  assert (Hvalid : forall x, In x (Stats.validData parseFloat m) ->
            Stats.isValid parseFloat x = true).
  { intros x Hx. now apply filter_In in Hx. }
  assert (Hlo : In lo (Stats.validData parseFloat m)).
  { apply (Permutation_in _ (Permutation_sym Hperm)). apply nth_In. lia. }
  assert (Hhi : In hi (Stats.validData parseFloat m)).
  { apply (Permutation_in _ (Permutation_sym Hperm)). apply nth_In. lia. }
  split; [exact Hlo|]. split; [exact Hhi|]. split.
  - intros x Hx. pose proof (Hvalid x Hx) as Vx.
    apply (Permutation_in _ Hperm) in Hx.
    assert (Hrefl : forall a, In a (Stats.sorted parseFloat m) ->
              Number.leb (parseFloat (area a)) (parseFloat (area a)) = true).
    { intros a Ha. apply leb_refl_positive, isValid_positive, Hvalid.
      now apply (Permutation_in _ (Permutation_sym Hperm)). }
    pose proof (statsSorted_ascending m) as Hs.
    revert Hs Hne Hx Hrefl. fold lo hi. subst lo hi.
    generalize (Stats.sorted parseFloat m) as l. clear.
    intros l Hs. induction Hs as [|a l Hs IH Hall]; [congruence|].
    intros _ Hx Hrefl. rewrite Forall_forall in Hall. split.
    + simpl. destruct Hx as [<-|Hx]; [apply Hrefl; now left | now apply Hall].
    + destruct l as [|b l].
      * destruct Hx as [<-|[]]. simpl. apply Hrefl. now left.
      * rewrite last_index_cons. destruct Hx as [<-|Hx].
        -- apply Hall. apply nth_In. simpl. lia.
        -- apply IH; [discriminate | exact Hx |].
           intros c Hc. apply Hrefl. now right.
  - unfold Stats.calculateStats.
    destruct (Nat.ltb_spec (length (Stats.validData parseFloat m)) 2)
      as [|_]; [lia|].
    cbv zeta. fold lo. fold hi.
    assert (Number.ltb (Number.Fin 0) (parseFloat (area hi)) = true) as ->.
    { apply ltb_zero_positive, isValid_positive, Hvalid, Hhi. }
    reflexivity.
Qed.

Lemma statsDegenerate m :
  (length (Stats.validData parseFloat m) < 2)%nat ->
  Stats.calculateStats parseFloat m =
    let singleData :=
      match Stats.validData parseFloat m with
      | [item] => item
      | _ => placeholder
      end in
    Stats.mkStats singleData singleData (Number.Fin 0) 0%Z (Some errorText).
Proof.
  intros Hlen. unfold Stats.calculateStats.
  destruct (Nat.ltb_spec (length (Stats.validData parseFloat m)) 2)
    as [_|]; [|lia].
  destruct (Stats.validData parseFloat m) as [|a [|b l]]; simpl in *;
    try reflexivity; lia.
Qed.

(** The valid records of a collection in which the records of positive
    area are known. *)
Lemma validData_skip (m : list (R * AnnotationData)) :
  (forall e, In e m -> ~ positiveArea parseFloat (snd e)) ->
  Stats.validData parseFloat m = [].
Proof.
  intros H. unfold Stats.validData. induction m as [|e m IH]; [reflexivity|].
  cbn [map filter]. destruct (Stats.isValid parseFloat (snd e)) eqn:E.
  - exfalso. apply (H e); [now left | now apply isValid_positive].
  - apply IH. intros e' He'. apply H. now right.
Qed.

Lemma validData_app (m1 m2 : list (R * AnnotationData)) :
  Stats.validData parseFloat (m1 ++ m2)%list
  = (Stats.validData parseFloat m1 ++ Stats.validData parseFloat m2)%list.
Proof. unfold Stats.validData. now rewrite map_app, filter_app. Qed.

Lemma validData_cons_positive t item (m : list (R * AnnotationData)) :
  parseFloat "" = Number.NaN -> positiveArea parseFloat item ->
  Stats.validData parseFloat ((t, item) :: m)
  = item :: Stats.validData parseFloat m.
Proof.
  intros Hempty Hpos. unfold Stats.validData. cbn [map filter snd].
  now rewrite (positive_isValid item Hempty Hpos).
Qed.

End StatsOnNumbers.

Section StatsRefinement.

Local Open Scope R_scope.
Import SummaryManager.

Variable parseFloat : string -> option R.

Lemma isValid_ofOption item :
  Stats.isValid (fun s => Number.ofOption (parseFloat s)) item
  = isValid parseFloat item.
Proof.
  unfold Stats.isValid, isValid, gt. f_equal.
  destruct (parseFloat (area item)); reflexivity.
Qed.

Lemma areaLe_ofOption a b :
  Stats.areaLe (fun s => Number.ofOption (parseFloat s)) a b
  = areaLe parseFloat a b.
Proof.
  unfold Stats.areaLe, areaLe, sub.
  destruct (parseFloat (area a)) as [x|], (parseFloat (area b)) as [y|];
    cbn [Number.ofOption Number.sub Number.ltb negb]; try reflexivity.
  unfold JS.ltb, JS.leb.
  destruct (Rlt_dec 0 (x - y)), (Rle_dec (x - y) 0); try reflexivity; lra.
Qed.

Lemma sortBy_ext {A : Type} (f g : A -> A -> bool) (l : list A) :
  (forall a b, f a b = g a b) -> JS.sortBy f l = JS.sortBy g l.
Proof.
  intros H. induction l as [|x l IH]; [reflexivity|].
  cbn [JS.sortBy fold_right]. fold (JS.sortBy f l) (JS.sortBy g l).
  rewrite IH. generalize (JS.sortBy g l) as s. clear IH.
  induction s as [|y s IHs]; [reflexivity|].
  cbn [JS.insertBy]. rewrite H, IHs. reflexivity.
Qed.

(** When [parseFloat] never yields an infinity, [Stats.calculateStats] is
    [SummaryManager.calculateStats]. *)
Lemma calculateStats_ofOption (m : list (R * AnnotationData)) :
  Stats.calculateStats (fun s => Number.ofOption (parseFloat s)) m
  = Stats.ofFinite (calculateStats parseFloat m).
Proof.
  assert (Hv : Stats.validData (fun s => Number.ofOption (parseFloat s)) m
               = validData parseFloat m).
  { unfold Stats.validData, validData. apply filter_ext, isValid_ofOption. }
  assert (Hs : Stats.sorted (fun s => Number.ofOption (parseFloat s)) m
               = sorted parseFloat m).
  { unfold Stats.sorted, sorted. rewrite Hv.
    apply sortBy_ext, areaLe_ofOption. }
  unfold Stats.calculateStats, calculateStats. rewrite Hv, Hs.
  destruct (length (validData parseFloat m) <? 2)%nat; [reflexivity|].
  cbv zeta. unfold Stats.ofFinite.
  cbn [smallest largest obstructionPercent voteScore error].
  set (lo := parseFloat (area (nth 0 (sorted parseFloat m) placeholder))).
  set (hi := parseFloat (area (nth (length (sorted parseFloat m) - 1)
                                   (sorted parseFloat m) placeholder))).
  destruct hi as [y|]; cbn [Number.ofOption Number.ltb gt]; [|reflexivity].
  destruct (JS.ltb 0 y) eqn:Ey; [|reflexivity].
  apply ltb_true in Ey.
  destruct lo as [x|]; cbn [Number.ofOption Number.sub Number.div Number.mul
                            sub div gt ge Number.ltb Number.leb];
    [|reflexivity].
  assert (JS.eqb y 0 = false) as ->.
  { destruct (JS.eqb y 0) eqn:E; [|reflexivity]. apply eqb_true in E. lra. }
  reflexivity.
Qed.

End StatsRefinement.

Section StatsOnNumbersMore.

Local Open Scope R_scope.
Local Open Scope string_scope.
Import SummaryManager.

Variable parseFloat : string -> Number.t.

(** The percentage and the score on the normal path: either the largest
    area is infinite and the percentage is [NaN], or both extreme areas
    are finite and the percentage is the formula on them. *)
Lemma statsPercent m :
  (2 <= length (Stats.validData parseFloat m))%nat ->
  let stats := Stats.calculateStats parseFloat m in
  Stats.error stats = None /\
  ((parseFloat (area (Stats.largest stats)) = Number.Inf false /\
    Stats.obstructionPercent stats = Number.NaN /\
    Stats.voteScore stats = 0%Z) \/
   (exists x y,
      parseFloat (area (Stats.smallest stats)) = Number.Fin x /\
      parseFloat (area (Stats.largest stats)) = Number.Fin y /\
      0 < x <= y /\
      Stats.obstructionPercent stats = Number.Fin ((y - x) / y * 100) /\
      Stats.voteScore stats =
        (if JS.ltb 75 ((y - x) / y * 100) then 2%Z
         else if JS.leb 50 ((y - x) / y * 100) then 1%Z else 0%Z))).
Proof.
  intros Hlen stats. subst stats.
  destruct (statsNormal parseFloat m Hlen) as (Hlo & Hhi & Hb & ->).
  cbn [Stats.error Stats.largest Stats.smallest Stats.obstructionPercent
       Stats.voteScore].
  split; [reflexivity|].
  set (lo := nth 0 (Stats.sorted parseFloat m) placeholder) in *.
  set (hi := nth (length (Stats.sorted parseFloat m) - 1)
                 (Stats.sorted parseFloat m) placeholder) in *.
  assert (Plo : Number.positive (parseFloat (area lo))).
  { apply (isValid_positive parseFloat lo).
    unfold Stats.validData in Hlo. now apply filter_In in Hlo. }
  assert (Phi : Number.positive (parseFloat (area hi))).
  { apply (isValid_positive parseFloat hi).
    unfold Stats.validData in Hhi. now apply filter_In in Hhi. }
  destruct (percent_cases _ _ Plo Phi (proj1 (Hb hi Hhi)))
    as [[Einf ->] | (x & y & Ex & Ey & Hxy & ->)].
  - left. split; [exact Einf|]. split; reflexivity.
  - right. exists x, y. repeat split; try assumption; lra.
Qed.

(** A valid record of infinite area makes the largest area infinite. *)
Lemma statsLargest_infinite m item :
  (2 <= length (Stats.validData parseFloat m))%nat ->
  In item (Stats.validData parseFloat m) ->
  parseFloat (area item) = Number.Inf false ->
  parseFloat (area (Stats.largest (Stats.calculateStats parseFloat m)))
  = Number.Inf false.
Proof.
  intros Hlen Hin Einf.
  destruct (statsNormal parseFloat m Hlen) as (_ & _ & Hb & ->).
  cbn [Stats.largest]. destruct (Hb item Hin) as [_ Hle].
  rewrite Einf in Hle. revert Hle.
  match goal with |- Number.leb _ ?h = true -> _ =>
    destruct h as [|[|]|y] end; intros Hle; try discriminate Hle.
  reflexivity.
Qed.

Lemma validData_two before t1 item1 between t2 item2 after :
  parseFloat "" = Number.NaN ->
  positiveArea parseFloat item1 -> positiveArea parseFloat item2 ->
  (2 <= length (Stats.validData parseFloat
                  (before ++ (t1, item1) :: between
                          ++ (t2, item2) :: after)%list))%nat.
Proof.
  intros Hempty H1 H2.
  rewrite validData_app, (validData_cons_positive _ _ _ _ Hempty H1).
  rewrite validData_app, (validData_cons_positive _ _ _ _ Hempty H2).
  rewrite length_app. cbn [length]. rewrite length_app. cbn [length]. lia.
Qed.

Lemma validData_one before t item after :
  parseFloat "" = Number.NaN ->
  positiveArea parseFloat item ->
  (forall e, In e (before ++ after)%list ->
             ~ positiveArea parseFloat (snd e)) ->
  Stats.validData parseFloat (before ++ (t, item) :: after)%list = [item].
Proof.
  intros Hempty Hpos Hrest.
  rewrite validData_app, (validData_cons_positive _ _ _ _ Hempty Hpos).
  rewrite (validData_skip parseFloat before), (validData_skip parseFloat after).
  - reflexivity.
  - intros e He. apply Hrest. apply in_or_app. now right.
  - intros e He. apply Hrest. apply in_or_app. now left.
Qed.

(** Every collection has no record of positive area, exactly one, or two
    of them somewhere. *)
Lemma positiveArea_cases (m : list (R * AnnotationData)) :
  (forall e, In e m -> ~ positiveArea parseFloat (snd e)) \/
  (exists before t item after,
     m = (before ++ (t, item) :: after)%list /\
     positiveArea parseFloat item /\
     forall e, In e (before ++ after)%list ->
               ~ positiveArea parseFloat (snd e)) \/
  (exists before t1 item1 between t2 item2 after,
     m = (before ++ (t1, item1) :: between ++ (t2, item2) :: after)%list /\
     positiveArea parseFloat item1 /\ positiveArea parseFloat item2).
Proof.
  induction m as [|[t item] m IH]; [left; intros e []|].
  assert (Hdec : positiveArea parseFloat item
                 \/ ~ positiveArea parseFloat item).
  { unfold positiveArea.
    destruct (Number.ltb (Number.Fin 0) (parseFloat (area item))) eqn:E.
    - left. now apply ltb_zero_positive.
    - right. intros H. apply ltb_zero_positive in H. congruence. }
  destruct Hdec as [Hpos|Hneg].
  - right. destruct IH as [Hnone | [Hone | Htwo]].
    + left. exists [], t, item, m. split; [reflexivity|].
      split; [exact Hpos | exact Hnone].
    + right. destruct Hone as (before & t2 & item2 & after & -> & H2 & _).
      exists [], t, item, before, t2, item2, after.
      split; [reflexivity|]. now split.
    + right. destruct Htwo
        as (before & t1 & item1 & between & t2 & item2 & after & -> & H1 & H2).
      exists [], t, item, (before ++ (t1, item1) :: between)%list,
        t2, item2, after.
      split; [cbn [app]; now rewrite <- app_assoc|]. now split.
  - destruct IH as [Hnone | [Hone | Htwo]].
    + left. intros e [<-|He]; [exact Hneg | now apply Hnone].
    + right. left.
      destruct Hone as (before & t1 & item1 & after & -> & H1 & Hrest).
      exists ((t, item) :: before), t1, item1, after.
      split; [reflexivity|]. split; [exact H1|].
      intros e [<-|He]; [exact Hneg | now apply Hrest].
    + right. right. destruct Htwo
        as (before & t1 & item1 & between & t2 & item2 & after & -> & H1 & H2).
      exists ((t, item) :: before), t1, item1, between, t2, item2, after.
      split; [reflexivity|]. now split.
Qed.

End StatsOnNumbersMore.

Section StatsOnNumbersTheorems.

Local Open Scope R_scope.
Local Open Scope string_scope.
Import SummaryManager.

Lemma parseFloat_empty : Number.parseFloat "" = Number.NaN.
Proof. reflexivity. Qed.

Lemma positiveArea_record25000 : positiveArea Number.parseFloat record25000.
Proof.
  unfold positiveArea.
  change (Number.parseFloat (area record25000)) with (Number.Fin 25000).
  cbn [Number.positive]. lra.
Qed.

Lemma positiveArea_record100000 : positiveArea Number.parseFloat record100000.
Proof.
  unfold positiveArea.
  change (Number.parseFloat (area record100000)) with (Number.Fin 100000).
  cbn [Number.positive]. lra.
Qed.

Lemma positiveArea_record5 : positiveArea Number.parseFloat record5.
Proof.
  unfold positiveArea.
  change (Number.parseFloat (area record5)) with (Number.Fin 5).
  cbn [Number.positive]. lra.
Qed.

Lemma positiveArea_recordInfinity :
  positiveArea Number.parseFloat recordInfinity.
Proof. reflexivity. Qed.

Lemma statsValidData_sampleMap :
  Stats.validData Number.parseFloat sampleMap = [record100000; record25000].
Proof.
  unfold sampleMap.
  rewrite (validData_cons_positive _ _ _ _ parseFloat_empty
             positiveArea_record100000).
  rewrite (validData_cons_positive _ _ _ _ parseFloat_empty
             positiveArea_record25000).
  reflexivity.
Qed.

(** C7: with fewer than two records of positive parsed area
    [calculateStats] returns (it is a total function: nothing throws) a
    stats object with the non-empty error marker, percentage 0 and score
    0.  When no record has a positive parsed area, [smallest] and
    [largest] are the placeholder record; when exactly one has, they are
    that record, wherever it stands in the collection.  The empty
    collection and the one-record collections are instances.  With two
    records of positive area there is no error marker, and every
    collection is in one of these three cases. *)
Theorem calculateStats_degenerate_result :
  forall (parseFloat : string -> Number.t)
         (annotationsMap : list (R * AnnotationData)),
  parseFloat "" = Number.NaN ->
  let stats := Stats.calculateStats parseFloat annotationsMap in
  let degenerate (single : AnnotationData) :=
    Stats.mkStats single single (Number.Fin 0) 0%Z (Some errorText) in
  ((forall e, In e annotationsMap -> ~ positiveArea parseFloat (snd e)) ->
   stats = degenerate placeholder) /\
  (forall before t item after,
     annotationsMap = (before ++ (t, item) :: after)%list ->
     positiveArea parseFloat item ->
     (forall e, In e (before ++ after)%list ->
                ~ positiveArea parseFloat (snd e)) ->
     stats = degenerate item) /\
  (forall before t1 item1 between t2 item2 after,
     annotationsMap
     = (before ++ (t1, item1) :: between ++ (t2, item2) :: after)%list ->
     positiveArea parseFloat item1 -> positiveArea parseFloat item2 ->
     Stats.error stats = None) /\
  ((forall e, In e annotationsMap -> ~ positiveArea parseFloat (snd e)) \/
   (exists before t item after,
      annotationsMap = (before ++ (t, item) :: after)%list /\
      positiveArea parseFloat item /\
      forall e, In e (before ++ after)%list ->
                ~ positiveArea parseFloat (snd e)) \/
   (exists before t1 item1 between t2 item2 after,
      annotationsMap
      = (before ++ (t1, item1) :: between ++ (t2, item2) :: after)%list /\
      positiveArea parseFloat item1 /\ positiveArea parseFloat item2)) /\
  errorText <> "" /\
  (time placeholder = 0 /\ area placeholder = "0" /\
   areaCategory placeholder = Some "N/A" /\ polygon placeholder = [] /\
   box placeholder = None /\ srcDataUrl placeholder = "" /\
   obs_pct placeholder = Some 0) /\
  Stats.calculateStats parseFloat [] = degenerate placeholder /\
  (forall t item,
     (positiveArea parseFloat item ->
      Stats.calculateStats parseFloat [(t, item)] = degenerate item) /\
     (~ positiveArea parseFloat item ->
      Stats.calculateStats parseFloat [(t, item)] = degenerate placeholder)).
Proof.
  intros parseFloat m Hempty stats degenerate.
  assert (Hone : forall m' before t item after,
            m' = (before ++ (t, item) :: after)%list ->
            positiveArea parseFloat item ->
            (forall e, In e (before ++ after)%list ->
                       ~ positiveArea parseFloat (snd e)) ->
            Stats.calculateStats parseFloat m' = degenerate item).
  { intros m' before t item after -> Hpos Hrest.
    pose proof (validData_one parseFloat before t item after Hempty Hpos Hrest)
      as Hv.
    rewrite statsDegenerate by (rewrite Hv; simpl; lia).
    rewrite Hv. reflexivity. }
  assert (Hnone : forall m',
            (forall e, In e m' -> ~ positiveArea parseFloat (snd e)) ->
            Stats.calculateStats parseFloat m' = degenerate placeholder).
  { intros m' Hrest.
    pose proof (validData_skip parseFloat m' Hrest) as Hv.
    rewrite statsDegenerate by (rewrite Hv; simpl; lia).
    rewrite Hv. reflexivity. }
  split; [apply Hnone|].
  split; [intros before t item after; apply Hone|].
  split.
  { intros before t1 item1 between t2 item2 after -> H1 H2.
    apply statsPercent. now apply validData_two. }
  split; [apply positiveArea_cases|].
  split; [discriminate|].
  split; [repeat split; reflexivity|].
  split; [apply Hnone; intros e []|].
  intros t item. split.
  - intros Hpos. apply (Hone _ [] t item []); [reflexivity | exact Hpos|].
    intros e [].
  - intros Hneg. apply Hnone. intros e [<-|[]]. exact Hneg.
Qed.

Lemma calculateStats_degenerate_result_witness :
  Number.parseFloat "" = Number.NaN /\
  positiveArea Number.parseFloat record25000 /\
  Stats.calculateStats Number.parseFloat [(0, record25000)]
  = Stats.mkStats record25000 record25000 (Number.Fin 0) 0%Z (Some errorText).
Proof.
  split; [exact parseFloat_empty|].
  split; [exact positiveArea_record25000|].
  exact (proj1 (proj2 (calculateStats_degenerate_result Number.parseFloat
                         [(0, record25000)] parseFloat_empty))
           [] 0 record25000 [] eq_refl positiveArea_record25000
           (fun e (H : In e []) => match H with end)).
Defined.

(** C8 does not hold for every collection: the records with areas
    ["Infinity"] and ["5"] are both valid, the largest area is
    [Infinity], and the percentage is [(Infinity - 5) / Infinity * 100],
    which is [NaN]. *)
Lemma calculateStats_infinite_area_gives_NaN :
  Stats.obstructionPercent
    (Stats.calculateStats Number.parseFloat infinityMap) = Number.NaN /\
  Stats.voteScore
    (Stats.calculateStats Number.parseFloat infinityMap) = 0%Z /\
  Stats.error
    (Stats.calculateStats Number.parseFloat infinityMap) = None.
Proof.
  assert (Hv : Stats.validData Number.parseFloat infinityMap
               = [recordInfinity; record5]).
  { unfold infinityMap.
    rewrite (validData_cons_positive _ _ _ _ parseFloat_empty
               positiveArea_recordInfinity).
    rewrite (validData_cons_positive _ _ _ _ parseFloat_empty
               positiveArea_record5).
    reflexivity. }
  assert (Hlen : (2 <= length (Stats.validData Number.parseFloat
                                 infinityMap))%nat)
    by (rewrite Hv; simpl; lia).
  pose proof (statsLargest_infinite Number.parseFloat _ recordInfinity Hlen)
    as Hinf.
  rewrite Hv in Hinf. specialize (Hinf (or_introl eq_refl) eq_refl).
  destruct (statsPercent Number.parseFloat _ Hlen)
    as (Herr & [(_ & Hpct & Hscore) | (x & y & _ & Ey & _)]).
  - repeat split; assumption.
  - rewrite Hinf in Ey. discriminate Ey.
Qed.

(** C8, as far as it holds: the vote score is always 0, 1 or 2.  When no
    valid record has an area that parses to [Infinity], the percentage is
    a number from 0 to 100, on the degenerate and on the normal path.
    With two or more valid records the percentage is [NaN], and the score
    then 0, exactly when a valid record has the area [Infinity]. *)
Theorem calculateStats_ranges :
  forall (parseFloat : string -> Number.t)
         (annotationsMap : list (R * AnnotationData)),
  let stats := Stats.calculateStats parseFloat annotationsMap in
  (Stats.voteScore stats = 0%Z \/ Stats.voteScore stats = 1%Z
   \/ Stats.voteScore stats = 2%Z) /\
  ((forall item, In item (Stats.validData parseFloat annotationsMap) ->
      parseFloat (area item) <> Number.Inf false) ->
   exists pct,
     Stats.obstructionPercent stats = Number.Fin pct /\ 0 <= pct <= 100) /\
  ((2 <= length (Stats.validData parseFloat annotationsMap))%nat ->
   ((exists item, In item (Stats.validData parseFloat annotationsMap) /\
                  parseFloat (area item) = Number.Inf false) <->
    Stats.obstructionPercent stats = Number.NaN) /\
   (Stats.obstructionPercent stats = Number.NaN ->
    Stats.voteScore stats = 0%Z)).
Proof.
  intros parseFloat m stats.
  destruct (Nat.lt_ge_cases (length (Stats.validData parseFloat m)) 2)
    as [Hlt|Hge].
  - subst stats. rewrite (statsDegenerate parseFloat m Hlt). cbv zeta.
    cbn [Stats.obstructionPercent Stats.voteScore].
    split; [now left|]. split; [|lia].
    intros _. exists 0. split; [reflexivity | lra].
  - destruct (statsPercent parseFloat m Hge) as (_ & Hcases).
    destruct (statsNormal parseFloat m Hge) as (_ & Hhi & _ & Hstats).
    fold stats in Hcases.
    assert (HhiIn : In (Stats.largest stats)
                       (Stats.validData parseFloat m)).
    { subst stats. rewrite Hstats. exact Hhi. }
    destruct Hcases as [(Einf & Hpct & Hscore)
                       | (x & y & Ex & Ey & Hxy & Hpct & Hscore)].
    + split; [now left|]. split.
      * intros Hfin. exfalso. exact (Hfin _ HhiIn Einf).
      * intros _. split; [|intros _; exact Hscore].
        split; [intros _; exact Hpct|].
        intros _. exists (Stats.largest stats). now split.
    + split.
      { rewrite Hscore. destruct (JS.ltb 75 _); [now right; right|].
        destruct (JS.leb 50 _); [now right; left | now left]. }
      split.
      * intros _. exists ((y - x) / y * 100). split; [exact Hpct|].
        pose proof (percent_range x y Hxy). lra.
      * intros _. split; [|rewrite Hpct; discriminate].
        split; [|rewrite Hpct; discriminate].
        intros (item & Hin & Einf).
        pose proof (statsLargest_infinite parseFloat m item Hge Hin Einf)
          as Hinf.
        fold stats in Hinf. rewrite Ey in Hinf. discriminate Hinf.
Qed.

Lemma calculateStats_ranges_witness :
  (forall item, In item (Stats.validData Number.parseFloat sampleMap) ->
     Number.parseFloat (area item) <> Number.Inf false) /\
  exists pct,
    Stats.obstructionPercent (Stats.calculateStats Number.parseFloat sampleMap)
    = Number.Fin pct /\ 0 <= pct <= 100.
Proof.
  assert (H : forall item,
            In item (Stats.validData Number.parseFloat sampleMap) ->
            Number.parseFloat (area item) <> Number.Inf false).
  { rewrite statsValidData_sampleMap.
    intros item [<-|[<-|[]]]; discriminate. }
  split; [exact H|].
  exact (proj1 (proj2 (calculateStats_ranges Number.parseFloat sampleMap)) H).
Defined.

(** With two or more valid records, [smallest] and [largest] are valid
    records of the collection, the area of [smallest] is above 0, and no
    valid record has an area below that of [smallest] or above that of
    [largest]; this includes records of area [Infinity].  The percentage
    is 0 exactly when the largest area is finite and all valid records
    have the same area. *)
Theorem calculateStats_extremes :
  forall (parseFloat : string -> Number.t)
         (annotationsMap : list (R * AnnotationData)),
  (2 <= length (Stats.validData parseFloat annotationsMap))%nat ->
  let stats := Stats.calculateStats parseFloat annotationsMap in
  let minArea := parseFloat (area (Stats.smallest stats)) in
  let maxArea := parseFloat (area (Stats.largest stats)) in
  In (Stats.smallest stats) (Stats.validData parseFloat annotationsMap) /\
  In (Stats.largest stats) (Stats.validData parseFloat annotationsMap) /\
  Number.positive minArea /\
  (forall x, In x (Stats.validData parseFloat annotationsMap) ->
     Number.leb minArea (parseFloat (area x)) = true /\
     Number.leb (parseFloat (area x)) maxArea = true) /\
  (Stats.obstructionPercent stats = Number.Fin 0 <->
   maxArea <> Number.Inf false /\
   forall x, In x (Stats.validData parseFloat annotationsMap) ->
     parseFloat (area x) = maxArea).
Proof.
  intros parseFloat m Hlen stats minArea maxArea.
  destruct (statsPercent parseFloat m Hlen) as (_ & Hcases).
  destruct (statsNormal parseFloat m Hlen) as (Hlo & Hhi & Hb & Hstats).
  fold stats in Hcases.
  assert (Elo : Stats.smallest stats
                = nth 0 (Stats.sorted parseFloat m) placeholder)
    by (subst stats; now rewrite Hstats).
  assert (Ehi : Stats.largest stats
                = nth (length (Stats.sorted parseFloat m) - 1)
                      (Stats.sorted parseFloat m) placeholder)
    by (subst stats; now rewrite Hstats).
  subst minArea maxArea. rewrite Elo, Ehi in *.
  split; [exact Hlo|]. split; [exact Hhi|].
  split.
  { apply (isValid_positive parseFloat).
    unfold Stats.validData in Hlo. now apply filter_In in Hlo. }
  split; [exact Hb|].
  destruct Hcases as [(Einf & Hpct & _) | (x & y & Ex & Ey & Hxy & Hpct & _)].
  - rewrite Hpct. split; [discriminate|]. intros [Hfin _]. contradiction.
  - rewrite Hpct, Ey. split.
    + intros [= H0]. split; [discriminate|].
      assert (Exy : x = y).
      { destruct (Req_dec x y) as [|Hne]; [assumption|].
        assert (0 < (y - x) / y).
        { apply Rmult_lt_0_compat; [lra|]. apply Rinv_0_lt_compat. lra. }
        lra. }
      intros item Hin. destruct (Hb item Hin) as [H1 H2].
      rewrite Ex in H1. rewrite Ey in H2. subst x.
      apply leb_antisym; assumption.
    + intros [_ Hall]. specialize (Hall _ Hlo). rewrite Ex in Hall.
      injection Hall as ->. f_equal.
      replace (y - y) with 0 by ring. unfold Rdiv. ring.
Qed.

Lemma calculateStats_extremes_witness :
  (2 <= length (Stats.validData Number.parseFloat sampleMap))%nat /\
  In (Stats.smallest (Stats.calculateStats Number.parseFloat sampleMap))
     (Stats.validData Number.parseFloat sampleMap).
Proof.
  assert (H2 : (2 <= length (Stats.validData Number.parseFloat
                               sampleMap))%nat).
  { rewrite statsValidData_sampleMap. simpl. lia. }
  split; [exact H2|].
  exact (proj1 (calculateStats_extremes Number.parseFloat sampleMap H2)).
Defined.

End StatsOnNumbersTheorems.

(** * convexHull: the chain loops *)

Section ChainOrder.

Local Open Scope R_scope.

Lemma popWhile_suffix (stack : list Point) (p : Point) :
  exists dropped, stack = dropped ++ Kernel.popWhile stack p.
Proof.
  induction stack as [|b t IH]; [now exists []|].
  destruct t as [|a t']; [now exists []|].
  cbn [Kernel.popWhile]. destruct (JS.leb (Kernel.cross a b p) 0).
  - destruct IH as [dropped E]. exists (b :: dropped). cbn [app].
    f_equal. exact E.
  - now exists [].
Qed.

Lemma stack_subseq (pts : list Point) : forall stack seen,
  Subseq (rev stack) seen ->
  Subseq (rev (fold_left Kernel.pushPoint pts stack)) (seen ++ pts).
Proof.
  induction pts as [|p pts IH]; intros stack seen Hs; cbn [fold_left].
  - now rewrite app_nil_r.
  - replace (seen ++ p :: pts) with ((seen ++ [p]) ++ pts)
      by now rewrite <- app_assoc.
    apply IH. unfold Kernel.pushPoint. cbn [rev].
    apply Subseq_app; [|apply Subseq_refl].
    destruct (popWhile_suffix stack p) as [dropped E].
    apply (Subseq_trans _ (rev stack)); [|exact Hs].
    rewrite E at 2. rewrite rev_app_distr.
    rewrite <- (app_nil_r (rev (Kernel.popWhile stack p))) at 1.
    apply Subseq_app; [apply Subseq_refl | apply Subseq_nil_l].
Qed.

(** A chain is its input with points left out. *)
Lemma chain_subseq (pts : list Point) : Subseq (Kernel.chain pts) pts.
Proof.
  unfold Kernel.chain.
  exact (stack_subseq pts [] [] (Subseq_refl [])).
Qed.

Lemma chain_last (pts : list Point) (d : Point) :
  pts <> [] -> last (Kernel.chain pts) d = last pts d.
Proof.
  intros Hne. unfold Kernel.chain.
  destruct (stack_fold pts [] I) as (_ & _ & H3 & _).
  cbv zeta in H3. rewrite <- (H3 d Hne).
  destruct (fold_left Kernel.pushPoint pts []) as [|x t]; [reflexivity|].
  cbn [rev hd]. apply last_last.
Qed.

Lemma fold_pushPoint_nonempty (pts : list Point) : forall stack,
  stack <> [] -> fold_left Kernel.pushPoint pts stack <> [].
Proof.
  induction pts as [|p pts IH]; intros stack Hne; cbn [fold_left]; [exact Hne|].
  apply IH. unfold Kernel.pushPoint. discriminate.
Qed.

Lemma chain_nonempty (pts : list Point) : pts <> [] -> Kernel.chain pts <> [].
Proof.
  destruct pts as [|a pts]; [congruence|]. intros _ E.
  unfold Kernel.chain in E. cbn [fold_left] in E.
  apply (f_equal (@rev Point)) in E. rewrite rev_involutive in E.
  revert E. apply fold_pushPoint_nonempty. unfold Kernel.pushPoint.
  discriminate.
Qed.

Lemma leftTurns_nth (l : list Point) :
  leftTurns l ->
  forall i, (i + 2 < length l)%nat ->
    0 < Kernel.cross (nth i l Kernel.origin) (nth (i + 1) l Kernel.origin)
                     (nth (i + 2) l Kernel.origin).
Proof.
  induction l as [|a l IH]; intros Hl i Hi; [simpl in Hi; lia|].
  destruct l as [|b [|c l]]; try (simpl in Hi; lia).
  destruct Hl as [Hc Hl]. destruct i as [|i].
  - exact Hc.
  - replace (S i + 1)%nat with (S (i + 1)) by lia.
    replace (S i + 2)%nat with (S (i + 2)) by lia.
    cbn [nth]. apply IH; [exact Hl|]. simpl in Hi. simpl. lia.
Qed.

Lemma cross_distinct (a b c : Point) :
  0 < Kernel.cross a b c -> a <> b /\ b <> c /\ a <> c.
Proof.
  unfold Kernel.cross. intros H.
  repeat split; intros E; subst; lra.
Qed.

Lemma cross_same (p : Point) : Kernel.cross p p p = 0.
Proof. unfold Kernel.cross. ring. Qed.

Lemma NoDup_triangle : NoDup triangle.
Proof.
  unfold triangle.
  apply NoDup_cons; [simpl; intros [E|[E|[]]]; injection E; intros; lra|].
  apply NoDup_cons; [simpl; intros [E|[]]; injection E; intros; lra|].
  apply NoDup_cons; [intros [] | apply NoDup_nil].
Qed.

(** Each chain loop of [convexHull] (in both implementations the lower
    chain runs over the sorted points and the upper chain over the sorted
    points from last to first) returns its input with some points left
    out, the order kept, from the first input point to the last one.  Any
    three consecutive points of a chain have a positive [cross] and are
    three different points, and a chain over points without repeats has
    no repeats.  A chain of two points can hold the same point twice:
    three equal points give it.  On three or more points [convexHull] is
    the lower chain without its last point followed by the upper chain
    without its last point. *)
Theorem convexHull_chains_turn_left :
  forall (pts : list Point),
  let c := Kernel.chain pts in
  Subseq c pts /\
  (forall i, (i + 2 < length c)%nat ->
     let p := nth i c Kernel.origin in
     let q := nth (i + 1) c Kernel.origin in
     let r := nth (i + 2) c Kernel.origin in
     0 < Kernel.cross p q r /\ p <> q /\ q <> r /\ p <> r) /\
  (NoDup pts -> NoDup c) /\
  (pts <> [] ->
   first_ c = first_ pts /\
   last c Kernel.origin = last pts Kernel.origin) /\
  ((2 <= length pts)%nat -> (2 <= length c)%nat) /\
  (forall p, Kernel.chain [p; p; p] = [p; p]) /\
  (forall (le : Point -> Point -> bool) (points : list Point),
     (3 <= length points)%nat ->
     Kernel.hullValue le points
     = removelast (Kernel.chain (JS.sortBy le points))
       ++ removelast (Kernel.chain (rev (JS.sortBy le points)))).
Proof.
  intros pts c. subst c.
  destruct (chain_spec pts) as (Hturn & _ & Hhd & Hlen).
  split; [apply chain_subseq|]. split.
  { intros i Hi. cbv zeta.
    pose proof (leftTurns_nth _ Hturn i Hi) as Hc.
    split; [exact Hc | now apply cross_distinct]. }
  split; [apply Subseq_NoDup, chain_subseq|].
  split.
  { intros Hne. split; [|now apply chain_last].
    specialize (Hhd Kernel.origin).
    pose proof (chain_nonempty pts Hne) as Hc.
    destruct pts as [|a pts]; [congruence|].
    destruct (Kernel.chain (a :: pts)) as [|x t]; [congruence|].
    cbn [hd] in Hhd. subst x. reflexivity. }
  split; [exact Hlen|]. split.
  { intros p. unfold Kernel.chain. cbn [fold_left Kernel.pushPoint
      Kernel.popWhile]. unfold Kernel.pushPoint. cbn [Kernel.popWhile].
    rewrite cross_same.
    assert (JS.leb 0 0 = true) as -> by (apply leb_true; lra).
    reflexivity. }
  intros le points H3. unfold Kernel.hullValue.
  destruct (Nat.ltb_spec (length points) 3); [lia | reflexivity].
Qed.

Lemma convexHull_chains_turn_left_witness :
  NoDup triangle /\ NoDup (Kernel.chain triangle).
Proof.
  split; [exact NoDup_triangle|].
  exact (proj1 (proj2 (proj2 (convexHull_chains_turn_left triangle)))
           NoDup_triangle).
Defined.

End ChainOrder.
